(** * scrolly-story-animator: scroll-progress tracker and choreography
      interpolation engine

    A shallow embedding of [src/scrollListener.js] (panel geometry, dock
    tracker, slide-index resolver, scroll-progress publisher) and of
    [map/animateOnScroll.js] (the per-key dispatcher and its viewpoint,
    time-slider and environment handlers), followed by the properties
    the specification states about them.

    Conventions of the embedding.
    - A JavaScript number is a [jsnum]: [NaN], the two infinities, or a
      finite value carried as an exact rational kept in lowest terms.
      The operations of [JsNum] are exact.  The module [Binary64] rounds
      the result of every operation to the nearest double (ties to even,
      an infinity from [2^1024] on) and holds the viewpoint and
      time-slider handlers with that arithmetic; Part IV states on it
      what depends on the rounding.  The sign of zero is not
      represented: no function of the two files divides by a zero it
      has computed.
    - A JavaScript string is the list of its UTF-16 code units.
    - [undefined] is [None]; a thrown exception is the [Throw] completion.
    - Module-level [let] variables become the fields of a state record
      that every callback receives and returns. *)

From Stdlib Require Import ZArith QArith Qabs Qround Qminmax Qreduction.
From Stdlib Require Import Qpower.
From Stdlib Require Import Lia Lqa List String Ascii Bool.
From Stdlib Require Import Permutation.
Import ListNotations.

(* ================================================================== *)
(** * Part I. The embedding                                            *)
(* ================================================================== *)

(** ** Numbers *)

Module JsNum.

Inductive jsnum : Type :=
| NaN
| PInf
| NInf
| Fin (q : Q).

(** Finite results are stored reduced, so that equal numbers are equal
    terms. *)
Definition fin (q : Q) : jsnum := Fin (Qred q).

Definition ofZ (z : Z) : jsnum := Fin (inject_Z z).

Definition isNaN (a : jsnum) : bool :=
  match a with NaN => true | _ => false end.

Definition isFinite (a : jsnum) : bool :=
  match a with Fin _ => true | _ => false end.

(** sign of a rational: [Lt], [Eq] or [Gt] with respect to zero *)
Definition Qsign (q : Q) : comparison := Qcompare q 0.

Definition neg (a : jsnum) : jsnum :=
  match a with
  | NaN => NaN
  | PInf => NInf
  | NInf => PInf
  | Fin q => fin (- q)
  end.

Definition add (a b : jsnum) : jsnum :=
  match a, b with
  | NaN, _ | _, NaN => NaN
  | PInf, NInf | NInf, PInf => NaN
  | PInf, _ | _, PInf => PInf
  | NInf, _ | _, NInf => NInf
  | Fin p, Fin q => fin (p + q)
  end.

Definition sub (a b : jsnum) : jsnum :=
  match a, b with
  | NaN, _ | _, NaN => NaN
  | PInf, PInf | NInf, NInf => NaN
  | PInf, _ | _, NInf => PInf
  | NInf, _ | _, PInf => NInf
  | Fin p, Fin q => fin (p - q)
  end.

(** the infinity whose sign is the product of the signs; [NaN] at zero *)
Definition infOfSign (c : comparison) (positive : bool) : jsnum :=
  match c with
  | Eq => NaN
  | Gt => if positive then PInf else NInf
  | Lt => if positive then NInf else PInf
  end.

Definition mul (a b : jsnum) : jsnum :=
  match a, b with
  | NaN, _ | _, NaN => NaN
  | PInf, PInf | NInf, NInf => PInf
  | PInf, NInf | NInf, PInf => NInf
  | PInf, Fin q | Fin q, PInf => infOfSign (Qsign q) true
  | NInf, Fin q | Fin q, NInf => infOfSign (Qsign q) false
  | Fin p, Fin q => fin (p * q)
  end.

(** Division by a finite zero gives an infinity of the sign of the
    numerator, and [NaN] for [0/0]. *)
Definition div (a b : jsnum) : jsnum :=
  match a, b with
  | NaN, _ | _, NaN => NaN
  | (PInf | NInf), (PInf | NInf) => NaN
  | Fin _, (PInf | NInf) => Fin 0
  | PInf, Fin q =>
      match Qsign q with Lt => NInf | _ => PInf end
  | NInf, Fin q =>
      match Qsign q with Lt => PInf | _ => NInf end
  | Fin p, Fin q =>
      match Qsign q with
      | Eq => infOfSign (Qsign p) true
      | _ => fin (p / q)
      end
  end.

(** [a < b]; false as soon as one side is [NaN] *)
Definition ltb (a b : jsnum) : bool :=
  match a, b with
  | NaN, _ | _, NaN => false
  | _, NInf => false
  | NInf, _ => true
  | PInf, _ => false
  | Fin _, PInf => true
  | Fin p, Fin q => match Qcompare p q with Lt => true | _ => false end
  end.

(** [a <= b]; false as soon as one side is [NaN] *)
Definition leb (a b : jsnum) : bool :=
  match a, b with
  | NaN, _ | _, NaN => false
  | NInf, _ => true
  | _, PInf => true
  | _, NInf => false
  | PInf, _ => false
  | Fin p, Fin q => match Qcompare p q with Gt => false | _ => true end
  end.

(** [Math.max] and [Math.min] of two arguments *)
Definition max (a b : jsnum) : jsnum :=
  match a, b with
  | NaN, _ | _, NaN => NaN
  | _, _ => if ltb a b then b else a
  end.

Definition min (a b : jsnum) : jsnum :=
  match a, b with
  | NaN, _ | _, NaN => NaN
  | _, _ => if ltb b a then b else a
  end.

(** [Math.ceil] *)
Definition ceil (a : jsnum) : jsnum :=
  match a with
  | Fin q => ofZ (Qceiling q)
  | _ => a
  end.

(** truncation toward zero of a rational *)
Definition Qtrunc (q : Q) : Z :=
  if Qle_bool 0 q then Qfloor q else Qceiling q.

End JsNum.

(** ** Strings *)

Module JsString.

(** a string is the list of its UTF-16 code units *)
Definition jsstring : Type := list N.

(** code units of a literal *)
Definition lit (s : string) : jsstring :=
  List.map N_of_ascii (list_ascii_of_string s).

Definition eqb (s t : jsstring) : bool :=
  if list_eq_dec N.eq_dec s t then true else false.

(** [s.split(sep)] for a separator of one code unit: the pieces between
    the occurrences of [sep], in order; never empty *)
Fixpoint split (sep : N) (s : jsstring) : list jsstring :=
  match s with
  | [] => [[]]
  | c :: r =>
      if N.eqb c sep then [] :: split sep r
      else match split sep r with
           | [] => [[c]]
           | piece :: pieces => (c :: piece) :: pieces
           end
  end.

(** [parts.pop()]: the last element, [undefined] on an empty array *)
Fixpoint pop (parts : list jsstring) : option jsstring :=
  match parts with
  | [] => None
  | [p] => Some p
  | _ :: r => pop r
  end.

(** WhiteSpace and LineTerminator code units, as stripped by
    [parseInt] and [parseFloat] *)
Definition isWhiteSpace (c : N) : bool :=
  existsb (N.eqb c)
    [9; 10; 11; 12; 13; 32; 160; 5760; 8232; 8233; 8239; 8287; 12288; 65279]%N
  || (N.leb 8192 c && N.leb c 8202).

Fixpoint trimStart (s : jsstring) : jsstring :=
  match s with
  | c :: r => if isWhiteSpace c then trimStart r else s
  | [] => []
  end.

Definition digitValue (c : N) : option Z :=
  if (N.leb 48 c && N.leb c 57)%bool then Some (Z.of_N c - 48)%Z else None.

(** value of the longest prefix of decimal digits, [acc] being the
    value of the digits already read ([None]: none read yet) *)
Fixpoint digitsPrefix (acc : option Z) (s : jsstring) : option Z :=
  match s with
  | [] => acc
  | c :: r =>
      match digitValue c with
      | None => acc
      | Some d =>
          digitsPrefix
            (Some (match acc with None => d | Some a => 10 * a + d end)%Z) r
      end
  end.

(** [parseInt(s, 10)]; [None] stands for [NaN].  Leading white space is
    skipped, one sign is accepted, and the digits that follow are read
    up to the first other code unit.  The result is the exact integer:
    the rounding of integers beyond 2^53 is not represented. *)
Definition parseInt10 (s : jsstring) : option Z :=
  let S := trimStart s in
  let sign : Z :=
    match S with 45%N :: _ => (-1)%Z | _ => 1%Z end in
  let S' :=
    match S with
    | 45%N :: r => r
    | 43%N :: r => r
    | _ => S
    end in
  match digitsPrefix None S' with
  | None => None
  | Some n => Some (sign * n)%Z
  end.

(** decimal digits of a natural number, most significant first *)
Fixpoint digitsFuel (fuel : nat) (n : N) (acc : jsstring) : jsstring :=
  match fuel with
  | O => acc
  | S fuel' =>
      let acc' := (48 + N.modulo n 10)%N :: acc in
      if N.ltb n 10 then acc' else digitsFuel fuel' (N.div n 10) acc'
  end.

Definition decimal (n : N) : jsstring :=
  digitsFuel (S (N.to_nat (N.log2 n))) n [].

End JsString.

(** ** Completions: a value, or a thrown exception *)

Inductive Error : Type :=
| TypeError.

Inductive Completion (A : Type) : Type :=
| Normal (a : A)
| Throw (e : Error).

Arguments Normal {A} a.
Arguments Throw {A} e.

Definition bind {A B : Type} (c : Completion A) (k : A -> Completion B)
  : Completion B :=
  match c with
  | Normal a => k a
  | Throw e => Throw e
  end.

Notation "x <- c ;; k" := (bind c (fun x => k))
  (at level 61, c at next level, right associativity).

(** ** scrollListener.js *)

Module ScrollListener.
Import JsNum JsString.

(** What the script reads of a narrative panel: its class list, its
    [offsetHeight], and the three computed-style lengths after
    [parseFloat]. *)
Record Panel : Type := {
  classList : list jsstring;
  offsetHeight : Z;
  marginTop : jsnum;
  marginBottom : jsnum;
  paddingBottom : jsnum
}.

(** [element.classList.contains(name)] *)
Definition contains (classes : list jsstring) (name : jsstring) : bool :=
  existsb (JsString.eqb name) classes.

Definition getPanelHeight (panel : Panel) : jsnum :=
  if contains (classList panel) (lit "first")
  then sub (ofZ (offsetHeight panel)) (marginTop panel)
  else if contains (classList panel) (lit "last")
  then sub (ofZ (offsetHeight panel)) (paddingBottom panel)
  else add (add (ofZ (offsetHeight panel)) (marginBottom panel))
           (marginTop panel).

(** [getPanelHeight(panels[i])]: reading a property of [undefined]
    throws *)
Definition getPanelHeightAt (panels : list Panel) (i : nat)
  : Completion jsnum :=
  match nth_error panels i with
  | Some panel => Normal (getPanelHeight panel)
  | None => Throw TypeError
  end.

(** [panels[i]] for an index that may be negative *)
Definition getPanelHeightAtZ (panels : list Panel) (i : Z)
  : Completion jsnum :=
  if (i <? 0)%Z then Throw TypeError
  else getPanelHeightAt panels (Z.to_nat i).

(** [null] counts as [0] in arithmetic *)
Definition toNumber (v : option jsnum) : jsnum :=
  match v with
  | Some a => a
  | None => Fin 0
  end.

(** the [for] loop of [getPanelScrollBounds], [n] iterations left,
    [i] the loop variable *)
Fixpoint accumulate (panels : list Panel) (i n : nat)
         (panelStartScroll : option jsnum) : Completion (option jsnum) :=
  match n with
  | O => Normal panelStartScroll
  | S n' =>
      h <- getPanelHeightAt panels i ;;
      accumulate panels (S i) n' (Some (add (toNumber panelStartScroll) h))
  end.

Record Bounds : Type := {
  panelStartScroll : option jsnum;
  panelEndScroll : jsnum
}.

(** [dockStartScroll] is the module variable the function reads *)
Definition getPanelScrollBounds (dockStartScroll : option jsnum)
           (panels : list Panel) (currentSlide : Z) : Completion Bounds :=
  start <- accumulate panels 0 (Z.to_nat currentSlide) dockStartScroll ;;
  panelHeight <- getPanelHeightAtZ panels currentSlide ;;
  Normal {| panelStartScroll := start;
            panelEndScroll := add (toNumber start) panelHeight |}.

Definition getPanelProgress (dockStartScroll : option jsnum)
           (panels : list Panel) (currentSlide : Z) (scrollY : jsnum)
  : Completion jsnum :=
  b <- getPanelScrollBounds dockStartScroll panels currentSlide ;;
  let progress :=
    div (sub scrollY (toNumber (panelStartScroll b)))
        (sub (panelEndScroll b) (toNumber (panelStartScroll b))) in
  Normal (max (Fin 0) (min (Fin 1) progress)).

(** *** Shared state *)

Inductive Direction : Type :=
| down
| up.

Record State : Type := {
  isDocked : bool;
  dockStartScroll : option jsnum;
  lastScrollY : jsnum;
  scrollDirection : Direction;
  currentSlide : Z
}.

(** the state at load time, [window.scrollY] being [y] *)
Definition initialState (y : jsnum) : State :=
  {| isDocked := false;
     dockStartScroll := None;
     lastScrollY := y;
     scrollDirection := down;
     currentSlide := 0 |}.

(** *** Slide index from the iframe [src] *)

(** The expression both the mutation observer and the scroll handler
    evaluate on [iframe.getAttribute("src") || ""]:
    [parseInt(parts.length > 1 ? parts.pop() : "0", 10)] followed by
    [isNaN(slideNumber) ? 0 : slideNumber]. *)
Definition orEmpty (attr : option jsstring) : jsstring :=
  match attr with
  | Some s => s
  | None => []
  end.

Definition observerSlide (attr : option jsstring) : Z :=
  let newSrc := orEmpty attr in
  let parts := split 35 newSrc in
  let slideNumber :=
    parseInt10 (if (1 <? List.length parts)%nat
                then match pop parts with Some p => p | None => [] end
                else lit "0") in
  match slideNumber with
  | None => 0%Z
  | Some n => n
  end.

Definition fallbackSlide (attr : option jsstring) : Z :=
  let iframeSrc := orEmpty attr in
  let parts := split 35 iframeSrc in
  let slideNumber :=
    parseInt10 (if (1 <? List.length parts)%nat
                then match pop parts with Some p => p | None => [] end
                else lit "0") in
  let detectedSlide :=
    match slideNumber with
    | None => 0%Z
    | Some n => n
    end in
  detectedSlide.

(** *** The page as the callbacks see it *)

Record Iframe : Type := {
  src : option jsstring;        (* [getAttribute("src")], [None] for null *)
  hasContentWindow : bool;
  observed : bool               (* [dataset.observed] already set *)
}.

Record Dom : Type := {
  scrollY : jsnum;                    (* [window.scrollY] *)
  targetClassList : list jsstring;    (* class list of the docking target *)
  panels : list Panel;                (* [div.immersive-narrative-panel] *)
  iframe : option Iframe              (* [querySelector(iframeSelector)] *)
}.

Inductive Payload : Type :=
| InitPayload (isEmbedded : bool)
| ProgressPayload (slide : Z) (progress : jsstring) (isEmbedded : bool).

Record Message : Type := {
  source : jsstring;
  payload : Payload
}.

(** [x.toFixed(2)].  A finite [x] is rounded to the nearest multiple of
    1/100, the larger one on a tie, and printed with two decimals.  (At
    10^21 and above the host switches to exponent notation, which this
    definition does not follow; the publisher only passes values of
    [0,1] or [NaN].) *)
Definition twoDigits (n : N) : jsstring :=
  [(48 + N.div n 10)%N; (48 + N.modulo n 10)%N].

Definition toFixed2 (x : jsnum) : jsstring :=
  match x with
  | NaN => lit "NaN"
  | PInf => lit "Infinity"
  | NInf => lit "-Infinity"
  | Fin q =>
      let s := match Qcompare q 0 with Lt => lit "-" | _ => [] end in
      let n := Z.to_N (Qfloor (Qabs q * 100 + (1 # 2))) in
      s ++ decimal (N.div n 100) ++ lit "." ++ twoDigits (N.modulo n 100)
  end.

(** *** Observers *)

(** callback of the observer made by [createIframeSrcObserver(iframe)] *)
Definition iframeSrcObserver (frame : Iframe) (st : State) : State :=
  {| isDocked := isDocked st;
     dockStartScroll := dockStartScroll st;
     lastScrollY := lastScrollY st;
     scrollDirection := scrollDirection st;
     currentSlide := observerSlide (src frame) |}.

Definition isDown (d : Direction) : bool :=
  match d with down => true | up => false end.

(** callback of the observer installed by [setupDockingObserver] *)
Definition dockingObserver (dom : Dom) (st : State) : State :=
  let currentlyDocked := contains (targetClassList dom) (lit "docked") in
  let st1 :=
    if currentlyDocked && negb (isDocked st)
    then
      let currentScroll := scrollY dom in
      {| isDocked := true;
         dockStartScroll :=
           if isDown (scrollDirection st) then Some currentScroll
           else dockStartScroll st;
         lastScrollY := lastScrollY st;
         scrollDirection := scrollDirection st;
         currentSlide := currentSlide st |}
    else st in
  if negb currentlyDocked && isDocked st1
  then {| isDocked := false;
          dockStartScroll := dockStartScroll st1;
          lastScrollY := lastScrollY st1;
          scrollDirection := scrollDirection st1;
          currentSlide := currentSlide st1 |}
  else st1.

Definition controller : jsstring := lit "storymap-controller".

(** callback of the observer installed by [watchForIframeForever]; the
    result also tells whether the frame gets marked as observed *)
Definition iframeWatcher (dom : Dom) (st : State)
  : State * Completion (list Message) :=
  match iframe dom with
  | Some frame =>
      if negb (observed frame)
      then
        let st' := {| isDocked := isDocked st;
                      dockStartScroll := dockStartScroll st;
                      lastScrollY := lastScrollY st;
                      scrollDirection := scrollDirection st;
                      currentSlide := 0 |} in
        if hasContentWindow frame
        then (st', Normal [ {| source := controller;
                               payload := InitPayload true |} ])
        else (st', Throw TypeError)
      else (st, Normal [])
  | None => (st, Normal [])
  end.

(** *** Scroll tracking *)

Definition isSome {A : Type} (o : option A) : bool :=
  match o with Some _ => true | None => false end.

(** the [scroll] listener installed by [setupScrollListener]: the new
    state and the messages posted to the iframe *)
Definition scrollListener (dom : Dom) (st : State)
  : State * Completion (list Message) :=
  let currentScroll := scrollY dom in
  let direction :=
    if ltb (lastScrollY st) currentScroll then down
    else if ltb currentScroll (lastScrollY st) then up
    else scrollDirection st in
  let st1 := {| isDocked := isDocked st;
                dockStartScroll := dockStartScroll st;
                lastScrollY := currentScroll;
                scrollDirection := direction;
                currentSlide := currentSlide st |} in
  if negb (isDocked st1) || negb (isSome (dockStartScroll st1))
  then (st1, Normal [])
  else
    if (currentSlide st1 <? Z.of_nat (List.length (panels dom)))%Z
    then
      let st2 :=
        match iframe dom with
        | Some frame =>
            let detectedSlide := fallbackSlide (src frame) in
            if negb (detectedSlide =? currentSlide st1)%Z
            then {| isDocked := isDocked st1;
                    dockStartScroll := dockStartScroll st1;
                    lastScrollY := lastScrollY st1;
                    scrollDirection := scrollDirection st1;
                    currentSlide := detectedSlide |}
            else st1
        | None => st1
        end in
      match getPanelProgress (dockStartScroll st2) (panels dom)
                             (currentSlide st2) currentScroll with
      | Throw e => (st2, Throw e)
      | Normal progress =>
          match iframe dom with
          | Some frame =>
              if hasContentWindow frame
              then (st2,
                    Normal [ {| source := controller;
                                payload :=
                                  ProgressPayload (currentSlide st2)
                                                  (toFixed2 progress)
                                                  true |} ])
              else (st2, Normal [])
          | None => (st2, Normal [])
          end
      end
    else (st1, Normal []).

(** *** The callbacks as one machine *)

Inductive Event : Type :=
| DockMutation (dom : Dom)
| SrcMutation (frame : Iframe)
| IframeMutation (dom : Dom)
| Scroll (dom : Dom).

Definition step (e : Event) (st : State) : State :=
  match e with
  | DockMutation dom => dockingObserver dom st
  | SrcMutation frame => iframeSrcObserver frame st
  | IframeMutation dom => fst (iframeWatcher dom st)
  | Scroll dom => fst (scrollListener dom st)
  end.

Fixpoint run (events : list Event) (st : State) : State :=
  match events with
  | [] => st
  | e :: rest => run rest (step e st)
  end.

End ScrollListener.

(** ** map/animateOnScroll.js *)

Module AnimateOnScroll.
Import JsNum JsString.

(** *** Dates *)

(** a [Date] object: its time value in milliseconds since the epoch,
    or the invalid date *)
Inductive Date : Type :=
| InvalidDate
| DateMs (t : Z).

Definition maxTime : Z := 8640000000000000.

(** [new Date(n)] for a number [n]: not finite or beyond the range of
    time values gives the invalid date, otherwise the fraction is cut *)
Definition newDate (n : jsnum) : Date :=
  match n with
  | Fin q =>
      if Qle_bool (Qabs q) (inject_Z maxTime)
      then DateMs (Qtrunc q)
      else InvalidDate
  | _ => InvalidDate
  end.

Definition getTime (d : Date) : jsnum :=
  match d with
  | InvalidDate => NaN
  | DateMs t => ofZ t
  end.

(** days from 1970-01-01 to the given day of the proleptic Gregorian
    calendar *)
Definition daysFromCivil (year month day : Z) : Z :=
  let y' := if (month <=? 2)%Z then (year - 1)%Z else year in
  let era := (y' / 400)%Z in
  let yoe := (y' - era * 400)%Z in
  let mp := if (2 <? month)%Z then (month - 3)%Z else (month + 9)%Z in
  let doy := ((153 * mp + 2) / 5 + day - 1)%Z in
  let doe := (yoe * 365 + yoe / 4 - yoe / 100 + doy)%Z in
  (era * 146097 + doe - 719468)%Z.

Definition msPerDay : Z := 24 * 60 * 60 * 1000.

(** the [Date] of a date-only string [YYYY-MM-DD]: midnight UTC *)
Definition utcDate (year month day : Z) : Date :=
  DateMs (daysFromCivil year month day * msPerDay).

(** *** Keyframe slides *)

(** a spatial reference, identified by its well-known id *)
Definition SpatialReference : Type := Z.

Record Point : Type := {
  spatialReference : option SpatialReference;
  x : option Q;
  y : option Q;
  z : option Q
}.

Record Camera : Type := {
  position : option Point;
  heading : option Q;
  tilt : option Q
}.

Record Geometry : Type := {
  geometrySpatialReference : option SpatialReference;
  xmin : option Q;
  ymin : option Q;
  xmax : option Q;
  ymax : option Q
}.

Record Viewpoint : Type := {
  camera : option Camera;
  rotation : option Q;
  scale : option Q;
  targetGeometry : option Geometry
}.

(** [timeSliderStart] and [timeSliderEnd] hold the [Date] that
    [new Date(...)] makes of the JSON value; [timeSliderStep] is the
    number the product reads. *)
Record TimeSliderData : Type := {
  timeSliderStart : Date;
  timeSliderEnd : Date;
  timeSliderStep : jsnum;
  timeSliderUnit : jsstring
}.

(** [datetime] holds the [Date] that [new Date(...)] makes of it *)
Record Lighting : Type := {
  lightingType : option jsstring;
  datetime : Date;
  displayUTCOffset : option Q
}.

Record Weather : Type := {
  weatherType : option jsstring;
  cloudCover : option jsnum;
  precipitation : option jsnum
}.

Record Environment : Type := {
  lighting : option Lighting;
  weather : option Weather;
  atmosphereEnabled : option bool;
  starsEnabled : option bool
}.

(** A slide is the list of its own properties in insertion order; a
    key occurs at most once, and [Other] carries any key that is none
    of the three above. *)
Inductive Property : Type :=
| PViewpoint (v : Viewpoint)
| PTimeSlider (t : TimeSliderData)
| PEnvironment (e : Environment)
| POther (key : jsstring).

Definition Slide : Type := list Property.

Fixpoint slideViewpoint (s : Slide) : option Viewpoint :=
  match s with
  | [] => None
  | PViewpoint v :: _ => Some v
  | _ :: r => slideViewpoint r
  end.

Fixpoint slideTimeSlider (s : Slide) : option TimeSliderData :=
  match s with
  | [] => None
  | PTimeSlider t :: _ => Some t
  | _ :: r => slideTimeSlider r
  end.

Fixpoint slideEnvironment (s : Slide) : option Environment :=
  match s with
  | [] => None
  | PEnvironment e :: _ => Some e
  | _ :: r => slideEnvironment r
  end.

(** *** configAnimation.js *)

Record GoToOptions : Type := {
  animate : bool;
  duration : option Z
}.

Record Config : Type := {
  mapFit : jsstring;
  goToConfig : GoToOptions
}.

Definition animationConfig : Config :=
  {| mapFit := lit "scale";
     goToConfig := {| animate := true; duration := Some 1000%Z |} |}.

(** *** The host objects the handlers act on *)

Record PointJSON : Type := {
  pSpatialReference : option SpatialReference;
  px : option jsnum;
  py : option jsnum;
  pz : option jsnum
}.

Record CameraJSON : Type := {
  cPosition : PointJSON;
  cHeading : option jsnum;
  cTilt : option jsnum
}.

Record GeometryJSON : Type := {
  gSpatialReference : option SpatialReference;
  gxmin : option jsnum;
  gymin : option jsnum;
  gxmax : option jsnum;
  gymax : option jsnum
}.

Record ViewpointJSON : Type := {
  vRotation : option jsnum;
  vScale : option jsnum;
  vTargetGeometry : GeometryJSON
}.

(** what [goTo] is handed: a camera, a whole viewpoint, or a geometry
    to fit together with a rotation *)
Inductive Target : Type :=
| TargetCamera (c : CameraJSON)
| TargetViewpoint (v : ViewpointJSON)
| TargetExtent (g : GeometryJSON) (rotation : option jsnum).

Record GoToCall : Type := {
  target : Target;
  options : GoToOptions
}.

Record LightingJSON : Type := {
  eLightingType : option jsstring;
  eDate : Date;
  eDisplayUTCOffset : option Q
}.

Record WeatherJSON : Type := {
  eWeatherType : option jsstring;
  eCloudCover : option jsnum;
  ePrecipitation : option jsnum
}.

Record EnvironmentJSON : Type := {
  eLighting : LightingJSON;
  eAtmosphereEnabled : option bool;
  eStarsEnabled : option bool;
  eWeather : WeatherJSON
}.

Record MapView : Type := {
  hasCamera : bool;                       (* a SceneView has [camera] *)
  viewEnvironment : option EnvironmentJSON;
  goToCalls : list GoToCall               (* calls received, oldest first *)
}.

Record TimeExtent : Type := {
  extentStart : option Date;              (* [None] for null *)
  extentEnd : option Date
}.

Record TimeSlider : Type := {
  timeExtent : option TimeExtent;
  playing : bool
}.

(** [mapView] and [timeSlider] are [None] while the page has none;
    [consoleErrors] lists what was passed to [console.error] *)
Record World : Type := {
  mapView : option MapView;
  timeSlider : option TimeSlider;
  consoleErrors : list jsstring
}.

Definition logError (label : jsstring) (w : World) : World :=
  {| mapView := mapView w;
     timeSlider := timeSlider w;
     consoleErrors := consoleErrors w ++ [label] |}.

(** what a handler returns to the dispatcher *)
Inductive Value : Type :=
| Undefined
| DateValue (d : Date).

(** [progress] is the number the arithmetic of the handlers reads off
    the progress they are given *)
Record Context : Type := {
  slideCurrent : Slide;
  slideNext : option Slide;
  progress : jsnum
}.

(** *** interpolateViewpoint *)

(** The arithmetic of the three handlers below is exact.  [Binary64],
    further down, repeats the viewpoint and the time-slider handler
    with the result of every operation rounded to a double. *)

Definition easeInOut (t : jsnum) : jsnum :=
  if ltb t (Fin (1 # 2))
  then mul (mul (Fin 2) t) t
  else add (Fin (-1)) (mul (sub (Fin 4) (mul (Fin 2) t)) t).

(** [u], the eased progress *)
Definition eased (progress : jsnum) : jsnum :=
  easeInOut (max (Fin 0) (min (Fin 1) progress)).

(** [(a === undefined || b === undefined) ? (a ?? b) : a + (b - a) * t] *)
Definition lerp (a b : option Q) (t : jsnum) : option jsnum :=
  match a, b with
  | Some a', Some b' => Some (add (Fin a') (mul (sub (Fin b') (Fin a')) t))
  | Some a', None => Some (Fin a')
  | None, _ => option_map Fin b
  end.

(** [a || b] on objects that may be undefined *)
Definition orElse {A : Type} (a b : option A) : option A :=
  match a with
  | Some _ => a
  | None => b
  end.

Definition isSome {A : Type} (o : option A) : bool :=
  match o with Some _ => true | None => false end.

(** the object literal [interpolatedCamera]; reading [position] of a
    camera that has none throws *)
Definition interpolatedCamera (currentCamera nextCamera : Camera)
           (u : jsnum) : Completion CameraJSON :=
  match position currentCamera, position nextCamera with
  | Some cp, Some np =>
      Normal
        {| cPosition :=
             {| pSpatialReference :=
                  orElse (spatialReference cp) (spatialReference np);
                px := lerp (x cp) (x np) u;
                py := lerp (y cp) (y np) u;
                pz := lerp (z cp) (z np) u |};
           cHeading := lerp (heading currentCamera) (heading nextCamera) u;
           cTilt := lerp (tilt currentCamera) (tilt nextCamera) u |}
  | _, _ => Throw TypeError
  end.

(** the object literal [viewpointJSON] *)
Definition interpolatedViewpoint (currentViewpoint nextViewpoint : Viewpoint)
           (u : jsnum) : Completion ViewpointJSON :=
  match targetGeometry currentViewpoint, targetGeometry nextViewpoint with
  | Some cg, Some ng =>
      Normal
        {| vRotation :=
             lerp (rotation currentViewpoint) (rotation nextViewpoint) u;
           vScale := lerp (scale currentViewpoint) (scale nextViewpoint) u;
           vTargetGeometry :=
             {| gSpatialReference :=
                  orElse (geometrySpatialReference cg)
                         (geometrySpatialReference ng);
                gxmin := lerp (xmin cg) (xmin ng) u;
                gymin := lerp (ymin cg) (ymin ng) u;
                gxmax := lerp (xmax cg) (xmax ng) u;
                gymax := lerp (ymax cg) (ymax ng) u |} |}
  | _, _ => Throw TypeError
  end.

(** [mapView.goTo(target, options)]; the promise it returns has its
    rejection handled on the spot *)
Definition goTo (call : GoToCall) (w : World) : World * Completion Value :=
  match mapView w with
  | Some mv =>
      ({| mapView := Some {| hasCamera := hasCamera mv;
                             viewEnvironment := viewEnvironment mv;
                             goToCalls := goToCalls mv ++ [call] |};
          timeSlider := timeSlider w;
          consoleErrors := consoleErrors w |},
       Normal Undefined)
  | None => (w, Throw TypeError)
  end.

Definition is3DView (w : World) : bool :=
  match mapView w with
  | Some mv => hasCamera mv
  | None => false
  end.

Definition interpolateViewpoint (config : Config) (ctx : Context)
           (w : World) : World * Completion Value :=
  let currentViewpoint := slideViewpoint (slideCurrent ctx) in
  let nextViewpoint :=
    match slideNext ctx with
    | Some next => slideViewpoint next
    | None => None
    end in
  match currentViewpoint with
  | None => (w, Throw TypeError)      (* [slideCurrent?.viewpoint.camera] *)
  | Some cv =>
  let currentCamera := camera cv in
  match (match slideNext ctx with
         | None => Normal None
         | Some _ =>
             match nextViewpoint with
             | Some nv => Normal (camera nv)
             | None => Throw TypeError  (* [slideNext?.viewpoint.camera] *)
             end
         end) with
  | Throw e => (w, Throw e)
  | Normal nextCamera =>
  let u := eased (progress ctx) in
  if is3DView w && (isSome currentCamera || isSome nextCamera)
  then
    match currentCamera, nextCamera with
    | Some cc, Some nc =>
        match interpolatedCamera cc nc u with
        | Throw e => (w, Throw e)
        | Normal targetCamera =>
            goTo {| target := TargetCamera targetCamera;
                    options := {| animate := false; duration := None |} |} w
        end
    | _, _ => (w, Normal Undefined)
    end
  else
    match nextViewpoint with
    | None => (w, Normal Undefined)
    | Some nv =>
        match interpolatedViewpoint cv nv u with
        | Throw e => (w, Throw e)
        | Normal targetViewpoint =>
            let target :=
              if JsString.eqb (mapFit config) (lit "scale")
              then TargetViewpoint targetViewpoint
              else TargetExtent (vTargetGeometry targetViewpoint)
                                (vRotation targetViewpoint) in
            goTo {| target := target; options := goToConfig config |} w
        end
    end
  end
  end.

(** *** interpolateTimeSlider *)

(** what [unitToMs[unit]] finds: an entry of the table, a member that
    every object inherits, or nothing *)
Inductive Member : Type :=
| Own (ms : Z)
| Inherited
| Absent.

Definition inheritedNames : list jsstring :=
  List.map lit
    [ "constructor"; "hasOwnProperty"; "isPrototypeOf";
      "propertyIsEnumerable"; "toLocaleString"; "toString"; "valueOf";
      "__defineGetter__"; "__defineSetter__"; "__lookupGetter__";
      "__lookupSetter__"; "__proto__" ]%string.

Definition unitToMs (unit : jsstring) : Member :=
  if JsString.eqb unit (lit "milliseconds") then Own 1
  else if JsString.eqb unit (lit "seconds") then Own 1000
  else if JsString.eqb unit (lit "minutes") then Own (60 * 1000)
  else if JsString.eqb unit (lit "hours") then Own (60 * 60 * 1000)
  else if JsString.eqb unit (lit "days") then Own (24 * 60 * 60 * 1000)
  else if JsString.eqb unit (lit "weeks") then Own (7 * 24 * 60 * 60 * 1000)
  else if JsString.eqb unit (lit "months")
       then Own (30 * 24 * 60 * 60 * 1000)
  else if JsString.eqb unit (lit "years")
       then Own (365 * 24 * 60 * 60 * 1000)
  else if existsb (JsString.eqb unit) inheritedNames then Inherited
  else Absent.

(** [step * (unitToMs[unit] || 0)]: an inherited member is truthy and
    is no number *)
Definition stepMsOf (step : jsnum) (unit : jsstring) : jsnum :=
  mul step
      match unitToMs unit with
      | Own ms => ofZ ms
      | Inherited => NaN
      | Absent => Fin 0
      end.

Definition timeSliderError : jsstring := lit "Error setting time slider:".

Definition interpolateTimeSlider (ctx : Context) (w : World)
  : World * Completion Value :=
  match slideTimeSlider (slideCurrent ctx) with
  | None => (logError timeSliderError w, Normal Undefined)
  | Some slideTimeData =>
      let start := timeSliderStart slideTimeData in
      let end_ := timeSliderEnd slideTimeData in
      let step := timeSliderStep slideTimeData in
      let unit := timeSliderUnit slideTimeData in
      let interpolate fromVal toVal :=
        add fromVal (mul (sub toVal fromVal) (progress ctx)) in
      let interpolatedTime := interpolate (getTime start) (getTime end_) in
      let stepMs := stepMsOf step unit in
      if leb stepMs (Fin 0)
      then (w, Normal (DateValue
                         (newDate (min interpolatedTime (getTime end_)))))
      else
        let offset := sub interpolatedTime (getTime start) in
        let snappedOffset := mul (ceil (div offset stepMs)) stepMs in
        let snappedTime := add (getTime start) snappedOffset in
        let clampedTime :=
          min (max snappedTime (getTime start)) (getTime end_) in
        match timeSlider w with
        | None => (logError timeSliderError w, Normal Undefined)
        | Some _ =>
            ({| mapView := mapView w;
                timeSlider :=
                  Some {| timeExtent :=
                            Some {| extentStart := None;
                                    extentEnd :=
                                      Some (newDate clampedTime) |};
                          playing := false |};
                consoleErrors := consoleErrors w |},
             Normal Undefined)
        end
  end.

(** *** interpolateEnvironment *)

(** one weather magnitude: interpolated when both sides are defined
    and neither is [NaN], else the current slide's raw value *)
Definition interpolateMagnitude (interpolate : jsnum -> jsnum -> jsnum)
           (current next : option jsnum) : option jsnum :=
  match current, next with
  | Some c0, Some c1 =>
      if negb (isNaN c0) && negb (isNaN c1)
      then Some (interpolate c0 c1)
      else current
  | _, _ => current
  end.

Definition interpolateEnvironment (ctx : Context) (w : World)
  : World * Completion Value :=
  let currentEnv := slideEnvironment (slideCurrent ctx) in
  let nextEnv :=
    match slideNext ctx with
    | Some next => slideEnvironment next
    | None => None
    end in
  let interpolate fromVal toVal :=
    add fromVal (mul (sub toVal fromVal) (progress ctx)) in
  match currentEnv, nextEnv with
  | Some ce, Some ne =>
      match lighting ce, lighting ne, weather ce, weather ne, mapView w with
      | Some cl, Some nl, Some cw, Some nw, Some mv =>
          let interpolatedLighting :=
            interpolate (getTime (datetime cl)) (getTime (datetime nl)) in
          let interpolatedCloudCover :=
            interpolateMagnitude interpolate (cloudCover cw)
                                 (cloudCover nw) in
          let interpolatedPrecipitation :=
            interpolateMagnitude interpolate (precipitation cw)
                                 (precipitation nw) in
          ({| mapView :=
                Some {| hasCamera := hasCamera mv;
                        viewEnvironment :=
                          Some {| eLighting :=
                                    {| eLightingType := lightingType nl;
                                       eDate := newDate interpolatedLighting;
                                       eDisplayUTCOffset :=
                                         displayUTCOffset nl |};
                                  eAtmosphereEnabled := atmosphereEnabled ce;
                                  eStarsEnabled := starsEnabled ce;
                                  eWeather :=
                                    {| eWeatherType := weatherType nw;
                                       eCloudCover := interpolatedCloudCover;
                                       ePrecipitation :=
                                         interpolatedPrecipitation |} |};
                        goToCalls := goToCalls mv |};
              timeSlider := timeSlider w;
              consoleErrors := consoleErrors w |},
           Normal Undefined)
      | _, _, _, _, _ => (w, Throw TypeError)
      end
  | _, _ => (w, Normal Undefined)
  end.

(** *** scrollAnimation *)

Definition keyOf (p : Property) : jsstring :=
  match p with
  | PViewpoint _ => lit "viewpoint"
  | PTimeSlider _ => lit "timeSlider"
  | PEnvironment _ => lit "environment"
  | POther key => key
  end.

(** The function [choreographyHandlers[key]] finds, if it finds one.
    Besides the three handlers of the table these are the functions
    every object inherits; called with the context they leave the map
    and the slider alone, and two of them throw. *)
Definition choreographyHandlers (config : Config) (p : Property)
  : option (Context -> World -> World * Completion Value) :=
  match p with
  | PViewpoint _ => Some (interpolateViewpoint config)
  | PTimeSlider _ => Some interpolateTimeSlider
  | PEnvironment _ => Some interpolateEnvironment
  | POther key =>
      if existsb (JsString.eqb key)
           (List.map lit ["__defineGetter__"; "__defineSetter__"]%string)
      then Some (fun _ w => (w, Throw TypeError))
      else if JsString.eqb key (lit "__proto__") then None
      else if existsb (JsString.eqb key) inheritedNames
      then Some (fun _ w => (w, Normal Undefined))
      else None
  end.

(** body of the [forEach]: the handler under its [try]/[catch] *)
Definition dispatchKey (config : Config) (ctx : Context) (w : World)
           (p : Property) : World :=
  match choreographyHandlers config p with
  | None => w
  | Some handler =>
      match handler ctx w with
      | (w', Normal _) => w'
      | (w', Throw _) => logError (keyOf p) w'
      end
  end.

(** the [forEach] over the keys [keys], with the context of the call *)
Definition dispatch (config : Config) (ctx : Context) (keys : list Property)
           (w : World) : World :=
  fold_left (dispatchKey config ctx) keys w.

(** [Object.keys] of an undefined slide throws *)
Definition scrollAnimation (config : Config)
           (slideCurrent slideNext : option Slide) (progress : jsnum)
           (w : World) : World * Completion Value :=
  match slideCurrent with
  | None => (w, Throw TypeError)
  | Some current =>
      let context := {| slideCurrent := current;
                        slideNext := slideNext;
                        progress := progress |} in
      (dispatch config context current w, Normal Undefined)
  end.

End AnimateOnScroll.

(** ** The rule the specification words for the slide index *)

Module SlideIndexSpec.
Import JsString.

(** the segment after the last ['#'], if the string has one *)
Fixpoint afterLastHash (s : jsstring) : option jsstring :=
  match s with
  | [] => None
  | c :: r =>
      match afterLastHash r with
      | Some seg => Some seg
      | None => if N.eqb c 35 then Some r else None
      end
  end.

(** index 0 without a ['#']; otherwise the segment read as a base-10
    integer, 0 when that fails *)
Definition slideIndex (s : jsstring) : Z :=
  match afterLastHash s with
  | None => 0%Z
  | Some seg =>
      match parseInt10 seg with
      | Some n => n
      | None => 0%Z
      end
  end.

End SlideIndexSpec.

(** ** Notions the statements use *)

(** clamping a rational to the unit interval *)
Definition clamp01 (r : Q) : Q := Qmax 0 (Qmin 1 r).

(** [d] is a valid date whose time value is [t] *)
Definition timeValue (d : AnimateOnScroll.Date) (t : Z) : Prop :=
  d = AnimateOnScroll.DateMs t /\ (Z.abs t <= AnimateOnScroll.maxTime)%Z.

(** The numbers of the time-slider interpolation, for a start [s], an
    end [e], a progress [p] and a step of [m] milliseconds: the offset of
    the interpolated instant from the start, that offset moved up to a
    multiple of the step, and the snapped instant clamped. *)
Definition interpolatedOffset (s e : Z) (p : Q) : Q :=
  inject_Z s + (inject_Z e - inject_Z s) * p - inject_Z s.

Definition snappedOffset (s e : Z) (p m : Q) : Q :=
  inject_Z (Qceiling (interpolatedOffset s e p / m)) * m.

Definition clampedTime (s e : Z) (p m : Q) : Q :=
  Qmin (Qmax (inject_Z s + snappedOffset s e p m) (inject_Z s)) (inject_Z e).

(** the slider once its extent ends at [t] and playback is stopped *)
Definition sliderStoppedAt (t : Z) : AnimateOnScroll.TimeSlider :=
  {| AnimateOnScroll.timeExtent :=
       Some {| AnimateOnScroll.extentStart := None;
               AnimateOnScroll.extentEnd := Some (AnimateOnScroll.DateMs t) |};
     AnimateOnScroll.playing := false |}.

(** the world with its slider replaced *)
Definition withSlider (w : AnimateOnScroll.World)
           (slider : AnimateOnScroll.TimeSlider) : AnimateOnScroll.World :=
  {| AnimateOnScroll.mapView := AnimateOnScroll.mapView w;
     AnimateOnScroll.timeSlider := Some slider;
     AnimateOnScroll.consoleErrors := AnimateOnScroll.consoleErrors w |}.

(** the viewpoint of a slide that may be missing *)
Definition viewpointOf (s : option AnimateOnScroll.Slide)
  : option AnimateOnScroll.Viewpoint :=
  match s with
  | Some slide => AnimateOnScroll.slideViewpoint slide
  | None => None
  end.

(** Exactly one side of the pair is missing: one slide has a viewpoint
    and the other has none, or, on a 3D view, both have a viewpoint and
    only one of the two has a camera. *)
Definition oneSideMissing (threeD : bool) (current : AnimateOnScroll.Slide)
           (next : option AnimateOnScroll.Slide) : Prop :=
  (AnimateOnScroll.slideViewpoint current = None /\ viewpointOf next <> None)
  \/ (AnimateOnScroll.slideViewpoint current <> None
      /\ viewpointOf next = None)
  \/ (threeD = true
      /\ exists cv nv,
          AnimateOnScroll.slideViewpoint current = Some cv
          /\ viewpointOf next = Some nv
          /\ ((AnimateOnScroll.camera cv = None
               /\ AnimateOnScroll.camera nv <> None)
              \/ (AnimateOnScroll.camera cv <> None
                  /\ AnimateOnScroll.camera nv = None))).

(** the [goTo] calls a world has recorded *)
Definition navigation (w : AnimateOnScroll.World)
  : option (list AnimateOnScroll.GoToCall) :=
  option_map AnimateOnScroll.goToCalls (AnimateOnScroll.mapView w).

(** two worlds with the same map view and the same slider; their
    consoles may differ *)
Definition sameMapAndSlider (w1 w2 : AnimateOnScroll.World) : Prop :=
  AnimateOnScroll.mapView w1 = AnimateOnScroll.mapView w2
  /\ AnimateOnScroll.timeSlider w1 = AnimateOnScroll.timeSlider w2.

(** the properties of a slide other than its viewpoint *)
Definition withoutViewpoint (keys : list AnimateOnScroll.Property)
  : list AnimateOnScroll.Property :=
  filter (fun p => match p with
                   | AnimateOnScroll.PViewpoint _ => false
                   | _ => true
                   end) keys.

(** the progress message the scroll handler posts *)
Definition progressMessage (slide : Z) (progress : JsString.jsstring)
  : ScrollListener.Message :=
  {| ScrollListener.source := ScrollListener.controller;
     ScrollListener.payload :=
       ScrollListener.ProgressPayload slide progress true |}.

(** ** The page after the iframe watcher has run *)

Module IframeWatch.
Import ScrollListener.

(** [iframe.dataset.observed = "true"], which the callback of
    [watchForIframeForever] writes on a frame it finds unobserved *)
Definition markObserved (dom : Dom) : Dom :=
  match iframe dom with
  | Some frame =>
      if negb (observed frame)
      then {| scrollY := scrollY dom;
              targetClassList := targetClassList dom;
              panels := panels dom;
              iframe := Some {| src := src frame;
                                hasContentWindow := hasContentWindow frame;
                                observed := true |} |}
      else dom
  | None => dom
  end.

End IframeWatch.

(** the slider once its extent ends at the invalid date and playback is
    stopped *)
Definition sliderStoppedInvalid : AnimateOnScroll.TimeSlider :=
  {| AnimateOnScroll.timeExtent :=
       Some {| AnimateOnScroll.extentStart := None;
               AnimateOnScroll.extentEnd :=
                 Some AnimateOnScroll.InvalidDate |};
     AnimateOnScroll.playing := false |}.

(** the environment a world's map view shows *)
Definition environmentOf (w : AnimateOnScroll.World)
  : option (option AnimateOnScroll.EnvironmentJSON) :=
  option_map AnimateOnScroll.viewEnvironment (AnimateOnScroll.mapView w).


(** the environment of the next slide, when there is a next slide *)
Definition environmentOfNext (next : option AnimateOnScroll.Slide)
  : option AnimateOnScroll.Environment :=
  match next with
  | Some slide => AnimateOnScroll.slideEnvironment slide
  | None => None
  end.

(** what the handler found for a key does to the world, the outcome
    set aside *)
Definition handlerEffect (config : AnimateOnScroll.Config)
           (ctx : AnimateOnScroll.Context) (p : AnimateOnScroll.Property)
           (w : AnimateOnScroll.World) : AnimateOnScroll.World :=
  match AnimateOnScroll.choreographyHandlers config p with
  | Some handler => fst (handler ctx w)
  | None => w
  end.

(** a slide holds each of the three keys at most once *)
Definition keysOnce (keys : AnimateOnScroll.Slide) : Prop :=
  (forall v v', In (AnimateOnScroll.PViewpoint v) keys ->
                In (AnimateOnScroll.PViewpoint v') keys -> v = v')
  /\ (forall t t', In (AnimateOnScroll.PTimeSlider t) keys ->
                   In (AnimateOnScroll.PTimeSlider t') keys -> t = t')
  /\ (forall e e', In (AnimateOnScroll.PEnvironment e) keys ->
                   In (AnimateOnScroll.PEnvironment e') keys -> e = e').

(** ** animateMap.js: the listeners of the map page *)

Module AnimateMap.
Import JsNum JsString AnimateOnScroll.

(** *** The number a text stands for *)

(** value of a code unit as a digit of the given radix *)
Definition digitOf (radix : N) (c : N) : option N :=
  let v :=
    if (N.leb 48 c && N.leb c 57)%bool then Some (c - 48)%N
    else if (N.leb 97 c && N.leb c 102)%bool then Some (c - 87)%N
    else if (N.leb 65 c && N.leb c 70)%bool then Some (c - 55)%N
    else None in
  match v with
  | Some d => if N.ltb d radix then Some d else None
  | None => None
  end.

(** the longest prefix of digits: its value, its length, and what
    follows it *)
Fixpoint readDigits (radix : N) (s : jsstring) (value : N) (count : nat)
  : N * nat * jsstring :=
  match s with
  | [] => (value, count, [])
  | c :: r =>
      match digitOf radix c with
      | Some d => readDigits radix r (radix * value + d)%N (S count)
      | None => (value, count, s)
      end
  end.

Definition trimEnd (s : jsstring) : jsstring := rev (trimStart (rev s)).

(** a text made of digits of the radix only, and of at least one *)
Definition radixLiteral (radix : N) (s : jsstring) : jsnum :=
  match readDigits radix s 0 0 with
  | (n, S _, []) => ofZ (Z.of_N n)
  | _ => NaN
  end.

(** the exponent part that may follow the digits: [None] when what
    follows is no exponent part *)
Definition exponentPart (s : jsstring) : option Z :=
  match s with
  | [] => Some 0%Z
  | c :: r =>
      if (N.eqb c 101 || N.eqb c 69)%bool
      then
        let negative := match r with 45%N :: _ => true | _ => false end in
        let digits := match r with
                      | 45%N :: r' => r'
                      | 43%N :: r' => r'
                      | _ => r
                      end in
        match readDigits 10 digits 0 0 with
        | (n, S _, []) =>
            Some (if negative then (- Z.of_N n)%Z else Z.of_N n)
        | _ => None
        end
      else None
  end.

(** an unsigned decimal text: digits, a fraction, an exponent *)
Definition decimalLiteral (s : jsstring) : jsnum :=
  if JsString.eqb s (lit "Infinity") then PInf
  else
    let '(n1, k1, rest1) := readDigits 10 s 0 0 in
    let '(n2, k2, rest2) :=
      match rest1 with
      | 46%N :: frac => readDigits 10 frac 0 0
      | _ => (0%N, O, rest1)
      end in
    match (k1 + k2)%nat, exponentPart rest2 with
    | S _, Some exponent =>
        fin ((inject_Z (Z.of_N n1)
              + inject_Z (Z.of_N n2) / inject_Z (10 ^ Z.of_nat k2))
             * Qpower 10 exponent)
    | _, _ => NaN
    end.

(** The number a text is read as in arithmetic: white space around it
    is dropped, the empty text is 0, a radix prefix or a sign may come
    first, and a text that is no numeric literal is [NaN].  The value is
    the exact one. *)
Definition stringToNumber (s : jsstring) : jsnum :=
  let t := trimEnd (trimStart s) in
  match t with
  | [] => Fin 0
  | 48%N :: c :: r =>
      if (N.eqb c 120 || N.eqb c 88)%bool then radixLiteral 16 r
      else if (N.eqb c 111 || N.eqb c 79)%bool then radixLiteral 8 r
      else if (N.eqb c 98 || N.eqb c 66)%bool then radixLiteral 2 r
      else decimalLiteral t
  | 45%N :: r => neg (decimalLiteral r)
  | 43%N :: r => decimalLiteral r
  | _ => decimalLiteral t
  end.

(** *** The state of the page *)

(** the module variables of the page; [world] holds [mapView] and
    [timeSlider], and [hashIndexLast] is [None] while it is null *)
Record Animator : Type := {
  slides : list Slide;
  isEmbedded : bool;
  hashIndexLast : option Z;
  world : World
}.

(** [slides[i]], for an index that may be undefined or negative *)
Definition slideAt (slides : list Slide) (i : option Z) : option Slide :=
  match i with
  | Some k => if (k <? 0)%Z then None else nth_error slides (Z.to_nat k)
  | None => None
  end.

(** what the listener reads of a payload: a field that the payload
    lacks is undefined *)
Definition payloadSlide (p : ScrollListener.Payload) : option Z :=
  match p with
  | ScrollListener.ProgressPayload slide _ _ => Some slide
  | ScrollListener.InitPayload _ => None
  end.

Definition payloadIsEmbedded (p : ScrollListener.Payload) : bool :=
  match p with
  | ScrollListener.ProgressPayload _ _ flag => flag
  | ScrollListener.InitPayload flag => flag
  end.

(** the number the handlers read off [payload.progress] *)
Definition payloadProgress (p : ScrollListener.Payload) : jsnum :=
  match p with
  | ScrollListener.ProgressPayload _ text _ => stringToNumber text
  | ScrollListener.InitPayload _ => NaN
  end.

(** [payload.slide !== hashIndexLast] *)
Definition differs (slide last : option Z) : bool :=
  match slide, last with
  | Some k, Some k' => negb (k =? k')%Z
  | None, None => false
  | _, _ => true
  end.

Section Listeners.

(** [slideAnimation] lives in animateOnSlide.js; the listeners are read
    for any function in its place.  [config] is the configuration the
    handlers import. *)
Variable slideAnimation :
  option Slide -> World -> bool -> World * Completion Value.
Variable config : Config.

(** the listener installed by [setupMessageListener] *)
Definition messageListener (message : ScrollListener.Message) (a : Animator)
  : Animator * Completion Value :=
  if negb (JsString.eqb (ScrollListener.source message)
                        ScrollListener.controller)
  then (a, Normal Undefined)
  else
    let payload := ScrollListener.payload message in
    let embedded := payloadIsEmbedded payload in
    let currentSlide := slideAt (slides a) (payloadSlide payload) in
    let nextSlide :=
      slideAt (slides a) (option_map (fun k => (k + 1)%Z)
                                     (payloadSlide payload)) in
    match scrollAnimation config currentSlide nextSlide
                          (payloadProgress payload) (world a) with
    | (w', Throw e) =>
        ({| slides := slides a; isEmbedded := embedded;
            hashIndexLast := hashIndexLast a; world := w' |}, Throw e)
    | (w', Normal _) =>
        if differs (payloadSlide payload) (hashIndexLast a)
        then
          let '(w'', outcome) := slideAnimation currentSlide w' embedded in
          ({| slides := slides a; isEmbedded := embedded;
              hashIndexLast := payloadSlide payload; world := w'' |},
           outcome)
        else
          ({| slides := slides a; isEmbedded := embedded;
              hashIndexLast := hashIndexLast a; world := w' |},
           Normal Undefined)
    end.

(** the listener installed by [setupHashListener], [hash] being
    [window.location.hash] *)
Definition hashListener (hash : jsstring) (a : Animator)
  : Animator * Completion Value :=
  let hashIndex := parseInt10 (List.tl hash) in
  match hashIndex with
  | None => (a, Normal Undefined)
  | Some k =>
      match slideAt (slides a) (Some k) with
      | None => (a, Normal Undefined)
      | Some currentSlide =>
          let '(w', outcome) :=
            slideAnimation (Some currentSlide) (world a) (isEmbedded a) in
          ({| slides := slides a; isEmbedded := isEmbedded a;
              hashIndexLast := hashIndexLast a; world := w' |},
           outcome)
      end
  end.

(** the messages of a list, handled one after the other *)
Fixpoint handleAll (messages : list ScrollListener.Message) (a : Animator)
  : Animator :=
  match messages with
  | [] => a
  | m :: rest => handleAll rest (fst (messageListener m a))
  end.

End Listeners.

End AnimateMap.

(** a message that says it comes from the controller *)
Definition fromController (message : ScrollListener.Message) : bool :=
  JsString.eqb (ScrollListener.source message) ScrollListener.controller.

(** the state of the page with the embedded flag and the world
    replaced *)
Definition withFlagAndWorld (a : AnimateMap.Animator) (flag : bool)
           (w : AnimateOnScroll.World) : AnimateMap.Animator :=
  {| AnimateMap.slides := AnimateMap.slides a;
     AnimateMap.isEmbedded := flag;
     AnimateMap.hashIndexLast := AnimateMap.hashIndexLast a;
     AnimateMap.world := w |}.


(** ** Double precision *)

Module Binary64.
Import JsNum JsString AnimateOnScroll.

(** *** Rounding *)

(** [2^k], for an exponent of either sign *)
Definition pow2 (k : Z) : Q := Qpower 2 k.

(** for a positive [q], the [k] with [2^k <= q < 2^(k+1)] *)
Definition ilog2 (q : Q) : Z :=
  let l := (Z.log2 (Qnum q) - Z.log2 (Zpos (Qden q)))%Z in
  if Qle_bool (pow2 l) q then l else (l - 1)%Z.

(** the integer nearest to [m], the even one of two that are equally
    near *)
Definition roundHalfEven (m : Q) : Z :=
  let f := Qfloor m in
  match Qcompare (m - inject_Z f) (1 # 2) with
  | Lt => f
  | Gt => (f + 1)%Z
  | Eq => if Z.even f then f else (f + 1)%Z
  end.

(** the exponent of the last place of the doubles around a positive
    [q]: 53 significant bits, and no place below [2^-1074] *)
Definition exponent (q : Q) : Z := Z.max (ilog2 q - 52) (-1074).

(** the multiple of [2^exponent] nearest to a positive [q] *)
Definition nearest (q : Q) : Q :=
  inject_Z (roundHalfEven (q / pow2 (exponent q))) * pow2 (exponent q).

(** rounding to nearest, ties to even, with the exponent unbounded
    above *)
Definition rnd (q : Q) : Q :=
  match Qcompare q 0 with
  | Eq => 0
  | Gt => nearest q
  | Lt => - nearest (- q)
  end.

(** a number that is a double, the range set aside: at most 53 bits,
    at a place that is not below [2^-1074] *)
Definition representable (q : Q) : Prop :=
  exists m e : Z,
    (Z.abs m < 2 ^ 53)%Z /\ (-1074 <= e)%Z /\ q == inject_Z m * pow2 e.

(** the double a real number is rounded to: from [2^1024] on the
    result is an infinity *)
Definition round (q : Q) : jsnum :=
  let r := rnd q in
  if Qle_bool (pow2 1024) r then PInf
  else if Qle_bool r (- pow2 1024) then NInf
  else fin r.

(** the double a number stands for; this is how a decimal text, in a
    JSON file or in a message, is read *)
Definition number (a : jsnum) : jsnum :=
  match a with
  | Fin q => round q
  | _ => a
  end.

(** the four operations: the exact result, rounded *)
Definition add (a b : jsnum) : jsnum := number (JsNum.add a b).
Definition sub (a b : jsnum) : jsnum := number (JsNum.sub a b).
Definition mul (a b : jsnum) : jsnum := number (JsNum.mul a b).
Definition div (a b : jsnum) : jsnum := number (JsNum.div a b).

(** *** interpolateViewpoint *)

Definition easeInOut (t : jsnum) : jsnum :=
  if ltb t (Fin (1 # 2))
  then mul (mul (Fin 2) t) t
  else add (Fin (-1)) (mul (sub (Fin 4) (mul (Fin 2) t)) t).

(** [u], the eased progress *)
Definition eased (progress : jsnum) : jsnum :=
  easeInOut (max (Fin 0) (min (Fin 1) (number progress))).

(** [(a === undefined || b === undefined) ? (a ?? b) : a + (b - a) * t];
    the fields of a slide are the doubles its decimals are read as *)
Definition lerp (a b : option Q) (t : jsnum) : option jsnum :=
  match a, b with
  | Some a', Some b' =>
      Some (add (round a') (mul (sub (round b') (round a')) t))
  | Some a', None => Some (round a')
  | None, _ => option_map round b
  end.

Definition interpolatedCamera (currentCamera nextCamera : Camera)
           (u : jsnum) : Completion CameraJSON :=
  match position currentCamera, position nextCamera with
  | Some cp, Some np =>
      Normal
        {| cPosition :=
             {| pSpatialReference :=
                  orElse (spatialReference cp) (spatialReference np);
                px := lerp (x cp) (x np) u;
                py := lerp (y cp) (y np) u;
                pz := lerp (z cp) (z np) u |};
           cHeading := lerp (heading currentCamera) (heading nextCamera) u;
           cTilt := lerp (tilt currentCamera) (tilt nextCamera) u |}
  | _, _ => Throw TypeError
  end.

Definition interpolatedViewpoint (currentViewpoint nextViewpoint : Viewpoint)
           (u : jsnum) : Completion ViewpointJSON :=
  match targetGeometry currentViewpoint, targetGeometry nextViewpoint with
  | Some cg, Some ng =>
      Normal
        {| vRotation :=
             lerp (rotation currentViewpoint) (rotation nextViewpoint) u;
           vScale := lerp (scale currentViewpoint) (scale nextViewpoint) u;
           vTargetGeometry :=
             {| gSpatialReference :=
                  orElse (geometrySpatialReference cg)
                         (geometrySpatialReference ng);
                gxmin := lerp (xmin cg) (xmin ng) u;
                gymin := lerp (ymin cg) (ymin ng) u;
                gxmax := lerp (xmax cg) (xmax ng) u;
                gymax := lerp (ymax cg) (ymax ng) u |} |}
  | _, _ => Throw TypeError
  end.

Definition interpolateViewpoint (config : Config) (ctx : Context)
           (w : World) : World * Completion Value :=
  let currentViewpoint := slideViewpoint (slideCurrent ctx) in
  let nextViewpoint :=
    match slideNext ctx with
    | Some next => slideViewpoint next
    | None => None
    end in
  match currentViewpoint with
  | None => (w, Throw TypeError)      (* [slideCurrent?.viewpoint.camera] *)
  | Some cv =>
  let currentCamera := camera cv in
  match (match slideNext ctx with
         | None => Normal None
         | Some _ =>
             match nextViewpoint with
             | Some nv => Normal (camera nv)
             | None => Throw TypeError  (* [slideNext?.viewpoint.camera] *)
             end
         end) with
  | Throw e => (w, Throw e)
  | Normal nextCamera =>
  let u := eased (progress ctx) in
  if is3DView w && (isSome currentCamera || isSome nextCamera)
  then
    match currentCamera, nextCamera with
    | Some cc, Some nc =>
        match interpolatedCamera cc nc u with
        | Throw e => (w, Throw e)
        | Normal targetCamera =>
            goTo {| target := TargetCamera targetCamera;
                    options := {| animate := false; duration := None |} |} w
        end
    | _, _ => (w, Normal Undefined)
    end
  else
    match nextViewpoint with
    | None => (w, Normal Undefined)
    | Some nv =>
        match interpolatedViewpoint cv nv u with
        | Throw e => (w, Throw e)
        | Normal targetViewpoint =>
            let target :=
              if JsString.eqb (mapFit config) (lit "scale")
              then TargetViewpoint targetViewpoint
              else TargetExtent (vTargetGeometry targetViewpoint)
                                (vRotation targetViewpoint) in
            goTo {| target := target; options := goToConfig config |} w
        end
    end
  end
  end.

(** *** interpolateTimeSlider *)

(** [step * (unitToMs[unit] || 0)] *)
Definition stepMsOf (step : jsnum) (unit : jsstring) : jsnum :=
  mul (number step)
      match unitToMs unit with
      | Own ms => ofZ ms
      | Inherited => NaN
      | Absent => Fin 0
      end.

(** [interpolate(start.getTime(), end.getTime())] *)
Definition interpolatedTime (start end_ : Date) (progress : jsnum) : jsnum :=
  add (getTime start)
      (mul (sub (getTime end_) (getTime start)) (number progress)).

(** [clampedTime], from the interpolated instant and the step *)
Definition clampedTime (start end_ : Date) (interpolatedTime stepMs : jsnum)
  : jsnum :=
  let offset := sub interpolatedTime (getTime start) in
  let snappedOffset := mul (ceil (div offset stepMs)) stepMs in
  let snappedTime := add (getTime start) snappedOffset in
  min (max snappedTime (getTime start)) (getTime end_).

Definition interpolateTimeSlider (ctx : Context) (w : World)
  : World * Completion Value :=
  match slideTimeSlider (slideCurrent ctx) with
  | None => (logError timeSliderError w, Normal Undefined)
  | Some slideTimeData =>
      let start := timeSliderStart slideTimeData in
      let end_ := timeSliderEnd slideTimeData in
      let step := timeSliderStep slideTimeData in
      let unit := timeSliderUnit slideTimeData in
      let interpolatedTime := interpolatedTime start end_ (progress ctx) in
      let stepMs := stepMsOf step unit in
      if leb stepMs (Fin 0)
      then (w, Normal (DateValue
                         (newDate (min interpolatedTime (getTime end_)))))
      else
        match timeSlider w with
        | None => (logError timeSliderError w, Normal Undefined)
        | Some _ =>
            ({| mapView := mapView w;
                timeSlider :=
                  Some {| timeExtent :=
                            Some {| extentStart := None;
                                    extentEnd :=
                                      Some (newDate
                                              (clampedTime start end_
                                                 interpolatedTime stepMs)) |};
                          playing := false |};
                consoleErrors := consoleErrors w |},
             Normal Undefined)
        end
  end.

End Binary64.

(** ** Notions of the statements in double precision *)

(** a field of ordinary size: sums and differences of such numbers do
    not overflow *)
Definition ordinary (v : option Q) : Prop :=
  match v with
  | Some q => Qabs q <= Binary64.pow2 1000
  | None => True
  end.

(** the double a field of a slide holds *)
Definition fieldValue (v : option Q) : option JsNum.jsnum :=
  option_map Binary64.round v.

(** an interpolated field at progress 0: the current slide's value, or
    the next slide's where the current slide has none *)
Definition atCurrent (r : option JsNum.jsnum) (a b : option Q) : Prop :=
  r = fieldValue (AnimateOnScroll.orElse a b).

(** An interpolated field at progress 1.  Where both slides define it,
    it is their values [qa] and [qb] put through [qa + (qb - qa)]: the
    next slide's value when the difference is a double, and never
    farther from it than [2^-52] of the difference.  Where one slide
    only defines it, it is that slide's value. *)
Definition atNext (r : option JsNum.jsnum) (a b : option Q) : Prop :=
  match a, b with
  | Some a', Some b' =>
      exists q qa qb,
        r = Some (JsNum.Fin q)
        /\ Binary64.round a' = JsNum.Fin qa
        /\ Binary64.round b' = JsNum.Fin qb
        /\ Qabs (q - qb) <= Binary64.pow2 (-52) * Qabs (qb - qa)
        /\ (Binary64.representable (qb - qa) -> q == qb)
  | _, _ => r = fieldValue (AnimateOnScroll.orElse b a)
  end.

(** An interpolated field at any progress.  Where both slides define
    it, it lies between the current slide's value and the value [q1]
    the field has at progress 1, which is the next slide's up to
    [2^-52] of the difference.  Where one slide only defines it, it is
    that slide's value. *)
Definition withinEnds (r : option JsNum.jsnum) (a b : option Q) : Prop :=
  match a, b with
  | Some a', Some b' =>
      exists q qa qb q1,
        r = Some (JsNum.Fin q)
        /\ Binary64.round a' = JsNum.Fin qa
        /\ Binary64.round b' = JsNum.Fin qb
        /\ Binary64.lerp a b (JsNum.Fin 1) = Some (JsNum.Fin q1)
        /\ Qmin qa q1 <= q <= Qmax qa q1
        /\ Qabs (q1 - qb) <= Binary64.pow2 (-52) * Qabs (qb - qa)
  | _, _ => r = fieldValue (AnimateOnScroll.orElse a b)
  end.

(** a relation between each number of an interpolated camera and the
    two numbers it is made of *)
Definition cameraNumbers
           (related : option JsNum.jsnum -> option Q -> option Q -> Prop)
           (j : AnimateOnScroll.CameraJSON)
           (cc nc : AnimateOnScroll.Camera)
           (cp np : AnimateOnScroll.Point) : Prop :=
  related (AnimateOnScroll.px (AnimateOnScroll.cPosition j))
          (AnimateOnScroll.x cp) (AnimateOnScroll.x np)
  /\ related (AnimateOnScroll.py (AnimateOnScroll.cPosition j))
             (AnimateOnScroll.y cp) (AnimateOnScroll.y np)
  /\ related (AnimateOnScroll.pz (AnimateOnScroll.cPosition j))
             (AnimateOnScroll.z cp) (AnimateOnScroll.z np)
  /\ related (AnimateOnScroll.cHeading j)
             (AnimateOnScroll.heading cc) (AnimateOnScroll.heading nc)
  /\ related (AnimateOnScroll.cTilt j)
             (AnimateOnScroll.tilt cc) (AnimateOnScroll.tilt nc).

(** the same for an interpolated viewpoint *)
Definition viewpointNumbers
           (related : option JsNum.jsnum -> option Q -> option Q -> Prop)
           (j : AnimateOnScroll.ViewpointJSON)
           (cv nv : AnimateOnScroll.Viewpoint)
           (cg ng : AnimateOnScroll.Geometry) : Prop :=
  related (AnimateOnScroll.vRotation j)
          (AnimateOnScroll.rotation cv) (AnimateOnScroll.rotation nv)
  /\ related (AnimateOnScroll.vScale j)
             (AnimateOnScroll.scale cv) (AnimateOnScroll.scale nv)
  /\ related (AnimateOnScroll.gxmin (AnimateOnScroll.vTargetGeometry j))
             (AnimateOnScroll.xmin cg) (AnimateOnScroll.xmin ng)
  /\ related (AnimateOnScroll.gymin (AnimateOnScroll.vTargetGeometry j))
             (AnimateOnScroll.ymin cg) (AnimateOnScroll.ymin ng)
  /\ related (AnimateOnScroll.gxmax (AnimateOnScroll.vTargetGeometry j))
             (AnimateOnScroll.xmax cg) (AnimateOnScroll.xmax ng)
  /\ related (AnimateOnScroll.gymax (AnimateOnScroll.vTargetGeometry j))
             (AnimateOnScroll.ymax cg) (AnimateOnScroll.ymax ng).

(** the numbers of a camera, and of a viewpoint, are of ordinary size *)
Definition ordinaryCamera (c : AnimateOnScroll.Camera)
           (p : AnimateOnScroll.Point) : Prop :=
  ordinary (AnimateOnScroll.x p) /\ ordinary (AnimateOnScroll.y p)
  /\ ordinary (AnimateOnScroll.z p)
  /\ ordinary (AnimateOnScroll.heading c)
  /\ ordinary (AnimateOnScroll.tilt c).

Definition ordinaryViewpoint (v : AnimateOnScroll.Viewpoint)
           (g : AnimateOnScroll.Geometry) : Prop :=
  ordinary (AnimateOnScroll.rotation v) /\ ordinary (AnimateOnScroll.scale v)
  /\ ordinary (AnimateOnScroll.xmin g) /\ ordinary (AnimateOnScroll.ymin g)
  /\ ordinary (AnimateOnScroll.xmax g) /\ ordinary (AnimateOnScroll.ymax g).

(* ================================================================== *)
(** * Part II. Properties                                              *)
(* ================================================================== *)

Import JsNum JsString.

(** ** Arithmetic of finite numbers *)

Lemma Qcompare_zero_cases (q : Q) :
  (Qsign q = Eq /\ q == 0) \/ (Qsign q = Lt /\ q < 0) \/ (Qsign q = Gt /\ 0 < q).
Proof.
  unfold Qsign.
  destruct (Qcompare q 0) eqn:E.
  - left; split; [reflexivity | now apply Qeq_alt].
  - right; left; split; [reflexivity | now apply Qlt_alt].
  - right; right; split; [reflexivity | now apply Qgt_alt].
Qed.

Lemma div_Fin (p q : Q) :
  ~ q == 0 -> div (Fin p) (Fin q) = Fin (Qred (p / q)).
Proof.
  intros Hq; unfold div.
  destruct (Qcompare_zero_cases q) as [[E H] | [[E H] | [E H]]];
    rewrite E; [contradiction | reflexivity | reflexivity].
Qed.

Lemma div_Fin_zero (p q : Q) :
  q == 0 ->
  div (Fin p) (Fin q) =
    match Qcompare p 0 with Eq => NaN | Lt => NInf | Gt => PInf end.
Proof.
  intros Hq; unfold div, Qsign.
  apply Qeq_alt in Hq; rewrite Hq.
  destruct (Qcompare p 0); reflexivity.
Qed.

Lemma ltb_Fin (p q : Q) : ltb (Fin p) (Fin q) = true <-> p < q.
Proof.
  unfold ltb; rewrite Qlt_alt.
  destruct (Qcompare p q); split; intros H; congruence.
Qed.

Lemma ltb_Fin_false (p q : Q) : ltb (Fin p) (Fin q) = false <-> q <= p.
Proof.
  unfold ltb; destruct (Qcompare p q) eqn:E.
  - apply Qeq_alt in E; split; [intros _; lra | reflexivity].
  - apply Qlt_alt in E; split; [discriminate | intros H; lra].
  - apply Qgt_alt in E; split; [intros _; lra | reflexivity].
Qed.

Lemma leb_Fin (p q : Q) : leb (Fin p) (Fin q) = true <-> p <= q.
Proof.
  unfold leb; destruct (Qcompare p q) eqn:E.
  - apply Qeq_alt in E; split; [intros _; lra | reflexivity].
  - apply Qlt_alt in E; split; [intros _; lra | reflexivity].
  - apply Qgt_alt in E; split; [discriminate | intros H; lra].
Qed.


Lemma clamp01_cases (r : Q) :
  (r <= 0 /\ clamp01 r == 0) \/ (0 <= r <= 1 /\ clamp01 r == r)
  \/ (1 <= r /\ clamp01 r == 1).
Proof.
  unfold clamp01.
  destruct (Q.min_spec 1 r) as [[H1 E1] | [H1 E1]];
    destruct (Q.max_spec 0 (Qmin 1 r)) as [[H0 E0] | [H0 E0]];
    rewrite E0; rewrite E1 in *.
  - right; right; split; lra.
  - lra.
  - right; left; split; lra.
  - left; split; lra.
Qed.

Lemma clamp_Fin (r : Q) :
  exists c,
    max (Fin 0) (min (Fin 1) (Fin r)) = Fin c
    /\ c == clamp01 r
    /\ (r <= 0 -> c = 0)
    /\ (1 <= r -> c = 1).
Proof.
  unfold max, min.
  destruct (ltb (Fin r) (Fin 1)) eqn:E1.
  - apply ltb_Fin in E1.
    destruct (ltb (Fin 0) (Fin r)) eqn:E0.
    + apply ltb_Fin in E0.
      exists r; repeat split; try (intros; lra).
      destruct (clamp01_cases r) as [[H E] | [[H E] | [H E]]]; lra.
    + apply ltb_Fin_false in E0.
      exists 0; repeat split; try (intros; lra).
      destruct (clamp01_cases r) as [[H E] | [[H E] | [H E]]]; lra.
  - apply ltb_Fin_false in E1.
    exists 1; repeat split; try (intros; lra).
    destruct (clamp01_cases r) as [[H E] | [[H E] | [H E]]]; lra.
Qed.

(** ** Panel geometry *)

Import ScrollListener.

Lemma contains_In (classes : list jsstring) (name : jsstring) :
  contains classes name = true <-> In name classes.
Proof.
  unfold contains; rewrite existsb_exists; split.
  - intros [c [Hin Heq]]. unfold JsString.eqb in Heq.
    destruct (list_eq_dec N.eq_dec name c); [subst; assumption | discriminate].
  - intros Hin; exists name; split; [assumption |].
    unfold JsString.eqb.
    destruct (list_eq_dec N.eq_dec name name); [reflexivity | contradiction].
Qed.

Lemma contains_not_In (classes : list jsstring) (name : jsstring) :
  contains classes name = false <-> ~ In name classes.
Proof.
  rewrite <- contains_In.
  destruct (contains classes name); split; intros H; congruence.
Qed.

(** C10. [getPanelHeight] is [offsetHeight - marginTop] for a panel
    marked first, [offsetHeight - paddingBottom] for a panel marked last
    (the first marker being looked at before the last one), and
    [offsetHeight + marginBottom + marginTop] for any other panel; with
    margin 10 and padding 5 a panel of height 100 gives 90 when first,
    95 when last and 120 in between. *)
Theorem getPanelHeight_cases :
  (forall panel : Panel,
      In (lit "first") (classList panel) ->
      getPanelHeight panel = sub (ofZ (offsetHeight panel)) (marginTop panel))
  /\ (forall panel : Panel,
         ~ In (lit "first") (classList panel) ->
         In (lit "last") (classList panel) ->
         getPanelHeight panel =
           sub (ofZ (offsetHeight panel)) (paddingBottom panel))
  /\ (forall panel : Panel,
         ~ In (lit "first") (classList panel) ->
         ~ In (lit "last") (classList panel) ->
         getPanelHeight panel =
           add (add (ofZ (offsetHeight panel)) (marginBottom panel))
               (marginTop panel))
  /\ (forall classes : list jsstring,
         let panel := {| classList := classes; offsetHeight := 100;
                         marginTop := Fin 10; marginBottom := Fin 10;
                         paddingBottom := Fin 5 |} in
         (In (lit "first") classes -> getPanelHeight panel = Fin 90)
         /\ (~ In (lit "first") classes -> In (lit "last") classes ->
             getPanelHeight panel = Fin 95)
         /\ (~ In (lit "first") classes -> ~ In (lit "last") classes ->
             getPanelHeight panel = Fin 120)).
Proof.
  assert (first_case : forall panel : Panel,
             In (lit "first") (classList panel) ->
             getPanelHeight panel =
               sub (ofZ (offsetHeight panel)) (marginTop panel)).
  { intros panel Hf. unfold getPanelHeight.
    apply contains_In in Hf. now rewrite Hf. }
  assert (last_case : forall panel : Panel,
             ~ In (lit "first") (classList panel) ->
             In (lit "last") (classList panel) ->
             getPanelHeight panel =
               sub (ofZ (offsetHeight panel)) (paddingBottom panel)).
  { intros panel Hf Hl. unfold getPanelHeight.
    apply contains_not_In in Hf. apply contains_In in Hl.
    now rewrite Hf, Hl. }
  assert (interior_case : forall panel : Panel,
             ~ In (lit "first") (classList panel) ->
             ~ In (lit "last") (classList panel) ->
             getPanelHeight panel =
               add (add (ofZ (offsetHeight panel)) (marginBottom panel))
                   (marginTop panel)).
  { intros panel Hf Hl. unfold getPanelHeight.
    apply contains_not_In in Hf. apply contains_not_In in Hl.
    now rewrite Hf, Hl. }
  repeat split; try assumption.
  - intros Hf. rewrite first_case by assumption. reflexivity.
  - intros Hf Hl. rewrite last_case by assumption. reflexivity.
  - intros Hf Hl. rewrite interior_case by assumption. reflexivity.
Qed.

(** a panel that is the first one of three *)
Lemma getPanelHeight_cases_witness :
  In (lit "first") [lit "immersive-narrative-panel"; lit "first"]
  /\ getPanelHeight
       {| classList := [lit "immersive-narrative-panel"; lit "first"];
          offsetHeight := 100; marginTop := Fin 10; marginBottom := Fin 10;
          paddingBottom := Fin 5 |} = Fin 90.
Proof.
  assert (Hin : In (lit "first")
                   [lit "immersive-narrative-panel"; lit "first"])
    by (right; left; reflexivity).
  split; [exact Hin |].
  exact (proj1 (proj2 (proj2 (proj2 getPanelHeight_cases)) _) Hin).
Defined.

Section ProgressOnBounds.

Variable dockStart : option jsnum.
Variable panelList : list Panel.
Variable slide : Z.
Variable bounds : Bounds.
Variables s e : Q.

Hypothesis bounds_found :
  getPanelScrollBounds dockStart panelList slide = Normal bounds.
Hypothesis start_finite : toNumber (panelStartScroll bounds) = Fin s.
Hypothesis end_finite : panelEndScroll bounds = Fin e.

(** what [getPanelProgress] computes once the bounds are known *)
Lemma getPanelProgress_on_bounds (scroll : jsnum) :
  getPanelProgress dockStart panelList slide scroll =
    Normal (max (Fin 0)
                (min (Fin 1)
                     (div (sub scroll (Fin s)) (sub (Fin e) (Fin s))))).
Proof.
  unfold getPanelProgress.
  rewrite bounds_found; simpl.
  now rewrite start_finite, end_finite.
Qed.

Hypothesis nondegenerate : s < e.








End ProgressOnBounds.



(** ** Slide index *)

Import SlideIndexSpec.

Lemma observer_fallback_same (attr : option jsstring) :
  observerSlide attr = fallbackSlide attr.
Proof. reflexivity. Qed.

(** [split] then [pop] finds the segment after the last ['#'] *)
Lemma split_afterLastHash (s : jsstring) :
  match afterLastHash s with
  | None => split 35 s = [s]
  | Some seg =>
      (1 < List.length (split 35 s))%nat /\ pop (split 35 s) = Some seg
  end.
Proof.
  induction s as [| c r IH]; [reflexivity |].
  simpl. destruct (afterLastHash r) as [seg |] eqn:Er.
  - destruct IH as [Hlen Hpop].
    destruct (split 35 r) as [| piece pieces] eqn:Es; [simpl in Hlen; lia |].
    destruct pieces as [| piece' pieces']; [simpl in Hlen; lia |].
    destruct (N.eqb c 35); simpl; split; try lia; exact Hpop.
  - rewrite IH.
    destruct (N.eqb c 35); simpl; [split; [lia | reflexivity] | reflexivity].
Qed.

Lemma observerSlide_spec (attr : option jsstring) :
  observerSlide attr = slideIndex (orEmpty attr).
Proof.
  unfold observerSlide, slideIndex.
  pose proof (split_afterLastHash (orEmpty attr)) as H.
  destruct (afterLastHash (orEmpty attr)) as [seg |].
  - destruct H as [Hlen Hpop].
    apply Nat.ltb_lt in Hlen. rewrite Hlen, Hpop. reflexivity.
  - rewrite H. reflexivity.
Qed.

Lemma afterLastHash_none (s : jsstring) :
  ~ In 35%N s -> afterLastHash s = None.
Proof.
  induction s as [| c r IH]; [reflexivity |].
  intros Hnot. simpl.
  rewrite IH by (intros Hin; apply Hnot; right; exact Hin).
  destruct (N.eqb_spec c 35); [| reflexivity].
  exfalso; apply Hnot; left; assumption.
Qed.

Lemma afterLastHash_last (prefix seg : jsstring) :
  ~ In 35%N seg -> afterLastHash (prefix ++ 35%N :: seg) = Some seg.
Proof.
  intros Hnot.
  induction prefix as [| c r IH]; simpl.
  - now rewrite (afterLastHash_none seg Hnot).
  - now rewrite IH.
Qed.

(** state both paths through the worded rule *)
Ltac to_slideIndex :=
  repeat match goal with
         | |- context [fallbackSlide ?a] =>
             change (fallbackSlide a) with (observerSlide a)
         end;
  rewrite !observerSlide_spec.

(** C4. The mutation observer and the scroll handler read the same
    index off every [src]: the segment after the last ['#'] (index 0
    without a ['#']) parsed as a base-10 integer, 0 when the parse gives
    [NaN].  A [src] ending in [#3] gives 3, one without ['#'] gives 0,
    one ending in [#abc] gives 0. *)
Theorem slide_index_paths_agree :
  (forall attr : option jsstring,
      observerSlide attr = fallbackSlide attr
      /\ observerSlide attr = slideIndex (orEmpty attr))
  /\ (forall prefix : jsstring,
         observerSlide (Some (prefix ++ lit "#3")) = 3%Z
         /\ fallbackSlide (Some (prefix ++ lit "#3")) = 3%Z)
  /\ (forall s : jsstring,
         (forall c, In c s -> c <> 35%N) ->
         observerSlide (Some s) = 0%Z /\ fallbackSlide (Some s) = 0%Z)
  /\ (forall prefix : jsstring,
         observerSlide (Some (prefix ++ lit "#abc")) = 0%Z
         /\ fallbackSlide (Some (prefix ++ lit "#abc")) = 0%Z).
Proof.
  split; [| split; [| split]].
  - intros attr; split;
      [apply observer_fallback_same | apply observerSlide_spec].
  - intros prefix. to_slideIndex.
    unfold slideIndex; simpl orEmpty.
    change (lit "#3") with (35%N :: lit "3").
    rewrite afterLastHash_last; [split; reflexivity |].
    intros Hin; vm_compute in Hin; intuition discriminate.
  - intros s Hs. to_slideIndex.
    unfold slideIndex; simpl orEmpty.
    rewrite afterLastHash_none; [split; reflexivity |].
    intros Hin; exact (Hs _ Hin eq_refl).
  - intros prefix. to_slideIndex.
    unfold slideIndex; simpl orEmpty.
    change (lit "#abc") with (35%N :: lit "abc").
    rewrite afterLastHash_last; [split; reflexivity |].
    intros Hin; vm_compute in Hin; intuition discriminate.
Qed.

(** a story address without a fragment *)
Lemma slide_index_paths_agree_witness :
  observerSlide (Some (lit "https://story.example/map.html")) = 0%Z
  /\ fallbackSlide (Some (lit "https://story.example/map.html")) = 0%Z.
Proof.
  apply (proj1 (proj2 (proj2 slide_index_paths_agree))).
  intros c Hin Hc; subst c. revert Hin. vm_compute.
  intuition discriminate.
Defined.

Lemma digitValue_nonneg (c : N) (d : Z) :
  digitValue c = Some d -> (0 <= d)%Z.
Proof.
  unfold digitValue.
  destruct (N.leb 48 c) eqn:Hlo; simpl; [| discriminate].
  destruct (N.leb c 57); [| discriminate].
  intros H; injection H as <-. apply N.leb_le in Hlo. lia.
Qed.

Lemma digitsPrefix_nonneg (s : jsstring) :
  forall (acc : option Z) (n : Z),
    match acc with Some a => (0 <= a)%Z | None => True end ->
    digitsPrefix acc s = Some n -> (0 <= n)%Z.
Proof.
  induction s as [| c r IH]; intros acc n Hacc; cbn [digitsPrefix].
  - intros ->. exact Hacc.
  - destruct (digitValue c) as [d |] eqn:Ed.
    + apply IH. apply digitValue_nonneg in Ed.
      destruct acc as [a |]; cbv beta iota in *; lia.
    + intros ->. exact Hacc.
Qed.

(** a negative [parseInt] needs a minus sign in front of the digits *)
Lemma parseInt10_negative (seg : jsstring) (n : Z) :
  parseInt10 seg = Some n -> (n < 0)%Z ->
  exists rest, trimStart seg = 45%N :: rest.
Proof.
  unfold parseInt10. intros H Hneg.
  destruct (trimStart seg) as [| c rest] eqn:Et; [discriminate |].
  destruct (N.eq_dec c 45) as [-> | Hc]; [now exists rest |].
  exfalso.
  assert (Hs : (match c :: rest with 45%N :: _ => (-1)%Z | _ => 1%Z end)
               = 1%Z).
  { destruct c as [| p]; [reflexivity |].
    do 6 (destruct p as [p | p |]; try reflexivity).
    exfalso; apply Hc; reflexivity. }
  rewrite Hs in H.
  destruct (digitsPrefix None _) as [m |] eqn:Ed; [| discriminate].
  assert (Hn : (1 * m)%Z = n) by congruence.
  apply digitsPrefix_nonneg in Ed; [lia | exact I].
Qed.

(** C3, as the code has it.  Both paths give an integer that is at least
    0 unless the segment after the last ['#'] starts, after white space,
    with a minus sign. *)
Theorem slide_index_nonnegative_without_minus (attr : option jsstring) :
  (forall seg rest,
      afterLastHash (orEmpty attr) = Some seg ->
      trimStart seg <> 45%N :: rest) ->
  (0 <= observerSlide attr)%Z /\ (0 <= fallbackSlide attr)%Z.
Proof.
  intros Hminus. to_slideIndex.
  assert (H : (0 <= slideIndex (orEmpty attr))%Z); [| split; exact H].
  unfold slideIndex.
  destruct (afterLastHash (orEmpty attr)) as [seg |] eqn:Eseg; [| lia].
  destruct (parseInt10 seg) as [n |] eqn:En; [| lia].
  destruct (Z_lt_le_dec n 0) as [Hneg | Hpos]; [| exact Hpos].
  destruct (parseInt10_negative seg n En Hneg) as [rest Hrest].
  exfalso; exact (Hminus seg rest eq_refl Hrest).
Qed.

Lemma slide_index_nonnegative_without_minus_witness :
  (0 <= observerSlide (Some (lit "https://story.example/map.html#3")))%Z
  /\ (0 <= fallbackSlide (Some (lit "https://story.example/map.html#3")))%Z.
Proof.
  apply (slide_index_nonnegative_without_minus
           (Some (lit "https://story.example/map.html#3"))).
  intros seg rest Hseg. vm_compute in Hseg.
  injection Hseg as <-. vm_compute. discriminate.
Defined.

(** The fragment [#-2] sets the index to -2 on both paths: through the
    mutation observer, and through the check inside the scroll handler
    of a docked story. *)
Lemma slide_index_negative_counterexample :
  let frame := {| src := Some (lit "https://story.example/map.html#-2");
                  hasContentWindow := true; observed := true |} in
  let panel := {| classList := [lit "first"]; offsetHeight := 100;
                  marginTop := Fin 10; marginBottom := Fin 10;
                  paddingBottom := Fin 5 |} in
  let dom := {| scrollY := Fin 120; targetClassList := [lit "docked"];
                panels := [panel]; iframe := Some frame |} in
  let docked := {| isDocked := true; dockStartScroll := Some (Fin 100);
                   lastScrollY := Fin 110; scrollDirection := down;
                   currentSlide := 0 |} in
  observerSlide (src frame) = (-2)%Z
  /\ fallbackSlide (src frame) = (-2)%Z
  /\ ~ (0 <= currentSlide (step (SrcMutation frame) docked))%Z
  /\ ~ (0 <= currentSlide (step (Scroll dom) docked))%Z.
Proof.
  intros frame panel dom docked.
  repeat split; try reflexivity; vm_compute; intros H; apply H; reflexivity.
Qed.

(** ** Dock tracker *)

Lemma scrollListener_keeps_anchor (dom : Dom) (st : State) :
  dockStartScroll (fst (scrollListener dom st)) = dockStartScroll st.
Proof.
  unfold scrollListener.
  repeat match goal with
         | |- context [if ?b then _ else _] => destruct b; simpl
         | |- context [match ?x with _ => _ end] => destruct x; simpl
         end; reflexivity.
Qed.

Lemma iframeWatcher_keeps_anchor (dom : Dom) (st : State) :
  dockStartScroll (fst (iframeWatcher dom st)) = dockStartScroll st.
Proof.
  unfold iframeWatcher.
  destruct (iframe dom) as [frame |]; [| reflexivity].
  destruct (observed frame); simpl; [reflexivity |].
  destruct (hasContentWindow frame); reflexivity.
Qed.

(** what the docking callback does to the anchor, case by case *)
Lemma dockingObserver_anchor (dom : Dom) (st : State) :
  dockStartScroll (dockingObserver dom st) =
    if contains (targetClassList dom) (lit "docked")
       && negb (isDocked st) && isDown (scrollDirection st)
    then Some (scrollY dom)
    else dockStartScroll st.
Proof.
  unfold dockingObserver.
  destruct (contains (targetClassList dom) (lit "docked"));
    destruct (isDocked st) eqn:Ed;
    destruct (scrollDirection st); simpl; rewrite ?Ed; reflexivity.
Qed.

(** C5. The anchor [dockStartScroll] changes only when the docking
    callback sees the target docked while the state is undocked and the
    scroll direction is down, and it then becomes the current [scrollY];
    entering the dock while the direction is up leaves it as it was, and
    no other callback (undocking, a repeated callback while docked, the
    scroll handler, the src observer, the iframe watcher) writes it. *)
Theorem dock_anchor_written_only_on_down_entry (e : Event) (st : State) :
  (dockStartScroll (step e st) <> dockStartScroll st ->
   exists dom,
     e = DockMutation dom
     /\ contains (targetClassList dom) (lit "docked") = true
     /\ isDocked st = false
     /\ scrollDirection st = down
     /\ dockStartScroll (step e st) = Some (scrollY dom))
  /\ (forall dom,
         e = DockMutation dom ->
         contains (targetClassList dom) (lit "docked") = true ->
         isDocked st = false ->
         (scrollDirection st = down ->
          isDocked (step e st) = true
          /\ dockStartScroll (step e st) = Some (scrollY dom))
         /\ (scrollDirection st = up ->
             isDocked (step e st) = true
             /\ dockStartScroll (step e st) = dockStartScroll st))
  /\ (forall dom,
         e = DockMutation dom ->
         (contains (targetClassList dom) (lit "docked") = false
          \/ isDocked st = true) ->
         dockStartScroll (step e st) = dockStartScroll st).
Proof.
  split; [| split].
  - destruct e as [dom | frame | dom | dom]; simpl; intros Hchg.
    + exists dom. rewrite dockingObserver_anchor in *.
      destruct (contains (targetClassList dom) (lit "docked"));
        destruct (isDocked st); destruct (scrollDirection st);
        simpl in *; try (exfalso; apply Hchg; reflexivity).
      repeat split; reflexivity.
    + exfalso; apply Hchg; reflexivity.
    + exfalso; apply Hchg, iframeWatcher_keeps_anchor.
    + exfalso; apply Hchg, scrollListener_keeps_anchor.
  - intros dom -> Hd Hu; simpl.
    rewrite dockingObserver_anchor, Hd, Hu.
    unfold dockingObserver; rewrite Hd, Hu; simpl.
    split; intros ->; simpl; split; reflexivity.
  - intros dom -> H; simpl. rewrite dockingObserver_anchor.
    destruct H as [H | H]; rewrite H; simpl; [reflexivity |].
    now rewrite andb_false_r.
Qed.

(** scrolling down into the dock at 480 pixels *)
Lemma dock_anchor_written_only_on_down_entry_witness :
  let dom := {| scrollY := Fin 480; targetClassList := [lit "docked"];
                panels := []; iframe := None |} in
  let st := {| isDocked := false; dockStartScroll := None;
               lastScrollY := Fin 470; scrollDirection := down;
               currentSlide := 0 |} in
  exists dom',
    DockMutation dom = DockMutation dom'
    /\ contains (targetClassList dom') (lit "docked") = true
    /\ isDocked st = false
    /\ scrollDirection st = down
    /\ dockStartScroll (step (DockMutation dom) st) = Some (scrollY dom').
Proof.
  intros dom st.
  apply (proj1 (dock_anchor_written_only_on_down_entry (DockMutation dom) st)).
  vm_compute. discriminate.
Defined.

(** over a whole run: as long as no docking callback sees the target
    docked, the anchor stays what it was *)
Lemma run_keeps_anchor (events : list Event) :
  forall st : State,
    (forall dom, In (DockMutation dom) events ->
                 contains (targetClassList dom) (lit "docked") = false) ->
    dockStartScroll (run events st) = dockStartScroll st.
Proof.
  induction events as [| e rest IH]; intros st Hno; [reflexivity |].
  simpl. rewrite IH by (intros dom Hin; apply Hno; right; exact Hin).
  destruct e as [dom | frame | dom | dom]; simpl.
  - rewrite dockingObserver_anchor, (Hno dom) by (left; reflexivity).
    reflexivity.
  - reflexivity.
  - apply iframeWatcher_keeps_anchor.
  - apply scrollListener_keeps_anchor.
Qed.

(** from the load of the page: scrolling down into the dock records the
    scroll position, scrolling up into it records nothing *)
Example dock_entry_traces :
  let page y classes := {| scrollY := Fin y; targetClassList := classes;
                           panels := []; iframe := None |} in
  dockStartScroll
    (run [Scroll (page 480 []); DockMutation (page 480 [lit "docked"])]
         (initialState (Fin 470))) = Some (Fin 480)
  /\ dockStartScroll
       (run [Scroll (page 460 []); DockMutation (page 460 [lit "docked"])]
            (initialState (Fin 470))) = None
  /\ dockStartScroll
       (run [Scroll (page 480 []); DockMutation (page 480 [lit "docked"]);
             DockMutation (page 480 [lit "docked"]);
             Scroll (page 300 []); DockMutation (page 300 []);
             DockMutation (page 300 [lit "docked"])]
            (initialState (Fin 470))) = Some (Fin 480).
Proof. repeat split; reflexivity. Qed.

(** ** Scroll-progress publisher *)

(** what a docked, anchored story with a reachable iframe publishes *)
Lemma scrollListener_publishes (dom : Dom) (st : State) (frame : Iframe) :
  isDocked st = true ->
  isSome (dockStartScroll st) = true ->
  (currentSlide st < Z.of_nat (List.length (panels dom)))%Z ->
  iframe dom = Some frame ->
  hasContentWindow frame = true ->
  snd (scrollListener dom st) =
    match getPanelProgress (dockStartScroll st) (panels dom)
                           (fallbackSlide (src frame)) (scrollY dom) with
    | Normal progress =>
        Normal [progressMessage (fallbackSlide (src frame))
                                (toFixed2 progress)]
    | Throw e => Throw e
    end.
Proof.
  intros Hd Ha Hk Hf Hw.
  unfold scrollListener; simpl.
  rewrite Hd, Ha; simpl.
  apply Z.ltb_lt in Hk; rewrite Hk, Hf.
  destruct (fallbackSlide (src frame) =? currentSlide st)%Z eqn:Eq; simpl.
  - apply Z.eqb_eq in Eq. rewrite <- Eq.
    destruct (getPanelProgress _ _ _ _); [| reflexivity].
    now rewrite Hw.
  - destruct (getPanelProgress _ _ _ _); [| reflexivity].
    now rewrite Hw.
Qed.

Lemma Qcompare_difference (y s : Q) :
  Qcompare (Qred (y - s)) 0 = Qcompare y s.
Proof.
  destruct (Qcompare y s) eqn:E.
  - apply Qeq_alt in E. apply -> Qeq_alt. rewrite Qred_correct; lra.
  - apply Qlt_alt in E. apply -> Qlt_alt. rewrite Qred_correct; lra.
  - apply Qgt_alt in E. apply -> Qgt_alt. rewrite Qred_correct; lra.
Qed.

(** the quotient on degenerate bounds: never finite *)
Lemma quotient_degenerate (y s e : Q) :
  s == e ->
  div (sub (Fin y) (Fin s)) (sub (Fin e) (Fin s)) =
    match Qcompare y s with Eq => NaN | Lt => NInf | Gt => PInf end.
Proof.
  intros Hse. unfold sub, fin.
  rewrite div_Fin_zero by (rewrite Qred_correct; lra).
  now rewrite Qcompare_difference.
Qed.

(** C9, as the code has it.  On degenerate bounds ([end = start]) the
    quotient is not finite, and the publisher applies no guard of its
    own: what it sends is the clamp of the quotient, "1.00" once
    [scrollY] is past the start and "0.00" before it, and never an
    infinity. *)
Theorem degenerate_panel_progress
        (dom : Dom) (st : State) (frame : Iframe) (bounds : Bounds)
        (s e y : Q) :
  isDocked st = true ->
  isSome (dockStartScroll st) = true ->
  (currentSlide st < Z.of_nat (List.length (panels dom)))%Z ->
  iframe dom = Some frame ->
  hasContentWindow frame = true ->
  scrollY dom = Fin y ->
  getPanelScrollBounds (dockStartScroll st) (panels dom)
                       (fallbackSlide (src frame)) = Normal bounds ->
  toNumber (panelStartScroll bounds) = Fin s ->
  panelEndScroll bounds = Fin e ->
  s == e ->
  isFinite (div (sub (Fin y) (Fin s)) (sub (Fin e) (Fin s))) = false
  /\ (s < y ->
      snd (scrollListener dom st) =
        Normal [progressMessage (fallbackSlide (src frame)) (lit "1.00")])
  /\ (y < s ->
      snd (scrollListener dom st) =
        Normal [progressMessage (fallbackSlide (src frame)) (lit "0.00")])
  /\ (forall slide text,
         snd (scrollListener dom st) = Normal [progressMessage slide text] ->
         text <> lit "Infinity" /\ text <> lit "-Infinity").
Proof.
  intros Hd Ha Hk Hf Hw Hy Hb Hs He Hse.
  rewrite (scrollListener_publishes dom st frame Hd Ha Hk Hf Hw).
  rewrite (getPanelProgress_on_bounds _ _ _ _ _ _ Hb Hs He), Hy.
  rewrite (quotient_degenerate y s e Hse).
  destruct (Qcompare y s) eqn:E; simpl.
  - split; [reflexivity |]. apply Qeq_alt in E.
    split; [intros; lra |]. split; [intros; lra |].
    intros slide text H. injection H as _ <-. split; discriminate.
  - split; [reflexivity |]. apply Qlt_alt in E.
    split; [intros; lra |]. split; [reflexivity |].
    intros slide text H. injection H as _ <-. split; discriminate.
  - split; [reflexivity |]. apply Qgt_alt in E.
    split; [reflexivity |]. split; [intros; lra |].
    intros slide text H. injection H as _ <-. split; discriminate.
Qed.

(** A story of three panels docked at 50 whose second panel is
    collapsed, so that its bounds are 140 and 140; the reader is 10
    pixels past them. *)
Lemma degenerate_panel_progress_witness :
  let story :=
    [ {| classList := [lit "first"]; offsetHeight := 100;
         marginTop := Fin 10; marginBottom := Fin 10;
         paddingBottom := Fin 5 |};
      {| classList := []; offsetHeight := 0;
         marginTop := Fin 0; marginBottom := Fin 0; paddingBottom := Fin 0 |};
      {| classList := [lit "last"]; offsetHeight := 100;
         marginTop := Fin 10; marginBottom := Fin 10;
         paddingBottom := Fin 5 |} ] in
  let frame := {| src := Some (lit "https://story.example/map.html#1");
                  hasContentWindow := true; observed := true |} in
  let dom := {| scrollY := Fin 150; targetClassList := [lit "docked"];
                panels := story; iframe := Some frame |} in
  let st := {| isDocked := true; dockStartScroll := Some (Fin 50);
               lastScrollY := Fin 145; scrollDirection := down;
               currentSlide := 1 |} in
  snd (scrollListener dom st) = Normal [progressMessage 1 (lit "1.00")].
Proof.
  intros story frame dom st.
  assert (Hlt : 140 < 150) by reflexivity.
  assert (Heq : 140 == 140) by reflexivity.
  assert (Hk : (currentSlide st < Z.of_nat (List.length (panels dom)))%Z)
    by reflexivity.
  exact (proj1 (proj2 (degenerate_panel_progress
                         dom st frame
                         {| panelStartScroll := Some (Fin 140);
                            panelEndScroll := Fin 140 |}
                         140 140 150
                         eq_refl eq_refl Hk eq_refl eq_refl eq_refl
                         eq_refl eq_refl eq_refl Heq)) Hlt).
Defined.

(** The same story: the bounds of the collapsed panel are degenerate,
    and what is published 10 pixels past them is "1.00", not the "0.00"
    of a zero progress. *)
Lemma degenerate_panel_progress_counterexample :
  let story :=
    [ {| classList := [lit "first"]; offsetHeight := 100;
         marginTop := Fin 10; marginBottom := Fin 10;
         paddingBottom := Fin 5 |};
      {| classList := []; offsetHeight := 0;
         marginTop := Fin 0; marginBottom := Fin 0; paddingBottom := Fin 0 |};
      {| classList := [lit "last"]; offsetHeight := 100;
         marginTop := Fin 10; marginBottom := Fin 10;
         paddingBottom := Fin 5 |} ] in
  let frame := {| src := Some (lit "https://story.example/map.html#1");
                  hasContentWindow := true; observed := true |} in
  let dom := {| scrollY := Fin 150; targetClassList := [lit "docked"];
                panels := story; iframe := Some frame |} in
  let st := {| isDocked := true; dockStartScroll := Some (Fin 50);
               lastScrollY := Fin 145; scrollDirection := down;
               currentSlide := 1 |} in
  getPanelScrollBounds (dockStartScroll st) story 1 =
    Normal {| panelStartScroll := Some (Fin 140); panelEndScroll := Fin 140 |}
  /\ snd (scrollListener dom st) = Normal [progressMessage 1 (lit "1.00")]
  /\ snd (scrollListener dom st)
     <> Normal [progressMessage 1 (toFixed2 (Fin 0))].
Proof.
  intros story frame dom st.
  split; [reflexivity |]. split; [reflexivity |].
  vm_compute. discriminate.
Qed.

(** On the start line itself the quotient is 0/0, and the text sent is
    "NaN". *)
Remark degenerate_panel_at_start :
  let story :=
    [ {| classList := [lit "first"]; offsetHeight := 100;
         marginTop := Fin 10; marginBottom := Fin 10;
         paddingBottom := Fin 5 |};
      {| classList := []; offsetHeight := 0;
         marginTop := Fin 0; marginBottom := Fin 0; paddingBottom := Fin 0 |} ] in
  let frame := {| src := Some (lit "https://story.example/map.html#1");
                  hasContentWindow := true; observed := true |} in
  let dom := {| scrollY := Fin 140; targetClassList := [lit "docked"];
                panels := story; iframe := Some frame |} in
  let st := {| isDocked := true; dockStartScroll := Some (Fin 50);
               lastScrollY := Fin 145; scrollDirection := up;
               currentSlide := 1 |} in
  snd (scrollListener dom st) = Normal [progressMessage 1 (lit "NaN")].
Proof. reflexivity. Qed.

(** ** Time-slider interpolation *)

Import AnimateOnScroll.

Lemma min_Fin (a b : Q) :
  exists c, min (Fin a) (Fin b) = Fin c /\ c == Qmin a b.
Proof.
  unfold min. destruct (ltb (Fin b) (Fin a)) eqn:E.
  - apply ltb_Fin in E. exists b; split; [reflexivity |].
    rewrite Q.min_r; lra.
  - apply ltb_Fin_false in E. exists a; split; [reflexivity |].
    rewrite Q.min_l; lra.
Qed.

Lemma max_Fin (a b : Q) :
  exists c, max (Fin a) (Fin b) = Fin c /\ c == Qmax a b.
Proof.
  unfold max. destruct (ltb (Fin a) (Fin b)) eqn:E.
  - apply ltb_Fin in E. exists b; split; [reflexivity |].
    rewrite Q.max_r; lra.
  - apply ltb_Fin_false in E. exists a; split; [reflexivity |].
    rewrite Q.max_l; lra.
Qed.

Lemma Qle_bool_comp (a b c d : Q) :
  a == c -> b == d -> Qle_bool a b = Qle_bool c d.
Proof.
  intros Hac Hbd.
  destruct (Qle_bool a b) eqn:E1; destruct (Qle_bool c d) eqn:E2;
    try reflexivity.
  - apply Qle_bool_iff in E1. rewrite Hac, Hbd in E1.
    apply Qle_bool_iff in E1. congruence.
  - apply Qle_bool_iff in E2. rewrite <- Hac, <- Hbd in E2.
    apply Qle_bool_iff in E2. congruence.
Qed.

Lemma Qtrunc_comp (p q : Q) : p == q -> Qtrunc p = Qtrunc q.
Proof.
  intros H. unfold Qtrunc.
  rewrite (Qle_bool_comp 0 p 0 q) by (reflexivity || assumption).
  destruct (Qle_bool 0 q); now rewrite H.
Qed.



Lemma Qabs_between (a b : Z) (q : Q) :
  (Z.abs a <= maxTime)%Z -> (Z.abs b <= maxTime)%Z ->
  inject_Z a <= q -> q <= inject_Z b ->
  Qabs q <= inject_Z maxTime.
Proof.
  intros Ha Hb Hlo Hhi.
  apply Qabs_Qle_condition.
  assert (H1 : inject_Z (- maxTime) <= inject_Z a)
    by (rewrite <- Zle_Qle; lia).
  assert (H2 : inject_Z b <= inject_Z maxTime)
    by (rewrite <- Zle_Qle; lia).
  rewrite inject_Z_opp in H1. split; lra.
Qed.

Lemma newDate_between (a b : Z) (q : Q) :
  (Z.abs a <= maxTime)%Z -> (Z.abs b <= maxTime)%Z ->
  inject_Z a <= q -> q <= inject_Z b ->
  newDate (Fin q) = DateMs (Qtrunc q).
Proof.
  intros Ha Hb Hlo Hhi. unfold newDate.
  pose proof (Qabs_between a b q Ha Hb Hlo Hhi) as H.
  apply Qle_bool_iff in H. now rewrite H.
Qed.


Lemma clampedTime_computed (s e : Z) (p m : Q) :
  0 < m ->
  exists c,
    min (max (add (ofZ s)
                  (mul (ceil (div (sub (add (ofZ s)
                                            (mul (sub (ofZ e) (ofZ s)) (Fin p)))
                                       (ofZ s))
                                  (Fin m)))
                       (Fin m)))
             (ofZ s))
        (ofZ e) = Fin c
    /\ c == clampedTime s e p m.
Proof.
  intros Hm.
  unfold ofZ, add, sub, mul, fin.
  rewrite div_Fin by lra.
  unfold ceil, ofZ, mul, fin.
  match goal with
  | |- context [max (Fin ?a) (Fin ?b)] =>
      destruct (max_Fin a b) as [c1 [E1 V1]]; rewrite E1
  end.
  destruct (min_Fin c1 (inject_Z e)) as [c [E V]]; rewrite E.
  exists c; split; [reflexivity |].
  rewrite V, V1. unfold clampedTime, snappedOffset, interpolatedOffset.
  rewrite !Qred_correct. reflexivity.
Qed.

(** the clamp lands between the two instants, whichever comes first *)
Lemma clampedTime_range (s e : Z) (p m : Q) :
  inject_Z (Z.min s e) <= clampedTime s e p m <= inject_Z e
  /\ ((s <= e)%Z -> inject_Z s <= clampedTime s e p m).
Proof.
  unfold clampedTime.
  set (x := inject_Z s + snappedOffset s e p m).
  assert (Hmin : inject_Z (Z.min s e) <= inject_Z s
                 /\ inject_Z (Z.min s e) <= inject_Z e)
    by (split; rewrite <- Zle_Qle; lia).
  destruct (Q.max_spec x (inject_Z s)) as [[H1 E1] | [H1 E1]];
    destruct (Q.min_spec (Qmax x (inject_Z s)) (inject_Z e))
      as [[H2 E2] | [H2 E2]];
    rewrite E2; rewrite E1 in *; repeat split; try lra;
    intros Hse; rewrite Zle_Qle in Hse; lra.
Qed.

(** C2.  When the step in milliseconds is zero or negative the handler
    returns, through its early [return], a date that the dispatcher
    drops: the slider keeps the extent it had and keeps playing. *)
Theorem interpolateTimeSlider_nonpositive_step
        (ctx : Context) (w : World) (data : TimeSliderData) (m : Q) :
  slideTimeSlider (slideCurrent ctx) = Some data ->
  stepMsOf (timeSliderStep data) (timeSliderUnit data) = Fin m ->
  m <= 0 ->
  (exists d, interpolateTimeSlider ctx w = (w, Normal (DateValue d)))
  /\ dispatchKey animationConfig ctx w (PTimeSlider data) = w.
Proof.
  intros Hdata Hm Hle.
  assert (H : exists d, interpolateTimeSlider ctx w = (w, Normal (DateValue d))).
  { unfold interpolateTimeSlider. rewrite Hdata, Hm.
    apply leb_Fin in Hle. rewrite Hle. eexists; reflexivity. }
  split; [exact H |].
  destruct H as [d Hd]. unfold dispatchKey; simpl. now rewrite Hd.
Qed.

(** a step counted in a unit the table does not know, on a playing
    slider *)
Lemma interpolateTimeSlider_nonpositive_step_witness :
  let data := {| timeSliderStart := utcDate 2020 1 1;
                 timeSliderEnd := utcDate 2020 1 10;
                 timeSliderStep := Fin 1;
                 timeSliderUnit := lit "fortnights" |} in
  let ctx := {| slideCurrent := [PTimeSlider data]; slideNext := None;
                progress := Fin (1 # 2) |} in
  let w := {| mapView := None;
              timeSlider := Some {| timeExtent := None; playing := true |};
              consoleErrors := [] |} in
  (exists d, interpolateTimeSlider ctx w = (w, Normal (DateValue d)))
  /\ dispatchKey animationConfig ctx w (PTimeSlider data) = w.
Proof.
  intros data ctx w.
  refine (interpolateTimeSlider_nonpositive_step ctx w data 0 _ _ _).
  - vm_compute; reflexivity.
  - vm_compute; reflexivity.
  - vm_compute; discriminate.
Defined.

(** ** Dispatch with one side of the pair missing *)

Lemma sameMapAndSlider_refl (w : World) : sameMapAndSlider w w.
Proof. split; reflexivity. Qed.

Lemma sameMapAndSlider_sym (w1 w2 : World) :
  sameMapAndSlider w1 w2 -> sameMapAndSlider w2 w1.
Proof. intros [H1 H2]; split; symmetry; assumption. Qed.

Lemma sameMapAndSlider_trans (w1 w2 w3 : World) :
  sameMapAndSlider w1 w2 -> sameMapAndSlider w2 w3 -> sameMapAndSlider w1 w3.
Proof. intros [H1 H2] [H3 H4]; split; congruence. Qed.

Lemma sameMapAndSlider_view (w1 w2 : World) :
  sameMapAndSlider w1 w2 ->
  navigation w1 = navigation w2 /\ is3DView w1 = is3DView w2.
Proof.
  intros [Hm _]. unfold navigation, is3DView. rewrite Hm. split; reflexivity.
Qed.

Ltac done_same :=
  repeat split; simpl; (assumption || reflexivity || congruence).

Section Dispatch.

Variable config : Config.
Variable ctx : Context.

(** the [try]/[catch] of the dispatcher adds to the console only *)
Lemma dispatchKey_world (w : World) (p : Property) :
  sameMapAndSlider
    (dispatchKey config ctx w p)
    (match choreographyHandlers config p with
     | Some handler => fst (handler ctx w)
     | None => w
     end).
Proof.
  unfold dispatchKey.
  destruct (choreographyHandlers config p) as [handler |];
    [| apply sameMapAndSlider_refl].
  destruct (handler ctx w) as [w' [r | err]]; split; reflexivity.
Qed.

(** with one side missing the viewpoint handler leaves the world as
    it is, whether it returns or throws *)
Lemma interpolateViewpoint_inert (w : World) :
  oneSideMissing (is3DView w) (slideCurrent ctx) (slideNext ctx) ->
  fst (interpolateViewpoint config ctx w) = w.
Proof.
  unfold oneSideMissing, viewpointOf, interpolateViewpoint.
  intros [[Hc Hn] | [[Hc Hn] | [H3 [cv [nv [Hc [Hn Hcam]]]]]]].
  - now rewrite Hc.
  - destruct (slideViewpoint (slideCurrent ctx)) as [cv |];
      [| reflexivity].
    destruct (slideNext ctx) as [next |].
    + now rewrite Hn.
    + destruct (is3DView w && (isSome (camera cv) || isSome None));
        [destruct (camera cv) |]; reflexivity.
  - rewrite Hc. destruct (slideNext ctx) as [next |]; [| discriminate].
    rewrite Hn, H3.
    destruct Hcam as [[H1 H2] | [H1 H2]].
    + rewrite H1. destruct (camera nv); [reflexivity | contradiction].
    + rewrite H2. destruct (camera cv); [reflexivity | contradiction].
Qed.

(** the other handlers read the map view and the slider only, and
    leave the list of [goTo] calls and the kind of the view alone *)
Lemma interpolateTimeSlider_reads (w1 w2 : World) :
  sameMapAndSlider w1 w2 ->
  sameMapAndSlider (fst (interpolateTimeSlider ctx w1))
                   (fst (interpolateTimeSlider ctx w2))
  /\ mapView (fst (interpolateTimeSlider ctx w1)) = mapView w1.
Proof.
  intros [Hm Hs]. unfold interpolateTimeSlider.
  destruct (slideTimeSlider (slideCurrent ctx)) as [data |];
    [| done_same].
  destruct (leb _ _); [done_same |].
  rewrite Hs. destruct (timeSlider w2) eqn:E2; done_same.
Qed.

Lemma interpolateEnvironment_reads (w1 w2 : World) :
  sameMapAndSlider w1 w2 ->
  sameMapAndSlider (fst (interpolateEnvironment ctx w1))
                   (fst (interpolateEnvironment ctx w2))
  /\ navigation (fst (interpolateEnvironment ctx w1)) = navigation w1
  /\ is3DView (fst (interpolateEnvironment ctx w1)) = is3DView w1.
Proof.
  intros [Hm Hs]. unfold interpolateEnvironment.
  destruct (slideEnvironment (slideCurrent ctx)) as [ce |];
    [| done_same].
  destruct (match slideNext ctx with
            | Some next => slideEnvironment next
            | None => None
            end) as [ne |]; [| done_same].
  destruct (lighting ce); [| done_same].
  destruct (lighting ne); [| done_same].
  destruct (weather ce); [| done_same].
  destruct (weather ne); [| done_same].
  unfold navigation, is3DView. rewrite Hm.
  destruct (mapView w2) eqn:E2; simpl; rewrite ?Hm; done_same.
Qed.

Lemma dispatchKey_other_keys (w1 w2 : World) (p : Property) :
  (forall v, p <> PViewpoint v) ->
  sameMapAndSlider w1 w2 ->
  sameMapAndSlider (dispatchKey config ctx w1 p)
                   (dispatchKey config ctx w2 p)
  /\ navigation (dispatchKey config ctx w1 p) = navigation w1
  /\ is3DView (dispatchKey config ctx w1 p) = is3DView w1.
Proof.
  intros Hp Hsame.
  pose proof (dispatchKey_world w1 p) as H1.
  pose proof (dispatchKey_world w2 p) as H2.
  assert (H : sameMapAndSlider
                (match choreographyHandlers config p with
                 | Some handler => fst (handler ctx w1)
                 | None => w1
                 end)
                (match choreographyHandlers config p with
                 | Some handler => fst (handler ctx w2)
                 | None => w2
                 end)
              /\ navigation
                   (match choreographyHandlers config p with
                    | Some handler => fst (handler ctx w1)
                    | None => w1
                    end) = navigation w1
              /\ is3DView
                   (match choreographyHandlers config p with
                    | Some handler => fst (handler ctx w1)
                    | None => w1
                    end) = is3DView w1).
  { destruct p as [v | t | e | key].
    - exfalso; exact (Hp v eq_refl).
    - simpl. destruct (interpolateTimeSlider_reads w1 w2 Hsame) as [Ha Hb].
      split; [exact Ha |].
      unfold navigation, is3DView. rewrite Hb. split; reflexivity.
    - simpl. apply interpolateEnvironment_reads; assumption.
    - unfold choreographyHandlers.
      repeat match goal with
             | |- context [if ?b then _ else _] => destruct b
             end; simpl; repeat split; apply Hsame. }
  destruct H as [Ha [Hb Hc]].
  destruct (sameMapAndSlider_view _ _ H1) as [Hn1 H31].
  split; [| split; congruence].
  eapply sameMapAndSlider_trans; [exact H1 |].
  eapply sameMapAndSlider_trans; [exact Ha |].
  apply sameMapAndSlider_sym; exact H2.
Qed.

(** running all the keys of a list, against running the ones that are
    not the viewpoint *)
Lemma dispatch_without_viewpoint (keys : list Property) :
  forall w1 w2 : World,
    sameMapAndSlider w1 w2 ->
    oneSideMissing (is3DView w1) (slideCurrent ctx) (slideNext ctx) ->
    sameMapAndSlider (dispatch config ctx keys w1)
                     (dispatch config ctx (withoutViewpoint keys) w2)
    /\ navigation (dispatch config ctx keys w1) = navigation w1.
Proof.
  unfold dispatch.
  induction keys as [| p rest IH]; intros w1 w2 Hsame Hmiss.
  - split; [exact Hsame | reflexivity].
  - simpl.
    destruct p as [v | t | e | key].
    + (* the viewpoint key *)
      pose proof (dispatchKey_world w1 (PViewpoint v)) as Hw.
      simpl in Hw. rewrite (interpolateViewpoint_inert w1 Hmiss) in Hw.
      destruct (sameMapAndSlider_view _ _ Hw) as [Hn H3].
      assert (Hsame' : sameMapAndSlider
                         (dispatchKey config ctx w1 (PViewpoint v)) w2)
        by (eapply sameMapAndSlider_trans; eassumption).
      rewrite <- H3 in Hmiss.
      destruct (IH _ w2 Hsame' Hmiss) as [Ha Hb].
      split; [exact Ha | congruence].
    + destruct (dispatchKey_other_keys w1 w2 (PTimeSlider t))
        as [Hs [Hn H3]]; [discriminate | assumption |].
      rewrite <- H3 in Hmiss.
      destruct (IH _ _ Hs Hmiss) as [Ha Hb].
      split; [exact Ha | congruence].
    + destruct (dispatchKey_other_keys w1 w2 (PEnvironment e))
        as [Hs [Hn H3]]; [discriminate | assumption |].
      rewrite <- H3 in Hmiss.
      destruct (IH _ _ Hs Hmiss) as [Ha Hb].
      split; [exact Ha | congruence].
    + destruct (dispatchKey_other_keys w1 w2 (POther key))
        as [Hs [Hn H3]]; [discriminate | assumption |].
      rewrite <- H3 in Hmiss.
      destruct (IH _ _ Hs Hmiss) as [Ha Hb].
      split; [exact Ha | congruence].
Qed.

End Dispatch.

(** C8. When exactly one side of the camera or viewpoint pair is
    missing, a tick of the scroll animation returns without throwing,
    records no call of [goTo], and leaves the map view and the slider
    exactly as the handlers of the other keys of the slide leave them:
    whatever fails inside the viewpoint handler is caught by the
    dispatcher and reaches the console only. *)
Theorem missing_side_no_navigation
        (config : Config) (current : Slide) (next : option Slide)
        (progress : jsnum) (w : World) :
  oneSideMissing (is3DView w) current next ->
  let ctx := {| slideCurrent := current; slideNext := next;
                progress := progress |} in
  snd (scrollAnimation config (Some current) next progress w)
    = Normal Undefined
  /\ navigation (fst (scrollAnimation config (Some current) next progress w))
     = navigation w
  /\ sameMapAndSlider
       (fst (scrollAnimation config (Some current) next progress w))
       (dispatch config ctx (withoutViewpoint current) w).
Proof.
  intros Hmiss ctx. simpl.
  split; [reflexivity |].
  destruct (dispatch_without_viewpoint config ctx current w w
              (sameMapAndSlider_refl w) Hmiss) as [Ha Hb].
  split; assumption.
Qed.

(** a slide with a viewpoint and a time slider, followed by a slide
    that has no viewpoint; the viewpoint handler throws, the slider is
    still set *)
Lemma missing_side_no_navigation_witness :
  let cv := {| camera := None; rotation := Some 0; scale := Some 5000;
               targetGeometry :=
                 Some {| geometrySpatialReference := Some 4326%Z;
                         xmin := Some 0; ymin := Some 0;
                         xmax := Some 10; ymax := Some 10 |} |} in
  let data := {| timeSliderStart := utcDate 2020 1 1;
                 timeSliderEnd := utcDate 2020 1 10;
                 timeSliderStep := Fin 1;
                 timeSliderUnit := lit "days" |} in
  let current := [PViewpoint cv; PTimeSlider data] in
  let next := Some [PTimeSlider data] in
  let w := {| mapView := Some {| hasCamera := false;
                                 viewEnvironment := None;
                                 goToCalls := [] |};
              timeSlider := Some {| timeExtent := None; playing := true |};
              consoleErrors := [] |} in
  let ctx := {| slideCurrent := current; slideNext := next;
                progress := Fin (1 # 2) |} in
  snd (scrollAnimation animationConfig (Some current) next (Fin (1 # 2)) w)
    = Normal Undefined
  /\ navigation
       (fst (scrollAnimation animationConfig (Some current) next
                             (Fin (1 # 2)) w))
     = navigation w
  /\ sameMapAndSlider
       (fst (scrollAnimation animationConfig (Some current) next
                             (Fin (1 # 2)) w))
       (dispatch animationConfig ctx (withoutViewpoint current) w).
Proof.
  intros cv data current next w ctx.
  apply (missing_side_no_navigation animationConfig current next
                                    (Fin (1 # 2)) w).
  right; left. split; [discriminate | reflexivity].
Defined.

(** in that tick the failure of the viewpoint handler is logged under
    its key and the slider ends at 2020-01-06 *)
Example missing_side_tick :
  let cv := {| camera := None; rotation := Some 0; scale := Some 5000;
               targetGeometry :=
                 Some {| geometrySpatialReference := Some 4326%Z;
                         xmin := Some 0; ymin := Some 0;
                         xmax := Some 10; ymax := Some 10 |} |} in
  let data := {| timeSliderStart := utcDate 2020 1 1;
                 timeSliderEnd := utcDate 2020 1 10;
                 timeSliderStep := Fin 1;
                 timeSliderUnit := lit "days" |} in
  let view := {| hasCamera := false; viewEnvironment := None;
                 goToCalls := [] |} in
  scrollAnimation animationConfig
                  (Some [PViewpoint cv; PTimeSlider data])
                  (Some [PTimeSlider data]) (Fin (1 # 2))
                  {| mapView := Some view;
                     timeSlider := Some {| timeExtent := None;
                                           playing := true |};
                     consoleErrors := [] |}
  = ({| mapView := Some view;
        timeSlider :=
          Some {| timeExtent := Some {| extentStart := None;
                                        extentEnd := Some (utcDate 2020 1 6) |};
                  playing := false |};
        consoleErrors := [lit "viewpoint"] |},
     Normal Undefined).
Proof. vm_compute. reflexivity. Qed.

(* ================================================================== *)
(** * Part III. Further properties of the code                         *)
(* ================================================================== *)

(** ** Scroll bounds *)

(** one more turn of the loop adds the height of the next panel *)
Lemma accumulate_step (panelList : list Panel) (n : nat) :
  forall (i : nat) (start : option jsnum),
    accumulate panelList i (S n) start =
      (s <- accumulate panelList i n start ;;
       h <- getPanelHeightAt panelList (i + n) ;;
       Normal (Some (add (toNumber s) h))).
Proof.
  induction n as [| n IH]; intros i start.
  - simpl. rewrite Nat.add_0_r.
    destruct (getPanelHeightAt panelList i); reflexivity.
  - change (accumulate panelList i (S (S n)) start)
      with (h <- getPanelHeightAt panelList i ;;
            accumulate panelList (S i) (S n)
                       (Some (add (toNumber start) h))).
    destruct (getPanelHeightAt panelList i) as [h |] eqn:Eh; cbn [bind].
    + rewrite IH.
      replace (S i + n)%nat with (i + S n)%nat by lia.
      change (accumulate panelList i (S n) start)
        with (h0 <- getPanelHeightAt panelList i ;;
              accumulate panelList (S i) n
                         (Some (add (toNumber start) h0))).
      rewrite Eh. reflexivity.
    + change (accumulate panelList i (S n) start)
        with (h0 <- getPanelHeightAt panelList i ;;
              accumulate panelList (S i) n
                         (Some (add (toNumber start) h0))).
      rewrite Eh. reflexivity.
Qed.

(** the loop runs through when every index it reads holds a panel *)
Lemma accumulate_in_range (panelList : list Panel) (n : nat) :
  forall (i : nat) (start : option jsnum),
    (i + n <= List.length panelList)%nat ->
    exists s, accumulate panelList i n start = Normal s.
Proof.
  induction n as [| n IH]; intros i start Hlen; simpl.
  - now exists start.
  - unfold getPanelHeightAt.
    destruct (nth_error panelList i) as [panel |] eqn:E.
    + simpl. apply IH. lia.
    + apply nth_error_None in E. lia.
Qed.

(** the loop throws as soon as it has to read past the last panel *)
Lemma accumulate_out_of_range (panelList : list Panel) (n : nat) :
  forall (i : nat) (start : option jsnum),
    (List.length panelList < i + n)%nat ->
    (i <= List.length panelList)%nat ->
    accumulate panelList i n start = Throw TypeError.
Proof.
  induction n as [| n IH]; intros i start Hlen Hi; simpl; [lia |].
  unfold getPanelHeightAt.
  destruct (nth_error panelList i) as [panel |] eqn:E; simpl.
  - apply IH; [lia |].
    assert (i < List.length panelList)%nat; [| lia].
    apply nth_error_Some. congruence.
  - reflexivity.
Qed.

(** X1. The bounds of consecutive slides touch: where the bounds of
    slide [k] end, those of slide [k + 1] start. *)
Theorem scroll_bounds_adjacent
        (dockStart : option jsnum) (panelList : list Panel) (k : Z)
        (b b' : Bounds) :
  (0 <= k)%Z ->
  getPanelScrollBounds dockStart panelList k = Normal b ->
  getPanelScrollBounds dockStart panelList (k + 1) = Normal b' ->
  panelStartScroll b' = Some (panelEndScroll b).
Proof.
  intros Hk Hb Hb'. unfold getPanelScrollBounds in *.
  replace (Z.to_nat (k + 1)) with (S (Z.to_nat k)) in Hb' by lia.
  rewrite accumulate_step in Hb'.
  destruct (accumulate panelList 0 (Z.to_nat k) dockStart) as [s |];
    simpl in *; [| discriminate].
  unfold getPanelHeightAtZ in Hb.
  destruct (k <? 0)%Z; simpl in Hb; [discriminate |].
  destruct (getPanelHeightAt panelList (Z.to_nat k)) as [h |];
    simpl in *; [| discriminate].
  destruct (getPanelHeightAtZ panelList (k + 1)) as [h' |];
    simpl in *; [| discriminate].
  injection Hb as <-. injection Hb' as <-. reflexivity.
Qed.

Lemma scroll_bounds_adjacent_witness :
  let first := {| classList := [lit "first"]; offsetHeight := 100;
                  marginTop := Fin 10; marginBottom := Fin 10;
                  paddingBottom := Fin 5 |} in
  let second := {| classList := []; offsetHeight := 100;
                   marginTop := Fin 10; marginBottom := Fin 10;
                   paddingBottom := Fin 5 |} in
  panelStartScroll {| panelStartScroll := Some (Fin 140);
                      panelEndScroll := Fin 260 |}
  = Some (panelEndScroll {| panelStartScroll := Some (Fin 50);
                            panelEndScroll := Fin 140 |}).
Proof.
  intros first second.
  apply (scroll_bounds_adjacent (Some (Fin 50)) [first; second] 0);
    [lia | reflexivity | reflexivity].
Defined.

(** bounds exist for the indices of the panels and for no other *)
Lemma bounds_by_index
        (dockStart : option jsnum) (panelList : list Panel) (k : Z) :
  ((0 <= k < Z.of_nat (List.length panelList))%Z ->
   exists b, getPanelScrollBounds dockStart panelList k = Normal b)
  /\ ((k < 0 \/ Z.of_nat (List.length panelList) <= k)%Z ->
      getPanelScrollBounds dockStart panelList k = Throw TypeError).
Proof.
  unfold getPanelScrollBounds, getPanelHeightAtZ. split.
  - intros [Hlo Hhi].
    destruct (accumulate_in_range panelList (Z.to_nat k) 0 dockStart)
      as [s Hs]; [lia |].
    rewrite Hs; simpl.
    destruct (Z.ltb_spec k 0); [lia |].
    unfold getPanelHeightAt.
    destruct (nth_error panelList (Z.to_nat k)) as [panel |] eqn:E.
    + simpl. eexists; reflexivity.
    + apply nth_error_None in E. lia.
  - intros [Hneg | Hbig].
    + replace (Z.to_nat k) with 0%nat by lia. simpl.
      destruct (Z.ltb_spec k 0); [reflexivity | lia].
    + destruct (Z.eq_dec k (Z.of_nat (List.length panelList))) as [-> | Hne].
      * destruct (accumulate_in_range
                    panelList (Z.to_nat (Z.of_nat (List.length panelList)))
                    0 dockStart) as [s Hs]; [lia |].
        rewrite Hs; simpl.
        destruct (Z.ltb_spec (Z.of_nat (List.length panelList)) 0); [lia |].
        unfold getPanelHeightAt.
        destruct (nth_error panelList _) as [panel |] eqn:E;
          [| reflexivity].
        assert (Z.to_nat (Z.of_nat (List.length panelList))
                < List.length panelList)%nat
          by (apply nth_error_Some; congruence).
        lia.
      * rewrite accumulate_out_of_range by lia. reflexivity.
Qed.

(** X2. The bounds exist exactly for the indices of the panels: an
    index from 0 to the last panel gives bounds, a negative index or one
    past the last panel throws. *)
Theorem scroll_bounds_defined_in_range
        (dockStart : option jsnum) (panelList : list Panel) (k : Z) :
  ((0 <= k < Z.of_nat (List.length panelList))%Z ->
   exists b, getPanelScrollBounds dockStart panelList k = Normal b)
  /\ ((k < 0 \/ Z.of_nat (List.length panelList) <= k)%Z ->
      getPanelScrollBounds dockStart panelList k = Throw TypeError).
Proof.
  split; intros H.
  - now apply (proj1 (bounds_by_index dockStart panelList k)).
  - now apply (proj2 (bounds_by_index dockStart panelList k)).
Qed.

Lemma scroll_bounds_defined_in_range_witness :
  let panel := {| classList := [lit "first"]; offsetHeight := 100;
                  marginTop := Fin 10; marginBottom := Fin 10;
                  paddingBottom := Fin 5 |} in
  (exists b, getPanelScrollBounds (Some (Fin 50)) [panel] 0 = Normal b)
  /\ getPanelScrollBounds (Some (Fin 50)) [panel] 1 = Throw TypeError
  /\ getPanelScrollBounds (Some (Fin 50)) [panel] (-2) = Throw TypeError.
Proof.
  intros panel.
  split; [| split].
  - apply (proj1 (scroll_bounds_defined_in_range
                    (Some (Fin 50)) [panel] 0)). simpl; lia.
  - apply (proj2 (scroll_bounds_defined_in_range
                    (Some (Fin 50)) [panel] 1)). simpl; lia.
  - apply (proj2 (scroll_bounds_defined_in_range
                    (Some (Fin 50)) [panel] (-2))). simpl; lia.
Defined.

(** ** Range of the progress *)

(** the clamp of any number is [NaN] or lies in the unit interval *)
Lemma clamp_range (a : jsnum) :
  max (Fin 0) (min (Fin 1) a) = NaN
  \/ exists c, max (Fin 0) (min (Fin 1) a) = Fin c /\ 0 <= c <= 1.
Proof.
  destruct a as [| | | r].
  - left; reflexivity.
  - right; exists 1; split; [reflexivity | lra].
  - right; exists 0; split; [reflexivity | lra].
  - right. destruct (clamp_Fin r) as [c [Hc [Hv _]]].
    exists c; split; [exact Hc |].
    destruct (clamp01_cases r) as [[H E] | [[H E] | [H E]]]; lra.
Qed.

Lemma progress_in_unit_interval
      (dockStart : option jsnum) (panelList : list Panel) (k : Z)
      (scroll r : jsnum) :
  getPanelProgress dockStart panelList k scroll = Normal r ->
  r = NaN \/ exists c, r = Fin c /\ 0 <= c <= 1.
Proof.
  unfold getPanelProgress.
  destruct (getPanelScrollBounds dockStart panelList k) as [b |];
    simpl; [| discriminate].
  intros H; injection H as <-. apply clamp_range.
Qed.

(** X3. Whatever the panels, the anchor and the scroll position, a
    progress that is returned is [NaN] or a number from 0 to 1: never
    negative, never above 1, never infinite. *)
Theorem getPanelProgress_range
        (dockStart : option jsnum) (panelList : list Panel) (k : Z)
        (scroll r : jsnum) :
  getPanelProgress dockStart panelList k scroll = Normal r ->
  r = NaN \/ exists c, r = Fin c /\ 0 <= c <= 1.
Proof. apply progress_in_unit_interval. Qed.

Lemma getPanelProgress_range_witness :
  let panel := {| classList := [lit "first"]; offsetHeight := 100;
                  marginTop := Fin 10; marginBottom := Fin 10;
                  paddingBottom := Fin 5 |} in
  Fin (1 # 9) = NaN \/ exists c, Fin (1 # 9) = Fin c /\ 0 <= c <= 1.
Proof.
  intros panel.
  apply (getPanelProgress_range (Some (Fin 100)) [panel; panel] 1 (Fin 200)).
  reflexivity.
Defined.

(** ** What the scroll handler posts *)

(** a number of the unit interval prints as "1.00" or as "0." and two
    digits *)
Lemma toFixed2_unit_interval (c : Q) :
  0 <= c <= 1 ->
  toFixed2 (Fin c) = lit "1.00"
  \/ exists n, (n < 100)%N /\ toFixed2 (Fin c) = lit "0." ++ twoDigits n.
Proof.
  intros [Hlo Hhi]. unfold toFixed2.
  assert (Hsign : match Qcompare c 0 with Lt => lit "-" | _ => [] end = []).
  { destruct (Qcompare c 0) eqn:E; try reflexivity.
    apply Qlt_alt in E. lra. }
  rewrite Hsign.
  assert (Habs : Qabs c == c) by (apply Qabs_pos; exact Hlo).
  set (x := Qabs c * 100 + (1 # 2)).
  assert (Hx : (1 # 2) <= x /\ x < 101) by (unfold x; rewrite Habs; lra).
  assert (Hf : (0 <= Qfloor x <= 100)%Z).
  { split.
    - rewrite <- (Qfloor_Z 0). apply Qfloor_resp_le.
      change (inject_Z 0) with 0. lra.
    - assert (H : inject_Z (Qfloor x) < inject_Z 101).
      { apply Qle_lt_trans with x; [apply Qfloor_le |].
        change (inject_Z 101) with 101. lra. }
      rewrite <- Zlt_Qlt in H. lia. }
  set (n := Z.to_N (Qfloor x)).
  assert (Hn : (n <= 100)%N) by (unfold n; lia).
  destruct (N.eq_dec n 100) as [-> | Hne].
  - left; reflexivity.
  - right. exists n. assert (Hlt : (n < 100)%N) by lia.
    split; [exact Hlt |].
    rewrite (N.div_small n 100 Hlt), (N.mod_small n 100 Hlt). reflexivity.
Qed.

(** the index with which the scroll handler goes on once it has looked
    at the frame *)
Lemma scrollListener_index (dom : Dom) (st : State) (frame : Iframe) :
  isDocked st = true ->
  ScrollListener.isSome (dockStartScroll st) = true ->
  (currentSlide st < Z.of_nat (List.length (panels dom)))%Z ->
  iframe dom = Some frame ->
  currentSlide (fst (scrollListener dom st)) = fallbackSlide (src frame).
Proof.
  intros Hd Ha Hk Hf.
  unfold scrollListener; simpl.
  rewrite Hd, Ha; simpl.
  apply Z.ltb_lt in Hk; rewrite Hk, Hf.
  destruct (fallbackSlide (src frame) =? currentSlide st)%Z eqn:Eq; simpl.
  - apply Z.eqb_eq in Eq. rewrite <- Eq.
    destruct (getPanelProgress _ _ _ _); [| reflexivity].
    destruct (hasContentWindow frame); simpl; congruence.
  - destruct (getPanelProgress _ _ _ _); [| reflexivity].
    destruct (hasContentWindow frame); reflexivity.
Qed.

(** X4. A scroll event posts at most one message; it carries the slide
    index the state holds after the event, and its progress text is
    "NaN", "1.00" or "0." followed by two digits. *)
Theorem scrollListener_message_format
        (dom : Dom) (st : State) (messages : list Message) :
  snd (scrollListener dom st) = Normal messages ->
  messages = []
  \/ exists text,
      messages = [progressMessage (currentSlide (fst (scrollListener dom st)))
                                  text]
      /\ (text = lit "NaN" \/ text = lit "1.00"
          \/ exists n, (n < 100)%N /\ text = lit "0." ++ twoDigits n).
Proof.
  unfold scrollListener; simpl.
  destruct (negb (isDocked st)
            || negb (ScrollListener.isSome (dockStartScroll st)));
    simpl; [intros H; injection H as <-; now left |].
  destruct (currentSlide st <? Z.of_nat (List.length (panels dom)))%Z;
    simpl; [| intros H; injection H as <-; now left].
  destruct (iframe dom) as [frame |].
  - set (st2 := if negb (fallbackSlide (src frame) =? currentSlide st)%Z
                then _ else _).
    destruct (getPanelProgress (dockStartScroll st2) (panels dom)
                               (currentSlide st2) (scrollY dom))
      as [r |] eqn:Er; simpl; [| discriminate].
    destruct (hasContentWindow frame); simpl;
      intros H; injection H as <-; [| now left].
    right. exists (toFixed2 r). split; [reflexivity |].
    destruct (progress_in_unit_interval _ _ _ _ _ Er) as [-> | [c [-> Hc]]].
    + left; reflexivity.
    + right. apply toFixed2_unit_interval; exact Hc.
  - destruct (getPanelProgress _ _ _ _); simpl; [| discriminate].
    intros H; injection H as <-; now left.
Qed.

Lemma scrollListener_message_format_witness :
  let panel := {| classList := [lit "first"]; offsetHeight := 100;
                  marginTop := Fin 10; marginBottom := Fin 10;
                  paddingBottom := Fin 5 |} in
  let frame := {| src := Some (lit "https://story.example/map.html#0");
                  hasContentWindow := true; observed := true |} in
  let dom := {| scrollY := Fin 130; targetClassList := [lit "docked"];
                panels := [panel]; iframe := Some frame |} in
  let st := {| isDocked := true; dockStartScroll := Some (Fin 100);
               lastScrollY := Fin 120; scrollDirection := down;
               currentSlide := 0 |} in
  [progressMessage 0 (lit "0.33")] = []
  \/ exists text,
      [progressMessage 0 (lit "0.33")]
      = [progressMessage (currentSlide (fst (scrollListener dom st))) text]
      /\ (text = lit "NaN" \/ text = lit "1.00"
          \/ exists n, (n < 100)%N /\ text = lit "0." ++ twoDigits n).
Proof.
  intros panel frame dom st.
  apply (scrollListener_message_format dom st). reflexivity.
Defined.

(** X5. The docking callback may run any number of times on the same
    page: a second run changes nothing, and after a run [isDocked] says
    whether the target carries the class. *)
Theorem dockingObserver_idempotent (dom : Dom) (st : State) :
  dockingObserver dom (dockingObserver dom st) = dockingObserver dom st
  /\ isDocked (dockingObserver dom st)
     = contains (targetClassList dom) (lit "docked").
Proof.
  unfold dockingObserver.
  destruct (contains (targetClassList dom) (lit "docked")) eqn:Ec;
    destruct st as [docked anchor last direction slide];
    destruct docked, direction; simpl; rewrite ?Ec; simpl;
    split; reflexivity.
Qed.

(** the handler is silent on an index past the last panel *)
Lemma scrollListener_past_last_panel (dom : Dom) (st : State) :
  (Z.of_nat (List.length (panels dom)) <= currentSlide st)%Z ->
  snd (scrollListener dom st) = Normal []
  /\ currentSlide (fst (scrollListener dom st)) = currentSlide st.
Proof.
  intros Hk. unfold scrollListener; simpl.
  destruct (negb (isDocked st)
            || negb (ScrollListener.isSome (dockStartScroll st)));
    simpl; [split; reflexivity |].
  destruct (Z.ltb_spec (currentSlide st)
                       (Z.of_nat (List.length (panels dom)))); [lia |].
  split; reflexivity.
Qed.

(** X6. Once the index is past the last panel the scroll handler no
    longer looks at the iframe: it posts nothing and leaves the index as
    it is, whatever the [src] says. *)
Theorem scrollListener_never_repairs_index (dom : Dom) (st : State) :
  (Z.of_nat (List.length (panels dom)) <= currentSlide st)%Z ->
  snd (scrollListener dom st) = Normal []
  /\ currentSlide (fst (scrollListener dom st)) = currentSlide st.
Proof. apply scrollListener_past_last_panel. Qed.

Lemma scrollListener_never_repairs_index_witness :
  let frame := {| src := Some (lit "https://story.example/map.html#0");
                  hasContentWindow := true; observed := true |} in
  let dom := {| scrollY := Fin 130; targetClassList := [lit "docked"];
                panels := []; iframe := Some frame |} in
  let st := {| isDocked := true; dockStartScroll := Some (Fin 100);
               lastScrollY := Fin 120; scrollDirection := down;
               currentSlide := 3 |} in
  snd (scrollListener dom st) = Normal []
  /\ currentSlide (fst (scrollListener dom st)) = currentSlide st.
Proof.
  intros frame dom st.
  apply (scrollListener_never_repairs_index dom st). simpl; lia.
Defined.

(** X7. When the [src] of the frame names a slide that has no panel, the
    scroll handler stores that index and then throws; if the index is
    past the last panel, the scroll events that follow on these panels
    are silent. *)
Theorem scrollListener_index_without_panel
        (dom : Dom) (st : State) (frame : Iframe) :
  isDocked st = true ->
  ScrollListener.isSome (dockStartScroll st) = true ->
  (currentSlide st < Z.of_nat (List.length (panels dom)))%Z ->
  iframe dom = Some frame ->
  hasContentWindow frame = true ->
  (fallbackSlide (src frame) < 0
   \/ Z.of_nat (List.length (panels dom)) <= fallbackSlide (src frame))%Z ->
  snd (scrollListener dom st) = Throw TypeError
  /\ currentSlide (fst (scrollListener dom st)) = fallbackSlide (src frame)
  /\ ((Z.of_nat (List.length (panels dom)) <= fallbackSlide (src frame))%Z ->
      forall dom',
        panels dom' = panels dom ->
        snd (scrollListener dom' (fst (scrollListener dom st))) = Normal []).
Proof.
  intros Hd Ha Hk Hf Hw Hout.
  pose proof (scrollListener_index dom st frame Hd Ha Hk Hf) as Hidx.
  split; [| split; [exact Hidx |]].
  - rewrite (scrollListener_publishes dom st frame Hd Ha Hk Hf Hw).
    unfold getPanelProgress.
    rewrite (proj2 (bounds_by_index (dockStartScroll st) (panels dom)
                                    (fallbackSlide (src frame))) Hout).
    reflexivity.
  - intros Hpast dom' Hpanels.
    apply scrollListener_past_last_panel.
    rewrite Hpanels, Hidx. exact Hpast.
Qed.

Lemma scrollListener_index_without_panel_witness :
  let panel := {| classList := [lit "first"]; offsetHeight := 100;
                  marginTop := Fin 10; marginBottom := Fin 10;
                  paddingBottom := Fin 5 |} in
  let frame := {| src := Some (lit "https://story.example/map.html#7");
                  hasContentWindow := true; observed := true |} in
  let dom := {| scrollY := Fin 130; targetClassList := [lit "docked"];
                panels := [panel]; iframe := Some frame |} in
  let st := {| isDocked := true; dockStartScroll := Some (Fin 100);
               lastScrollY := Fin 120; scrollDirection := down;
               currentSlide := 0 |} in
  snd (scrollListener dom st) = Throw TypeError
  /\ currentSlide (fst (scrollListener dom st)) = fallbackSlide (src frame)
  /\ ((Z.of_nat (List.length (panels dom)) <= fallbackSlide (src frame))%Z ->
      forall dom',
        panels dom' = panels dom ->
        snd (scrollListener dom' (fst (scrollListener dom st))) = Normal []).
Proof.
  intros panel frame dom st.
  apply (scrollListener_index_without_panel dom st frame);
    try reflexivity.
  right. vm_compute. discriminate.
Defined.

(** ** Iframe watcher *)

Import IframeWatch.

(** X8. The iframe watcher greets a frame once: run again on the page it
    has marked, it posts nothing and leaves the state alone, so the
    index is reset to 0 only when a frame is first seen. *)
Theorem iframeWatcher_greets_once (dom : Dom) (st : State) :
  iframeWatcher (markObserved dom) (fst (iframeWatcher dom st))
  = (fst (iframeWatcher dom st), Normal []).
Proof.
  unfold iframeWatcher, markObserved.
  destruct (iframe dom) as [frame |] eqn:Ef; simpl; [| now rewrite Ef].
  destruct (observed frame) eqn:Eo; simpl.
  - now rewrite Ef, Eo.
  - destruct (hasContentWindow frame); reflexivity.
Qed.

(** ** More on the time slider *)

(** what the handler does on a positive step, for any progress *)
Lemma interpolateTimeSlider_result
      (ctx : Context) (w : World) (data : TimeSliderData)
      (slider : TimeSlider) (s e : Z) (p m : Q) :
  slideTimeSlider (slideCurrent ctx) = Some data ->
  timeValue (timeSliderStart data) s ->
  timeValue (timeSliderEnd data) e ->
  progress ctx = Fin p ->
  stepMsOf (timeSliderStep data) (timeSliderUnit data) = Fin m ->
  0 < m ->
  timeSlider w = Some slider ->
  interpolateTimeSlider ctx w =
    (withSlider w (sliderStoppedAt (Qtrunc (clampedTime s e p m))),
     Normal Undefined).
Proof.
  intros Hdata [Hs Hsr] [He Her] Hp Hm Hpos Hslider.
  unfold interpolateTimeSlider.
  rewrite Hdata, Hs, He, Hp, Hm, Hslider; simpl getTime.
  assert (Hleb : leb (Fin m) (Fin 0) = false).
  { destruct (leb (Fin m) (Fin 0)) eqn:E; [| reflexivity].
    apply leb_Fin in E. lra. }
  rewrite Hleb.
  destruct (clampedTime_computed s e p m Hpos) as [c [Hc Hv]].
  rewrite Hc.
  destruct (clampedTime_range s e p m) as [[Hlo Hhi] _].
  rewrite (newDate_between (Z.min s e) e c) by (try lia; lra).
  rewrite (Qtrunc_comp c _ Hv). reflexivity.
Qed.

Lemma Qtrunc_monotone (p q : Q) : p <= q -> (Qtrunc p <= Qtrunc q)%Z.
Proof.
  intros H. unfold Qtrunc.
  destruct (Qle_bool 0 p) eqn:Ep; destruct (Qle_bool 0 q) eqn:Eq.
  - now apply Qfloor_resp_le.
  - apply Qle_bool_iff in Ep.
    assert (Hq : ~ 0 <= q) by (rewrite <- Qle_bool_iff; congruence).
    exfalso; apply Hq; lra.
  - assert (Hp : ~ 0 <= p) by (rewrite <- Qle_bool_iff; congruence).
    apply Qle_bool_iff in Eq.
    apply Z.le_trans with 0%Z.
    + rewrite <- (Qceiling_Z 0). apply Qceiling_resp_le.
      change (inject_Z 0) with 0. lra.
    + rewrite <- (Qfloor_Z 0). apply Qfloor_resp_le. exact Eq.
  - now apply Qceiling_resp_le.
Qed.

Lemma Qdiv_le_compat (a b m : Q) : 0 < m -> a <= b -> a / m <= b / m.
Proof.
  intros Hm H. unfold Qdiv.
  apply Qmult_le_compat_r; [exact H |].
  apply Qlt_le_weak, Qinv_lt_0_compat; exact Hm.
Qed.

Lemma snappedOffset_monotone (s e : Z) (p1 p2 m : Q) :
  (s <= e)%Z -> 0 < m -> p1 <= p2 ->
  snappedOffset s e p1 m <= snappedOffset s e p2 m.
Proof.
  intros Hse Hm Hp. unfold snappedOffset, interpolatedOffset.
  rewrite Zle_Qle in Hse.
  apply Qmult_le_compat_r; [| lra].
  rewrite <- Zle_Qle. apply Qceiling_resp_le.
  apply Qdiv_le_compat; [exact Hm |]. nra.
Qed.

Lemma clampedTime_monotone (s e : Z) (p1 p2 m : Q) :
  (s <= e)%Z -> 0 < m -> p1 <= p2 ->
  clampedTime s e p1 m <= clampedTime s e p2 m.
Proof.
  intros Hse Hm Hp. unfold clampedTime.
  pose proof (snappedOffset_monotone s e p1 p2 m Hse Hm Hp) as H.
  apply Q.min_le_compat_r, Q.max_le_compat_r. lra.
Qed.



(** X11. Scrolling forward never moves the slider back: on a positive
    step and a start that is not after the end, a larger progress gives
    an extent that ends at the same instant or later. *)
Theorem interpolateTimeSlider_monotone
        (slide : Slide) (next : option Slide) (w : World)
        (data : TimeSliderData) (slider : TimeSlider)
        (s e : Z) (p1 p2 m : Q) :
  slideTimeSlider slide = Some data ->
  timeValue (timeSliderStart data) s ->
  timeValue (timeSliderEnd data) e ->
  stepMsOf (timeSliderStep data) (timeSliderUnit data) = Fin m ->
  0 < m ->
  timeSlider w = Some slider ->
  (s <= e)%Z ->
  p1 <= p2 ->
  exists t1 t2,
    interpolateTimeSlider
      {| slideCurrent := slide; slideNext := next; progress := Fin p1 |} w
    = (withSlider w (sliderStoppedAt t1), Normal Undefined)
    /\ interpolateTimeSlider
         {| slideCurrent := slide; slideNext := next; progress := Fin p2 |} w
       = (withSlider w (sliderStoppedAt t2), Normal Undefined)
    /\ (t1 <= t2)%Z.
Proof.
  intros Hdata Hs He Hm Hpos Hslider Hse Hp.
  exists (Qtrunc (clampedTime s e p1 m)), (Qtrunc (clampedTime s e p2 m)).
  split; [| split].
  - apply (interpolateTimeSlider_result _ w data slider s e p1 m);
      try assumption; reflexivity.
  - apply (interpolateTimeSlider_result _ w data slider s e p2 m);
      try assumption; reflexivity.
  - apply Qtrunc_monotone, clampedTime_monotone; assumption.
Qed.


(** nine days in steps of one day, read at one third and at two
    thirds *)
Lemma interpolateTimeSlider_monotone_witness :
  let data := {| timeSliderStart := utcDate 2020 1 1;
                 timeSliderEnd := utcDate 2020 1 10;
                 timeSliderStep := Fin 1;
                 timeSliderUnit := lit "days" |} in
  let slider := {| timeExtent := None; playing := true |} in
  let w := {| mapView := None; timeSlider := Some slider;
              consoleErrors := [] |} in
  exists t1 t2,
    interpolateTimeSlider
      {| slideCurrent := [PTimeSlider data]; slideNext := None;
         progress := Fin (1 # 3) |} w
    = (withSlider w (sliderStoppedAt t1), Normal Undefined)
    /\ interpolateTimeSlider
         {| slideCurrent := [PTimeSlider data]; slideNext := None;
            progress := Fin (2 # 3) |} w
       = (withSlider w (sliderStoppedAt t2), Normal Undefined)
    /\ (t1 <= t2)%Z.
Proof.
  intros data slider w.
  refine (interpolateTimeSlider_monotone
            [PTimeSlider data] None w data slider
            1577836800000%Z 1578614400000%Z (1 # 3) (2 # 3) (86400000 # 1)
            _ _ _ _ _ _ _ _).
  - vm_compute; reflexivity.
  - split; [vm_compute; reflexivity | vm_compute; discriminate].
  - split; [vm_compute; reflexivity | vm_compute; discriminate].
  - vm_compute; reflexivity.
  - vm_compute; reflexivity.
  - vm_compute; reflexivity.
  - vm_compute; discriminate.
  - vm_compute; discriminate.
Defined.




(** *** Dates and steps that are no numbers *)

Lemma leb_positive_false (m : Q) : 0 < m -> leb (Fin m) (Fin 0) = false.
Proof.
  intros Hm. destruct (leb (Fin m) (Fin 0)) eqn:E; [| reflexivity].
  apply leb_Fin in E. lra.
Qed.

(** X14. An invalid start or end date, or a progress that is [NaN], is
    not turned away: on a positive step the slider is handed an extent
    that ends at the invalid date, and playback is stopped. *)
Theorem interpolateTimeSlider_invalid_date
        (ctx : Context) (w : World) (data : TimeSliderData)
        (slider : TimeSlider) (m : Q) :
  slideTimeSlider (slideCurrent ctx) = Some data ->
  stepMsOf (timeSliderStep data) (timeSliderUnit data) = Fin m ->
  0 < m ->
  timeSlider w = Some slider ->
  timeSliderStart data = InvalidDate
  \/ timeSliderEnd data = InvalidDate
  \/ progress ctx = NaN ->
  interpolateTimeSlider ctx w
  = (withSlider w sliderStoppedInvalid, Normal Undefined).
Proof.
  intros Hdata Hm Hpos Hslider Hbad.
  unfold interpolateTimeSlider.
  rewrite Hdata, Hm, Hslider, (leb_positive_false m Hpos).
  destruct (timeSliderStart data) as [| s];
    destruct (timeSliderEnd data) as [| e];
    destruct (progress ctx) as [| | | p];
    try reflexivity;
    destruct Hbad as [H | [H | H]]; discriminate.
Qed.

Lemma interpolateTimeSlider_invalid_date_witness :
  let data := {| timeSliderStart := InvalidDate;
                 timeSliderEnd := utcDate 2020 1 10;
                 timeSliderStep := Fin 1;
                 timeSliderUnit := lit "days" |} in
  let ctx := {| slideCurrent := [PTimeSlider data]; slideNext := None;
                progress := Fin (1 # 2) |} in
  let slider := {| timeExtent := None; playing := true |} in
  let w := {| mapView := None; timeSlider := Some slider;
              consoleErrors := [] |} in
  interpolateTimeSlider ctx w
  = (withSlider w sliderStoppedInvalid, Normal Undefined).
Proof.
  intros data ctx slider w.
  refine (interpolateTimeSlider_invalid_date
            ctx w data slider (86400000 # 1) _ _ _ _ _).
  - vm_compute; reflexivity.
  - vm_compute; reflexivity.
  - vm_compute; reflexivity.
  - vm_compute; reflexivity.
  - left; reflexivity.
Defined.

(** a unit named like a member that every object inherits is found in
    the table of units, though not as a number *)
Lemma unitToMs_inherited (unit : jsstring) :
  In unit inheritedNames -> unitToMs unit = Inherited.
Proof.
  unfold inheritedNames. simpl.
  intros H.
  repeat (destruct H as [<- | H]; [vm_compute; reflexivity |]).
  contradiction.
Qed.

Lemma stepMsOf_not_a_number (step : jsnum) (unit : jsstring) :
  In unit inheritedNames \/ step = NaN -> stepMsOf step unit = NaN.
Proof.
  intros [H | ->]; unfold stepMsOf.
  - rewrite (unitToMs_inherited unit H). destruct step; reflexivity.
  - reflexivity.
Qed.

Lemma div_NaN_r (a : jsnum) : div a NaN = NaN.
Proof. destruct a; reflexivity. Qed.

Lemma add_NaN_r (a : jsnum) : add a NaN = NaN.
Proof. destruct a; reflexivity. Qed.

(** X15. A unit that is missing from the table makes the handler return
    at once, but a unit named like a member that every object inherits
    ("constructor", "toString", ...) does not, and neither does a step
    that is no number: the step in milliseconds is then [NaN], the
    test for a non-positive step fails, and the slider is handed an
    extent that ends at the invalid date. *)
Theorem interpolateTimeSlider_step_not_a_number
        (ctx : Context) (w : World) (data : TimeSliderData)
        (slider : TimeSlider) :
  slideTimeSlider (slideCurrent ctx) = Some data ->
  timeSlider w = Some slider ->
  In (timeSliderUnit data) inheritedNames \/ timeSliderStep data = NaN ->
  interpolateTimeSlider ctx w
  = (withSlider w sliderStoppedInvalid, Normal Undefined).
Proof.
  intros Hdata Hslider Hbad.
  unfold interpolateTimeSlider.
  rewrite Hdata, Hslider, (stepMsOf_not_a_number _ _ Hbad).
  cbv zeta. cbn [leb].
  rewrite div_NaN_r. cbn [ceil mul]. rewrite add_NaN_r. reflexivity.
Qed.

Lemma interpolateTimeSlider_step_not_a_number_witness :
  let data := {| timeSliderStart := utcDate 2020 1 1;
                 timeSliderEnd := utcDate 2020 1 10;
                 timeSliderStep := Fin 1;
                 timeSliderUnit := lit "constructor" |} in
  let ctx := {| slideCurrent := [PTimeSlider data]; slideNext := None;
                progress := Fin (1 # 2) |} in
  let slider := {| timeExtent := None; playing := true |} in
  let w := {| mapView := None; timeSlider := Some slider;
              consoleErrors := [] |} in
  interpolateTimeSlider ctx w
  = (withSlider w sliderStoppedInvalid, Normal Undefined).
Proof.
  intros data ctx slider w.
  refine (interpolateTimeSlider_step_not_a_number ctx w data slider _ _ _).
  - vm_compute; reflexivity.
  - vm_compute; reflexivity.
  - left. left. vm_compute; reflexivity.
Defined.

(** ** Navigation of one tick *)

(** X16. The viewpoint handler touches nothing but the list of [goTo]
    calls, and adds at most one call to it.  A camera is handed over
    with animation off and only on a view that has a camera; a 2D
    target is handed over with the options of the configuration, as a
    whole viewpoint when the fit is "scale" and otherwise as its
    geometry and rotation, the interpolated scale being left out. *)
Theorem interpolateViewpoint_one_call
        (config : Config) (ctx : Context) (w : World) :
  fst (interpolateViewpoint config ctx w) = w
  \/ exists mv call,
      mapView w = Some mv
      /\ interpolateViewpoint config ctx w
         = ({| mapView := Some {| hasCamera := hasCamera mv;
                                  viewEnvironment := viewEnvironment mv;
                                  goToCalls := goToCalls mv ++ [call] |};
               timeSlider := timeSlider w;
               consoleErrors := consoleErrors w |},
            Normal Undefined)
      /\ ((hasCamera mv = true
           /\ options call = {| animate := false; duration := None |}
           /\ exists j, target call = TargetCamera j)
          \/ (options call = goToConfig config
              /\ exists j,
                  (JsString.eqb (mapFit config) (lit "scale") = true
                   /\ target call = TargetViewpoint j)
                  \/ (JsString.eqb (mapFit config) (lit "scale") = false
                      /\ target call
                         = TargetExtent (vTargetGeometry j) (vRotation j)))).
Proof.
  unfold interpolateViewpoint, goTo, is3DView.
  destruct (slideViewpoint (slideCurrent ctx)) as [cv |]; [| now left].
  destruct (slideNext ctx) as [next |].
  - destruct (slideViewpoint next) as [nv |]; [| now left].
    destruct (mapView w) as [mv |] eqn:Emv.
    + destruct (hasCamera mv) eqn:E3; simpl.
      * destruct (camera cv) as [cc |], (camera nv) as [nc |]; simpl;
          try (now left).
        -- destruct (interpolatedCamera cc nc _) as [j |]; [| now left].
           right. exists mv, {| target := TargetCamera j;
                                options := {| animate := false;
                                              duration := None |} |}.
           rewrite E3. repeat split.
           left. repeat split. now exists j.
        -- destruct (interpolatedViewpoint cv nv _) as [j |]; [| now left].
           right. eexists mv, _. rewrite E3.
           split; [reflexivity |]. split; [reflexivity |].
           right. split; [reflexivity |]. exists j.
           destruct (JsString.eqb (mapFit config) (lit "scale"));
             [left | right]; split; reflexivity.
      * destruct (interpolatedViewpoint cv nv _) as [j |]; [| now left].
        right. eexists mv, _. rewrite E3.
        split; [reflexivity |]. split; [reflexivity |].
        right. split; [reflexivity |]. exists j.
        destruct (JsString.eqb (mapFit config) (lit "scale"));
          [left | right]; split; reflexivity.
    + simpl. destruct (interpolatedViewpoint cv nv _); now left.
  - destruct (mapView w) as [mv |]; simpl; [| now left].
    destruct (hasCamera mv && (AnimateOnScroll.isSome (camera cv) || false));
      [destruct (camera cv) |]; now left.
Qed.

(** ** Environment *)




(** X18. An environment that lacks its lighting or its weather block on
    either slide, or a page without map view, makes the handler throw
    before it has changed anything; the dispatcher writes the key to
    the console and the world is otherwise as before. *)
Theorem interpolateEnvironment_incomplete
        (config : Config) (ctx : Context) (w : World)
        (ce ne e : Environment) :
  slideEnvironment (slideCurrent ctx) = Some ce ->
  environmentOfNext (slideNext ctx) = Some ne ->
  lighting ce = None \/ lighting ne = None
  \/ weather ce = None \/ weather ne = None \/ mapView w = None ->
  interpolateEnvironment ctx w = (w, Throw TypeError)
  /\ dispatchKey config ctx w (PEnvironment e)
     = logError (lit "environment") w.
Proof.
  intros Hce Hne Hmiss.
  assert (H : interpolateEnvironment ctx w = (w, Throw TypeError)).
  { unfold interpolateEnvironment, environmentOfNext in *.
    rewrite Hce, Hne.
    destruct (lighting ce), (lighting ne), (weather ce), (weather ne),
      (mapView w); try reflexivity.
    destruct Hmiss as [H | [H | [H | [H | H]]]]; discriminate. }
  split; [exact H |].
  unfold dispatchKey; simpl. now rewrite H.
Qed.

Lemma interpolateEnvironment_incomplete_witness :
  let ce := {| lighting := None; weather := None;
               atmosphereEnabled := Some true; starsEnabled := Some false |} in
  let w := {| mapView := None; timeSlider := None; consoleErrors := [] |} in
  let ctx := {| slideCurrent := [PEnvironment ce];
                slideNext := Some [PEnvironment ce];
                progress := Fin 0 |} in
  interpolateEnvironment ctx w = (w, Throw TypeError)
  /\ dispatchKey animationConfig ctx w (PEnvironment ce)
     = logError (lit "environment") w.
Proof.
  intros ce w ctx.
  apply (interpolateEnvironment_incomplete animationConfig ctx w ce ce ce);
    [reflexivity | reflexivity | left; reflexivity].
Defined.

(** ** Each key keeps to its own part of the world *)

Section Frame.

Variable config : Config.
Variable ctx : Context.

(** the viewpoint handler leaves the world as it is or makes one call
    of [goTo] *)
Lemma interpolateViewpoint_cases (w : World) :
  fst (interpolateViewpoint config ctx w) = w
  \/ exists call, fst (interpolateViewpoint config ctx w) = fst (goTo call w).
Proof.
  unfold interpolateViewpoint.
  destruct (slideViewpoint (slideCurrent ctx)) as [cv |]; [| now left].
  destruct (match slideNext ctx with
            | Some _ =>
                match match slideNext ctx with
                      | Some next => slideViewpoint next
                      | None => None
                      end with
                | Some nv => Normal (camera nv)
                | None => Throw TypeError
                end
            | None => Normal None
            end) as [nextCamera |]; [| now left].
  destruct (is3DView w && _).
  - destruct (camera cv) as [cc |]; [| now left].
    destruct nextCamera as [nc |]; [| now left].
    destruct (interpolatedCamera cc nc _); [| now left].
    right; eexists; reflexivity.
  - destruct (match slideNext ctx with
              | Some next => slideViewpoint next
              | None => None
              end) as [nv |]; [| now left].
    destruct (interpolatedViewpoint cv nv _); [| now left].
    right; eexists; reflexivity.
Qed.

Lemma goTo_frame (call : GoToCall) (w : World) :
  timeSlider (fst (goTo call w)) = timeSlider w
  /\ environmentOf (fst (goTo call w)) = environmentOf w
  /\ is3DView (fst (goTo call w)) = is3DView w
  /\ AnimateOnScroll.isSome (mapView (fst (goTo call w)))
     = AnimateOnScroll.isSome (mapView w).
Proof.
  unfold goTo, environmentOf, is3DView.
  destruct (mapView w) as [mv |] eqn:E; simpl; rewrite ?E;
    repeat split; reflexivity.
Qed.

Lemma interpolateViewpoint_frame (w : World) :
  timeSlider (fst (interpolateViewpoint config ctx w)) = timeSlider w
  /\ environmentOf (fst (interpolateViewpoint config ctx w)) = environmentOf w
  /\ is3DView (fst (interpolateViewpoint config ctx w)) = is3DView w
  /\ AnimateOnScroll.isSome (mapView (fst (interpolateViewpoint config ctx w)))
     = AnimateOnScroll.isSome (mapView w).
Proof.
  destruct (interpolateViewpoint_cases w) as [-> | [call ->]];
    [repeat split; reflexivity | apply goTo_frame].
Qed.

Lemma interpolateTimeSlider_frame (w : World) :
  mapView (fst (interpolateTimeSlider ctx w)) = mapView w
  /\ AnimateOnScroll.isSome (timeSlider (fst (interpolateTimeSlider ctx w)))
     = AnimateOnScroll.isSome (timeSlider w).
Proof.
  unfold interpolateTimeSlider.
  destruct (slideTimeSlider (slideCurrent ctx)) as [data |];
    [| split; reflexivity].
  destruct (leb _ _); [split; reflexivity |].
  destruct (timeSlider w) eqn:E; simpl; rewrite ?E; split; reflexivity.
Qed.

Lemma interpolateEnvironment_frame (w : World) :
  timeSlider (fst (interpolateEnvironment ctx w)) = timeSlider w
  /\ navigation (fst (interpolateEnvironment ctx w)) = navigation w
  /\ is3DView (fst (interpolateEnvironment ctx w)) = is3DView w
  /\ AnimateOnScroll.isSome (mapView (fst (interpolateEnvironment ctx w)))
     = AnimateOnScroll.isSome (mapView w).
Proof.
  unfold interpolateEnvironment, navigation, is3DView.
  destruct (slideEnvironment (slideCurrent ctx)) as [ce |];
    [| repeat split; reflexivity].
  destruct (match slideNext ctx with
            | Some next => slideEnvironment next
            | None => None
            end) as [ne |]; [| repeat split; reflexivity].
  destruct (lighting ce); [| repeat split; reflexivity].
  destruct (lighting ne); [| repeat split; reflexivity].
  destruct (weather ce); [| repeat split; reflexivity].
  destruct (weather ne); [| repeat split; reflexivity].
  destruct (mapView w) eqn:E; simpl; rewrite ?E; repeat split; reflexivity.
Qed.

(** the parts of the world, and which key may change which *)
Lemma handlerEffect_frame (p : Property) (w : World) :
  ((forall t, p <> PTimeSlider t) ->
   timeSlider (handlerEffect config ctx p w) = timeSlider w)
  /\ ((forall v, p <> PViewpoint v) ->
      navigation (handlerEffect config ctx p w) = navigation w)
  /\ ((forall e, p <> PEnvironment e) ->
      environmentOf (handlerEffect config ctx p w) = environmentOf w)
  /\ is3DView (handlerEffect config ctx p w) = is3DView w
  /\ AnimateOnScroll.isSome (mapView (handlerEffect config ctx p w))
     = AnimateOnScroll.isSome (mapView w)
  /\ AnimateOnScroll.isSome (timeSlider (handlerEffect config ctx p w))
     = AnimateOnScroll.isSome (timeSlider w).
Proof.
  unfold handlerEffect.
  destruct p as [v | t | e | key]; simpl choreographyHandlers.
  - destruct (interpolateViewpoint_frame w) as [Hs [He [H3 Hm]]].
    split; [intros _; exact Hs |].
    split; [intros Hv; exfalso; exact (Hv v eq_refl) |].
    split; [intros _; exact He |].
    split; [exact H3 |]. split; [exact Hm |]. now rewrite Hs.
  - destruct (interpolateTimeSlider_frame w) as [Hm Hs].
    unfold navigation, environmentOf, is3DView. rewrite Hm.
    split; [intros Ht; exfalso; exact (Ht t eq_refl) |].
    repeat split; assumption.
  - destruct (interpolateEnvironment_frame w) as [Hs [Hn [H3 Hm]]].
    split; [intros _; exact Hs |].
    split; [intros _; exact Hn |].
    split; [intros He; exfalso; exact (He e eq_refl) |].
    split; [exact H3 |]. split; [exact Hm |]. now rewrite Hs.
  - repeat match goal with
           | |- context [if ?b then _ else _] => destruct b
           end; simpl; repeat split; reflexivity.
Qed.

(** the dispatcher adds to the console only *)
Lemma dispatchKey_effect (w : World) (p : Property) :
  sameMapAndSlider (dispatchKey config ctx w p) (handlerEffect config ctx p w).
Proof. apply dispatchKey_world. Qed.

Lemma dispatchKey_frame (p : Property) (w : World) :
  ((forall t, p <> PTimeSlider t) ->
   timeSlider (dispatchKey config ctx w p) = timeSlider w)
  /\ ((forall v, p <> PViewpoint v) ->
      navigation (dispatchKey config ctx w p) = navigation w)
  /\ ((forall e, p <> PEnvironment e) ->
      environmentOf (dispatchKey config ctx w p) = environmentOf w)
  /\ is3DView (dispatchKey config ctx w p) = is3DView w
  /\ AnimateOnScroll.isSome (mapView (dispatchKey config ctx w p))
     = AnimateOnScroll.isSome (mapView w)
  /\ AnimateOnScroll.isSome (timeSlider (dispatchKey config ctx w p))
     = AnimateOnScroll.isSome (timeSlider w).
Proof.
  destruct (dispatchKey_effect w p) as [Hm Hs].
  destruct (handlerEffect_frame p w) as [H1 [H2 [H3 [H4 [H5 H6]]]]].
  unfold navigation, environmentOf, is3DView in *.
  rewrite Hm, Hs. repeat split; assumption.
Qed.

Lemma dispatch_frame_all (keys : list Property) :
  forall w : World,
    ((forall t, ~ In (PTimeSlider t) keys) ->
     timeSlider (dispatch config ctx keys w) = timeSlider w)
    /\ ((forall v, ~ In (PViewpoint v) keys) ->
        navigation (dispatch config ctx keys w) = navigation w)
    /\ ((forall e, ~ In (PEnvironment e) keys) ->
        environmentOf (dispatch config ctx keys w) = environmentOf w)
    /\ is3DView (dispatch config ctx keys w) = is3DView w
    /\ AnimateOnScroll.isSome (mapView (dispatch config ctx keys w))
       = AnimateOnScroll.isSome (mapView w)
    /\ AnimateOnScroll.isSome (timeSlider (dispatch config ctx keys w))
       = AnimateOnScroll.isSome (timeSlider w).
Proof.
  unfold dispatch.
  induction keys as [| p rest IH]; intros w; [repeat split; reflexivity |].
  simpl.
  destruct (IH (dispatchKey config ctx w p)) as [I1 [I2 [I3 [I4 [I5 I6]]]]].
  destruct (dispatchKey_frame p w) as [H1 [H2 [H3 [H4 [H5 H6]]]]].
  split; [| split; [| split; [| split; [| split]]]].
  - intros Hno. rewrite I1 by (intros t Hin; apply (Hno t); right; exact Hin).
    apply H1. intros t ->. apply (Hno t); left; reflexivity.
  - intros Hno. rewrite I2 by (intros v Hin; apply (Hno v); right; exact Hin).
    apply H2. intros v ->. apply (Hno v); left; reflexivity.
  - intros Hno. rewrite I3 by (intros e Hin; apply (Hno e); right; exact Hin).
    apply H3. intros e ->. apply (Hno e); left; reflexivity.
  - congruence.
  - congruence.
  - congruence.
Qed.

End Frame.

(** X19. Each key of a slide keeps to its own part of the world: a tick
    on a slide without [timeSlider] leaves the slider as it was, one on
    a slide without [viewpoint] makes no call of [goTo], one on a slide
    without [environment] leaves the environment as it was; and no tick
    creates or removes the map view or the slider, or changes the kind
    of the view. *)
Theorem scrollAnimation_frame
        (config : Config) (current : Slide) (next : option Slide)
        (progress : jsnum) (w : World) :
  let w' := fst (scrollAnimation config (Some current) next progress w) in
  ((forall t, ~ In (PTimeSlider t) current) -> timeSlider w' = timeSlider w)
  /\ ((forall v, ~ In (PViewpoint v) current) -> navigation w' = navigation w)
  /\ ((forall e, ~ In (PEnvironment e) current) ->
      environmentOf w' = environmentOf w)
  /\ is3DView w' = is3DView w
  /\ AnimateOnScroll.isSome (mapView w') = AnimateOnScroll.isSome (mapView w)
  /\ AnimateOnScroll.isSome (timeSlider w')
     = AnimateOnScroll.isSome (timeSlider w).
Proof. simpl. apply dispatch_frame_all. Qed.

Lemma scrollAnimation_frame_witness :
  let data := {| timeSliderStart := utcDate 2020 1 1;
                 timeSliderEnd := utcDate 2020 1 10;
                 timeSliderStep := Fin 1;
                 timeSliderUnit := lit "days" |} in
  let w := {| mapView := Some {| hasCamera := false;
                                 viewEnvironment := None;
                                 goToCalls := [] |};
              timeSlider := Some {| timeExtent := None; playing := true |};
              consoleErrors := [] |} in
  navigation (fst (scrollAnimation animationConfig (Some [PTimeSlider data])
                                   None (Fin (1 # 2)) w))
  = navigation w.
Proof.
  intros data w.
  apply (proj1 (proj2 (scrollAnimation_frame
                         animationConfig [PTimeSlider data] None
                         (Fin (1 # 2)) w))).
  intros v [H | []]; discriminate.
Defined.

(** ** The order of the keys *)

Section Order.

Variable config : Config.
Variable ctx : Context.

(** whether the viewpoint handler calls [goTo], and with what, depends
    on the kind of the view only *)
Lemma interpolateViewpoint_decision (w1 w2 : World) :
  is3DView w1 = is3DView w2 ->
  (fst (interpolateViewpoint config ctx w1) = w1
   /\ fst (interpolateViewpoint config ctx w2) = w2)
  \/ exists call,
      fst (interpolateViewpoint config ctx w1) = fst (goTo call w1)
      /\ fst (interpolateViewpoint config ctx w2) = fst (goTo call w2).
Proof.
  intros H3. unfold interpolateViewpoint. rewrite H3.
  destruct (slideViewpoint (slideCurrent ctx)) as [cv |];
    [| left; split; reflexivity].
  destruct (match slideNext ctx with
            | Some _ =>
                match match slideNext ctx with
                      | Some next => slideViewpoint next
                      | None => None
                      end with
                | Some nv => Normal (camera nv)
                | None => Throw TypeError
                end
            | None => Normal None
            end) as [nextCamera |]; [| left; split; reflexivity].
  destruct (is3DView w2 && _).
  - destruct (camera cv) as [cc |]; [| left; split; reflexivity].
    destruct nextCamera as [nc |]; [| left; split; reflexivity].
    destruct (interpolatedCamera cc nc _); [| left; split; reflexivity].
    right; eexists; split; reflexivity.
  - destruct (match slideNext ctx with
              | Some next => slideViewpoint next
              | None => None
              end) as [nv |]; [| left; split; reflexivity].
    destruct (interpolatedViewpoint cv nv _); [| left; split; reflexivity].
    right; eexists; split; reflexivity.
Qed.

Lemma goTo_reads (call : GoToCall) (w1 w2 : World) :
  mapView w1 = mapView w2 ->
  mapView (fst (goTo call w1)) = mapView (fst (goTo call w2)).
Proof.
  intros H. unfold goTo. rewrite H.
  destruct (mapView w2) eqn:E; simpl; congruence.
Qed.

Lemma interpolateViewpoint_reads (w1 w2 : World) :
  mapView w1 = mapView w2 ->
  mapView (fst (interpolateViewpoint config ctx w1))
  = mapView (fst (interpolateViewpoint config ctx w2)).
Proof.
  intros H.
  assert (H3 : is3DView w1 = is3DView w2) by (unfold is3DView; now rewrite H).
  destruct (interpolateViewpoint_decision w1 w2 H3)
    as [[-> ->] | [call [-> ->]]]; [exact H | now apply goTo_reads].
Qed.

Lemma interpolateEnvironment_reads_view (w1 w2 : World) :
  mapView w1 = mapView w2 ->
  mapView (fst (interpolateEnvironment ctx w1))
  = mapView (fst (interpolateEnvironment ctx w2)).
Proof.
  intros H. unfold interpolateEnvironment.
  destruct (slideEnvironment (slideCurrent ctx)) as [ce |]; [| exact H].
  destruct (match slideNext ctx with
            | Some next => slideEnvironment next
            | None => None
            end) as [ne |]; [| exact H].
  destruct (lighting ce); [| exact H].
  destruct (lighting ne); [| exact H].
  destruct (weather ce); [| exact H].
  destruct (weather ne); [| exact H].
  rewrite H. destruct (mapView w2) eqn:E; simpl; congruence.
Qed.

Lemma interpolateTimeSlider_reads_slider (w1 w2 : World) :
  timeSlider w1 = timeSlider w2 ->
  timeSlider (fst (interpolateTimeSlider ctx w1))
  = timeSlider (fst (interpolateTimeSlider ctx w2)).
Proof.
  intros H. unfold interpolateTimeSlider.
  destruct (slideTimeSlider (slideCurrent ctx)) as [data |]; [| exact H].
  destruct (leb _ _); [exact H |].
  rewrite H. destruct (timeSlider w2) eqn:E; simpl; congruence.
Qed.

(** the handler of a key reads the map view and the slider only *)
Lemma handlerEffect_reads (p : Property) (w1 w2 : World) :
  sameMapAndSlider w1 w2 ->
  sameMapAndSlider (handlerEffect config ctx p w1)
                   (handlerEffect config ctx p w2).
Proof.
  intros [Hm Hs]. unfold handlerEffect.
  destruct p as [v | t | e | key]; simpl choreographyHandlers.
  - split; [now apply interpolateViewpoint_reads |].
    rewrite (proj1 (interpolateViewpoint_frame config ctx w1)),
            (proj1 (interpolateViewpoint_frame config ctx w2)).
    exact Hs.
  - split; [| now apply interpolateTimeSlider_reads_slider].
    rewrite (proj1 (interpolateTimeSlider_frame ctx w1)),
            (proj1 (interpolateTimeSlider_frame ctx w2)).
    exact Hm.
  - split; [now apply interpolateEnvironment_reads_view |].
    rewrite (proj1 (interpolateEnvironment_frame ctx w1)),
            (proj1 (interpolateEnvironment_frame ctx w2)).
    exact Hs.
  - repeat match goal with
           | |- context [if ?b then _ else _] => destruct b
           end; simpl; split; assumption.
Qed.

(** a key that is none of the three changes neither view nor slider *)
Lemma handlerEffect_other (key : jsstring) (w : World) :
  handlerEffect config ctx (POther key) w = w.
Proof.
  unfold handlerEffect, choreographyHandlers.
  repeat match goal with
         | |- context [if ?b then _ else _] => destruct b
         end; reflexivity.
Qed.

(** the environment handler and a call of [goTo] in either order *)
Lemma environment_goTo_swap (call : GoToCall) (w : World) :
  mapView (fst (interpolateEnvironment ctx (fst (goTo call w))))
  = mapView (fst (goTo call (fst (interpolateEnvironment ctx w)))).
Proof.
  unfold interpolateEnvironment, goTo.
  destruct (slideEnvironment (slideCurrent ctx)) as [ce |]; [| reflexivity].
  destruct (match slideNext ctx with
            | Some next => slideEnvironment next
            | None => None
            end) as [ne |]; [| reflexivity].
  destruct (lighting ce); [| reflexivity].
  destruct (lighting ne); [| reflexivity].
  destruct (weather ce); [| reflexivity].
  destruct (weather ne); [| reflexivity].
  destruct (mapView w) as [mv |] eqn:E; simpl; rewrite ?E; reflexivity.
Qed.

Lemma viewpoint_environment_swap (w : World) :
  mapView (fst (interpolateEnvironment
                  ctx (fst (interpolateViewpoint config ctx w))))
  = mapView (fst (interpolateViewpoint
                    config ctx (fst (interpolateEnvironment ctx w)))).
Proof.
  assert (H3 : is3DView w = is3DView (fst (interpolateEnvironment ctx w))).
  { symmetry. apply interpolateEnvironment_frame. }
  destruct (interpolateViewpoint_decision
              w (fst (interpolateEnvironment ctx w)) H3)
    as [[-> ->] | [call [-> ->]]];
    [reflexivity | apply environment_goTo_swap].
Qed.

(** the handlers of two keys in either order *)
Lemma handlerEffect_swap (p q : Property) (w : World) :
  sameMapAndSlider
    (handlerEffect config ctx q (handlerEffect config ctx p w))
    (handlerEffect config ctx p (handlerEffect config ctx q w)).
Proof.
  destruct p as [v | t | e | key], q as [v' | t' | e' | key'];
    rewrite ?handlerEffect_other;
    try apply sameMapAndSlider_refl;
    unfold handlerEffect; simpl choreographyHandlers.
  - (* viewpoint, then time slider *)
    split.
    + rewrite (proj1 (interpolateTimeSlider_frame ctx _)).
      apply interpolateViewpoint_reads. symmetry.
      apply interpolateTimeSlider_frame.
    + rewrite (proj1 (interpolateViewpoint_frame config ctx _)).
      apply interpolateTimeSlider_reads_slider.
      apply interpolateViewpoint_frame.
  - (* viewpoint, then environment *)
    split.
    + apply viewpoint_environment_swap.
    + rewrite (proj1 (interpolateEnvironment_frame ctx _)),
              (proj1 (interpolateViewpoint_frame config ctx _)),
              (proj1 (interpolateViewpoint_frame config ctx _)),
              (proj1 (interpolateEnvironment_frame ctx _)).
      reflexivity.
  - (* time slider, then viewpoint *)
    split.
    + rewrite (proj1 (interpolateTimeSlider_frame ctx _)).
      symmetry. apply interpolateViewpoint_reads. symmetry.
      apply interpolateTimeSlider_frame.
    + rewrite (proj1 (interpolateViewpoint_frame config ctx _)).
      symmetry. apply interpolateTimeSlider_reads_slider.
      apply interpolateViewpoint_frame.
  - (* time slider, then environment *)
    split.
    + rewrite (proj1 (interpolateTimeSlider_frame ctx _)).
      symmetry. apply interpolateEnvironment_reads_view. symmetry.
      apply interpolateTimeSlider_frame.
    + rewrite (proj1 (interpolateEnvironment_frame ctx _)).
      symmetry. apply interpolateTimeSlider_reads_slider.
      apply interpolateEnvironment_frame.
  - (* environment, then viewpoint *)
    split.
    + symmetry. apply viewpoint_environment_swap.
    + rewrite (proj1 (interpolateEnvironment_frame ctx _)),
              (proj1 (interpolateViewpoint_frame config ctx _)),
              (proj1 (interpolateViewpoint_frame config ctx _)),
              (proj1 (interpolateEnvironment_frame ctx _)).
      reflexivity.
  - (* environment, then time slider *)
    split.
    + rewrite (proj1 (interpolateTimeSlider_frame ctx _)).
      apply interpolateEnvironment_reads_view. symmetry.
      apply interpolateTimeSlider_frame.
    + rewrite (proj1 (interpolateEnvironment_frame ctx _)).
      apply interpolateTimeSlider_reads_slider.
      apply interpolateEnvironment_frame.
Qed.

Lemma dispatchKey_reads (p : Property) (w1 w2 : World) :
  sameMapAndSlider w1 w2 ->
  sameMapAndSlider (dispatchKey config ctx w1 p) (dispatchKey config ctx w2 p).
Proof.
  intros H.
  eapply sameMapAndSlider_trans; [apply dispatchKey_effect |].
  eapply sameMapAndSlider_trans; [apply handlerEffect_reads; exact H |].
  apply sameMapAndSlider_sym, dispatchKey_effect.
Qed.

Lemma dispatchKey_swap (p q : Property) (w : World) :
  sameMapAndSlider
    (dispatchKey config ctx (dispatchKey config ctx w p) q)
    (dispatchKey config ctx (dispatchKey config ctx w q) p).
Proof.
  eapply sameMapAndSlider_trans; [apply dispatchKey_effect |].
  eapply sameMapAndSlider_trans;
    [apply handlerEffect_reads, dispatchKey_effect |].
  eapply sameMapAndSlider_trans; [apply handlerEffect_swap |].
  eapply sameMapAndSlider_trans;
    [apply handlerEffect_reads, sameMapAndSlider_sym, dispatchKey_effect |].
  apply sameMapAndSlider_sym, dispatchKey_effect.
Qed.

Lemma dispatch_reads (keys : list Property) :
  forall w1 w2 : World,
    sameMapAndSlider w1 w2 ->
    sameMapAndSlider (dispatch config ctx keys w1)
                     (dispatch config ctx keys w2).
Proof.
  unfold dispatch.
  induction keys as [| p rest IH]; intros w1 w2 H; [exact H |].
  simpl. apply IH, dispatchKey_reads, H.
Qed.

Lemma dispatch_permutation (keys keys' : list Property) :
  Permutation keys keys' ->
  forall w : World,
    sameMapAndSlider (dispatch config ctx keys w)
                     (dispatch config ctx keys' w).
Proof.
  induction 1 as [| p l l' Hperm IH | p q l | l l' l'' H1 IH1 H2 IH2];
    intros w.
  - apply sameMapAndSlider_refl.
  - apply (IH (dispatchKey config ctx w p)).
  - apply (dispatch_reads l), dispatchKey_swap.
  - eapply sameMapAndSlider_trans; [apply IH1 | apply IH2].
Qed.

End Order.

(** *** Looking a key up in a reordered slide *)

Lemma slideViewpoint_In (keys : Slide) :
  match slideViewpoint keys with
  | Some v => In (PViewpoint v) keys
  | None => forall v, ~ In (PViewpoint v) keys
  end.
Proof.
  induction keys as [| p rest IH]; simpl; [intros v [] |].
  destruct p as [v | t | e | key]; [left; reflexivity | | |];
    (destruct (slideViewpoint rest) as [v' |];
     [right; exact IH
     | intros v'' [H | H]; [discriminate | exact (IH v'' H)]]).
Qed.

Lemma slideTimeSlider_In (keys : Slide) :
  match slideTimeSlider keys with
  | Some t => In (PTimeSlider t) keys
  | None => forall t, ~ In (PTimeSlider t) keys
  end.
Proof.
  induction keys as [| p rest IH]; simpl; [intros t [] |].
  destruct p as [v | t | e | key]; [| left; reflexivity | |];
    (destruct (slideTimeSlider rest) as [t' |];
     [right; exact IH
     | intros t'' [H | H]; [discriminate | exact (IH t'' H)]]).
Qed.

Lemma slideEnvironment_In (keys : Slide) :
  match slideEnvironment keys with
  | Some e => In (PEnvironment e) keys
  | None => forall e, ~ In (PEnvironment e) keys
  end.
Proof.
  induction keys as [| p rest IH]; simpl; [intros e [] |].
  destruct p as [v | t | e | key]; [| | left; reflexivity |];
    (destruct (slideEnvironment rest) as [e' |];
     [right; exact IH
     | intros e'' [H | H]; [discriminate | exact (IH e'' H)]]).
Qed.

Lemma lookups_permutation (keys keys' : Slide) :
  Permutation keys keys' ->
  keysOnce keys ->
  slideViewpoint keys = slideViewpoint keys'
  /\ slideTimeSlider keys = slideTimeSlider keys'
  /\ slideEnvironment keys = slideEnvironment keys'.
Proof.
  intros Hperm [Hv [Ht He]].
  assert (Hback : Permutation keys' keys) by now apply Permutation_sym.
  split; [| split].
  - pose proof (slideViewpoint_In keys) as H1.
    pose proof (slideViewpoint_In keys') as H2.
    destruct (slideViewpoint keys) as [v |], (slideViewpoint keys') as [v' |];
      try reflexivity.
    + f_equal. apply Hv; [exact H1 |].
      exact (Permutation_in _ Hback H2).
    + exfalso. exact (H2 v (Permutation_in _ Hperm H1)).
    + exfalso. exact (H1 v' (Permutation_in _ Hback H2)).
  - pose proof (slideTimeSlider_In keys) as H1.
    pose proof (slideTimeSlider_In keys') as H2.
    destruct (slideTimeSlider keys) as [t |],
             (slideTimeSlider keys') as [t' |]; try reflexivity.
    + f_equal. apply Ht; [exact H1 |].
      exact (Permutation_in _ Hback H2).
    + exfalso. exact (H2 t (Permutation_in _ Hperm H1)).
    + exfalso. exact (H1 t' (Permutation_in _ Hback H2)).
  - pose proof (slideEnvironment_In keys) as H1.
    pose proof (slideEnvironment_In keys') as H2.
    destruct (slideEnvironment keys) as [e |],
             (slideEnvironment keys') as [e' |]; try reflexivity.
    + f_equal. apply He; [exact H1 |].
      exact (Permutation_in _ Hback H2).
    + exfalso. exact (H2 e (Permutation_in _ Hperm H1)).
    + exfalso. exact (H1 e' (Permutation_in _ Hback H2)).
Qed.

(** the handlers read the current slide through its three lookups *)
Lemma dispatchKey_lookups
      (config : Config) (current current' : Slide) (next : option Slide)
      (progress : jsnum) (w : World) (p : Property) :
  slideViewpoint current = slideViewpoint current' ->
  slideTimeSlider current = slideTimeSlider current' ->
  slideEnvironment current = slideEnvironment current' ->
  dispatchKey config {| slideCurrent := current; slideNext := next;
                        progress := progress |} w p
  = dispatchKey config {| slideCurrent := current'; slideNext := next;
                          progress := progress |} w p.
Proof.
  intros Hv Ht He. unfold dispatchKey.
  destruct p as [v | t | e | key]; simpl choreographyHandlers.
  - unfold interpolateViewpoint; simpl. now rewrite Hv.
  - unfold interpolateTimeSlider; simpl. now rewrite Ht.
  - unfold interpolateEnvironment; simpl. now rewrite He.
  - repeat match goal with
           | |- context [if ?b then _ else _] => destruct b
           end; reflexivity.
Qed.

Lemma dispatch_lookups
      (config : Config) (current current' : Slide) (next : option Slide)
      (progress : jsnum) (keys : list Property) :
  slideViewpoint current = slideViewpoint current' ->
  slideTimeSlider current = slideTimeSlider current' ->
  slideEnvironment current = slideEnvironment current' ->
  forall w : World,
    dispatch config {| slideCurrent := current; slideNext := next;
                       progress := progress |} keys w
    = dispatch config {| slideCurrent := current'; slideNext := next;
                         progress := progress |} keys w.
Proof.
  intros Hv Ht He. unfold dispatch.
  induction keys as [| p rest IH]; intros w; [reflexivity |].
  simpl. rewrite (dispatchKey_lookups config current current' next
                                      progress w p Hv Ht He).
  apply IH.
Qed.

(** X20. The order in which a slide lists its keys does not matter to
    the map: two slides that hold the same properties, each key once,
    in a different order leave the map view and the slider in the same
    state (the console may list the failures in another order). *)
Theorem scrollAnimation_key_order
        (config : Config) (current current' : Slide) (next : option Slide)
        (progress : jsnum) (w : World) :
  Permutation current current' ->
  keysOnce current ->
  sameMapAndSlider
    (fst (scrollAnimation config (Some current) next progress w))
    (fst (scrollAnimation config (Some current') next progress w)).
Proof.
  intros Hperm Honce. simpl.
  destruct (lookups_permutation current current' Hperm Honce)
    as [Hv [Ht He]].
  rewrite <- (dispatch_lookups config current current' next progress
                               current' Hv Ht He w).
  now apply dispatch_permutation.
Qed.

Lemma scrollAnimation_key_order_witness :
  let cv := {| camera := None; rotation := Some 0; scale := Some 5000;
               targetGeometry :=
                 Some {| geometrySpatialReference := Some 4326%Z;
                         xmin := Some 0; ymin := Some 0;
                         xmax := Some 10; ymax := Some 10 |} |} in
  let data := {| timeSliderStart := utcDate 2020 1 1;
                 timeSliderEnd := utcDate 2020 1 10;
                 timeSliderStep := Fin 1;
                 timeSliderUnit := lit "days" |} in
  let w := {| mapView := Some {| hasCamera := false;
                                 viewEnvironment := None;
                                 goToCalls := [] |};
              timeSlider := Some {| timeExtent := None; playing := true |};
              consoleErrors := [] |} in
  let next := Some [PViewpoint cv; PTimeSlider data] in
  sameMapAndSlider
    (fst (scrollAnimation animationConfig
                          (Some [PViewpoint cv; PTimeSlider data])
                          next (Fin (1 # 2)) w))
    (fst (scrollAnimation animationConfig
                          (Some [PTimeSlider data; PViewpoint cv])
                          next (Fin (1 # 2)) w)).
Proof.
  intros cv data w next.
  apply (scrollAnimation_key_order animationConfig
           [PViewpoint cv; PTimeSlider data]
           [PTimeSlider data; PViewpoint cv] next (Fin (1 # 2)) w).
  - apply perm_swap.
  - repeat split; intros a b [Ha | [Ha | []]] [Hb | [Hb | []]];
      congruence.
Defined.

(** ** The listeners of the map page *)

Import AnimateMap.

Section Receiver.

Variable slideAnimation :
  option Slide -> World -> bool -> World * Completion Value.
Variable config : Config.

Lemma messageListener_foreign (message : Message) (a : Animator) :
  fromController message = false ->
  messageListener slideAnimation config message a = (a, Normal Undefined).
Proof.
  unfold fromController, messageListener. intros H. now rewrite H.
Qed.

Lemma handleAll_filter (messages : list Message) :
  forall a : Animator,
    handleAll slideAnimation config (filter fromController messages) a
    = handleAll slideAnimation config messages a.
Proof.
  induction messages as [| m rest IH]; intros a; [reflexivity |].
  simpl. destruct (fromController m) eqn:E; simpl.
  - apply IH.
  - rewrite (messageListener_foreign m a E). apply IH.
Qed.

Lemma messageListener_no_slide (message : Message) (a : Animator) :
  fromController message = true ->
  slideAt (slides a) (payloadSlide (payload message)) = None ->
  messageListener slideAnimation config message a
  = (withFlagAndWorld a (payloadIsEmbedded (payload message)) (world a),
     Throw TypeError).
Proof.
  unfold fromController, messageListener. intros Hsrc Hnone.
  rewrite Hsrc, Hnone. reflexivity.
Qed.

End Receiver.

(** X21. Messages that do not name the controller as their source are
    ignored: taking them out of any sequence of messages changes
    nothing of the state the page ends in. *)
Theorem foreign_messages_ignored
        (slideAnimation : option Slide -> World -> bool
                          -> World * Completion Value)
        (config : Config) (messages : list Message) (a : Animator) :
  handleAll slideAnimation config (filter fromController messages) a
  = handleAll slideAnimation config messages a.
Proof. apply handleAll_filter. Qed.

(** X22. A message of the controller that names no slide of the
    choreography (it carries no index, or an index outside the list)
    sets the embedded flag and then makes the listener throw, with the
    index last handled and the world untouched and [slideAnimation] not
    run.  The greeting that the iframe watcher posts is such a
    message. *)
Theorem message_without_slide_throws
        (slideAnimation : option Slide -> World -> bool
                          -> World * Completion Value)
        (config : Config) :
  (forall (message : Message) (a : Animator),
      fromController message = true ->
      slideAt (slides a) (payloadSlide (payload message)) = None ->
      messageListener slideAnimation config message a
      = (withFlagAndWorld a (payloadIsEmbedded (payload message)) (world a),
         Throw TypeError))
  /\ (forall (dom : Dom) (st : State) (posted : list Message)
             (message : Message) (a : Animator),
         snd (iframeWatcher dom st) = Normal posted ->
         In message posted ->
         messageListener slideAnimation config message a
         = (withFlagAndWorld a true (world a), Throw TypeError)).
Proof.
  split.
  - apply messageListener_no_slide.
  - intros dom st posted message a Hposted Hin.
    assert (Hm : message = {| source := controller;
                              payload := InitPayload true |}).
    { unfold iframeWatcher in Hposted.
      destruct (iframe dom) as [frame |];
        [| injection Hposted as <-; contradiction].
      destruct (negb (observed frame));
        [| injection Hposted as <-; contradiction].
      destruct (hasContentWindow frame); [| discriminate].
      injection Hposted as <-. destruct Hin as [<- | []]. reflexivity. }
    subst message.
    apply (messageListener_no_slide slideAnimation config); reflexivity.
Qed.

Lemma message_without_slide_throws_witness :
  let a := {| slides := [[POther (lit "layerVisibility")]];
              isEmbedded := false; hashIndexLast := None;
              world := {| mapView := None; timeSlider := None;
                          consoleErrors := [] |} |} in
  let message := {| source := controller;
                    payload := ProgressPayload 4 (lit "0.50") true |} in
  messageListener (fun _ w _ => (w, Normal Undefined)) animationConfig
                  message a
  = (withFlagAndWorld a true (world a), Throw TypeError).
Proof.
  intros a message.
  apply (proj1 (message_without_slide_throws
                  (fun _ w _ => (w, Normal Undefined)) animationConfig)
               message a); reflexivity.
Defined.

(** X23. [slideAnimation] runs when the slide changes and not
    otherwise: after a progress message for a slide of the choreography
    has been handled, the index last handled is that slide's, and the
    same message handled again only interpolates, whatever
    [slideAnimation] did the first time. *)
Theorem repeated_progress_only_interpolates
        (slideAnimation : option Slide -> World -> bool
                          -> World * Completion Value)
        (config : Config) (a : Animator) (k : Z) (text : jsstring)
        (flag : bool) (current : Slide) :
  slideAt (slides a) (Some k) = Some current ->
  let message := {| source := controller;
                    payload := ProgressPayload k text flag |} in
  let a1 := fst (messageListener slideAnimation config message a) in
  hashIndexLast a1 = Some k
  /\ messageListener slideAnimation config message a1
     = (withFlagAndWorld
          a1 flag
          (fst (scrollAnimation config (Some current)
                                (slideAt (slides a) (Some (k + 1)%Z))
                                (stringToNumber text) (world a1))),
        Normal Undefined).
Proof.
  intros Hcur message a1.
  assert (Hsrc : JsString.eqb controller controller = true)
    by (vm_compute; reflexivity).
  assert (H1 : hashIndexLast a1 = Some k /\ slides a1 = slides a).
  { unfold a1, message, messageListener.
    cbn [source payload payloadSlide payloadIsEmbedded payloadProgress
         option_map].
    rewrite Hsrc, Hcur. cbn [negb].
    destruct (scrollAnimation config (Some current) _ _ _)
      as [w' [r | err]] eqn:Es; [| discriminate Es].
    destruct (differs (Some k) (hashIndexLast a)) eqn:Ed.
    - destruct (slideAnimation _ _ _) as [w'' outcome]. split; reflexivity.
    - split; [| reflexivity]. cbn [fst hashIndexLast].
      unfold differs in Ed. destruct (hashIndexLast a) as [k' |];
        [| discriminate].
      apply negb_false_iff, Z.eqb_eq in Ed. now subst. }
  destruct H1 as [Hlast Hslides].
  split; [exact Hlast |].
  unfold message, messageListener.
  cbn [source payload payloadSlide payloadIsEmbedded payloadProgress
       option_map].
  rewrite Hsrc, Hslides, Hcur, Hlast. cbn [negb].
  unfold differs. rewrite Z.eqb_refl. cbn [negb].
  destruct (scrollAnimation config (Some current) _ _ _)
    as [w' [r | err]] eqn:Es; [| discriminate Es].
  unfold withFlagAndWorld. rewrite Hslides, Hlast. cbn [fst].
  destruct r; [reflexivity | discriminate Es].
Qed.

Lemma repeated_progress_only_interpolates_witness :
  let slide := [POther (lit "layerVisibility")] in
  let a := {| slides := [slide; slide];
              isEmbedded := false; hashIndexLast := None;
              world := {| mapView := None; timeSlider := None;
                          consoleErrors := [] |} |} in
  let sa := fun (_ : option Slide) (w : World) (_ : bool) =>
              (logError (lit "slideAnimation") w, Normal Undefined) in
  let message := {| source := controller;
                    payload := ProgressPayload 0 (lit "0.50") true |} in
  let a1 := fst (messageListener sa animationConfig message a) in
  hashIndexLast a1 = Some 0%Z
  /\ messageListener sa animationConfig message a1
     = (withFlagAndWorld
          a1 true
          (fst (scrollAnimation animationConfig (Some slide)
                                (slideAt (slides a) (Some (0 + 1)%Z))
                                (stringToNumber (lit "0.50")) (world a1))),
        Normal Undefined).
Proof.
  intros slide a sa message a1.
  apply (repeated_progress_only_interpolates
           sa animationConfig a 0 (lit "0.50") true slide).
  reflexivity.
Defined.

(** X24. The hash listener acts on the index of a slide of the
    choreography only: a hash that is no number, a negative index or an
    index past the last slide changes nothing, and for an index of the
    list [slideAnimation] is run on that slide, with the embedded flag
    and the index last handled left as they are. *)
Theorem hashListener_by_index
        (slideAnimation : option Slide -> World -> bool
                          -> World * Completion Value)
        (hash : jsstring) (a : Animator) :
  (parseInt10 (List.tl hash) = None ->
   hashListener slideAnimation hash a = (a, Normal Undefined))
  /\ (forall k,
         parseInt10 (List.tl hash) = Some k ->
         (k < 0 \/ Z.of_nat (List.length (slides a)) <= k)%Z ->
         hashListener slideAnimation hash a = (a, Normal Undefined))
  /\ (forall k,
         parseInt10 (List.tl hash) = Some k ->
         (0 <= k < Z.of_nat (List.length (slides a)))%Z ->
         exists current,
           nth_error (slides a) (Z.to_nat k) = Some current
           /\ hashListener slideAnimation hash a
              = (withFlagAndWorld
                   a (isEmbedded a)
                   (fst (slideAnimation (Some current) (world a)
                                        (isEmbedded a))),
                 snd (slideAnimation (Some current) (world a)
                                     (isEmbedded a)))).
Proof.
  unfold hashListener. split; [| split].
  - intros ->. reflexivity.
  - intros k -> Hout. unfold slideAt.
    destruct (Z.ltb_spec k 0); [reflexivity |].
    destruct (nth_error (slides a) (Z.to_nat k)) as [s |] eqn:E;
      [| reflexivity].
    assert (Z.to_nat k < List.length (slides a))%nat
      by (apply nth_error_Some; congruence).
    lia.
  - intros k -> [Hlo Hhi]. unfold slideAt.
    destruct (Z.ltb_spec k 0); [lia |].
    destruct (nth_error (slides a) (Z.to_nat k)) as [s |] eqn:E.
    + exists s. split; [reflexivity |].
      destruct (slideAnimation (Some s) (world a) (isEmbedded a));
        reflexivity.
    + apply nth_error_None in E. lia.
Qed.

Lemma hashListener_by_index_witness :
  let slide := [POther (lit "layerVisibility")] in
  let a := {| slides := [slide; slide];
              isEmbedded := false; hashIndexLast := None;
              world := {| mapView := None; timeSlider := None;
                          consoleErrors := [] |} |} in
  let sa := fun (_ : option Slide) (w : World) (_ : bool) =>
              (logError (lit "slideAnimation") w, Normal Undefined) in
  hashListener sa (lit "#abc") a = (a, Normal Undefined)
  /\ hashListener sa (lit "#7") a = (a, Normal Undefined)
  /\ hashListener sa (lit "#-1") a = (a, Normal Undefined).
Proof.
  intros slide a sa.
  split; [| split].
  - apply (proj1 (hashListener_by_index sa (lit "#abc") a)).
    reflexivity.
  - apply (proj1 (proj2 (hashListener_by_index sa (lit "#7") a)) 7%Z).
    + reflexivity.
    + right. simpl. lia.
  - apply (proj1 (proj2 (hashListener_by_index sa (lit "#-1") a)) (-1)%Z).
    + reflexivity.
    + left. lia.
Defined.

(** ** From the publisher to the handlers *)






(** ** More on the scroll side *)

(** X26. The scroll handler posts a message only for a docked story
    with an anchor, an index that was below the number of panels before
    the event, and a frame that has a content window; and it throws
    under the first three of these conditions only. *)
Theorem scrollListener_posts_only_when_docked (dom : Dom) (st : State) :
  (forall message rest,
      snd (scrollListener dom st) = Normal (message :: rest) ->
      isDocked st = true
      /\ dockStartScroll st <> None
      /\ (currentSlide st < Z.of_nat (List.length (panels dom)))%Z
      /\ exists frame, iframe dom = Some frame /\ hasContentWindow frame = true)
  /\ (forall e,
         snd (scrollListener dom st) = Throw e ->
         isDocked st = true
         /\ dockStartScroll st <> None
         /\ (currentSlide st < Z.of_nat (List.length (panels dom)))%Z).
Proof.
  unfold scrollListener; simpl.
  destruct (isDocked st); simpl;
    [| split; [intros m r Hp | intros e Hp]; discriminate].
  destruct (dockStartScroll st) as [anchor |]; simpl;
    [| split; [intros m r Hp | intros e Hp]; discriminate].
  destruct (Z.ltb_spec (currentSlide st)
                       (Z.of_nat (List.length (panels dom))))
    as [Hlt | Hge];
    [| split; [intros m r Hp | intros e Hp]; discriminate].
  split.
  - intros message rest Hpost.
    split; [reflexivity |]. split; [discriminate |]. split; [assumption |].
    destruct (iframe dom) as [frame |].
    + exists frame. split; [reflexivity |].
      destruct (getPanelProgress _ _ _ _); [| discriminate].
      destruct (hasContentWindow frame); [reflexivity | discriminate].
    + destruct (getPanelProgress _ _ _ _); discriminate.
  - intros e He. split; [reflexivity |]. split; [discriminate | assumption].
Qed.

Lemma scrollListener_posts_only_when_docked_witness :
  let panel := {| classList := [lit "first"]; offsetHeight := 100;
                  marginTop := Fin 10; marginBottom := Fin 10;
                  paddingBottom := Fin 5 |} in
  let frame := {| src := Some (lit "https://story.example/map.html#0");
                  hasContentWindow := true; observed := true |} in
  let dom := {| scrollY := Fin 130; targetClassList := [lit "docked"];
                panels := [panel]; iframe := Some frame |} in
  let st := {| isDocked := true; dockStartScroll := Some (Fin 100);
               lastScrollY := Fin 120; scrollDirection := down;
               currentSlide := 0 |} in
  isDocked st = true
  /\ dockStartScroll st <> None
  /\ (currentSlide st < Z.of_nat (List.length (panels dom)))%Z
  /\ exists frame', iframe dom = Some frame' /\ hasContentWindow frame' = true.
Proof.
  intros panel frame dom st.
  apply (proj1 (scrollListener_posts_only_when_docked dom st)
               (progressMessage 0 (lit "0.33")) []).
  reflexivity.
Defined.

(** the loop of the bounds, as a sum *)
Lemma accumulate_sum (panelList : list Panel) (n : nat) :
  forall (i : nat) (start s : option jsnum),
    accumulate panelList i n start = Normal s ->
    toNumber s
    = fold_left add
                (List.map getPanelHeight (firstn n (skipn i panelList)))
                (toNumber start)
    /\ (n = O -> s = start).
Proof.
  induction n as [| n IH]; intros i start s H.
  - simpl in H. injection H as <-. split; reflexivity.
  - cbn [accumulate] in H. unfold getPanelHeightAt in H.
    destruct (nth_error panelList i) as [panel |] eqn:E;
      cbn [bind] in H; [| discriminate].
    destruct (IH (S i) _ s H) as [Hsum _].
    split; [| discriminate].
    rewrite Hsum.
    assert (Hskip : skipn i panelList = panel :: skipn (S i) panelList).
    { clear - E. revert i E.
      induction panelList as [| p l IHl]; intros [| i] E;
        try discriminate.
      - injection E as ->. reflexivity.
      - simpl in E. apply (IHl i E). }
    rewrite Hskip. reflexivity.
Qed.

(** X27. The bounds of slide [k] in closed form: it starts at the
    anchor plus the heights of the [k] panels before it, added up in
    order, and ends one panel height further; for slide 0 the start is
    the anchor itself. *)
Theorem scroll_bounds_closed_form
        (dockStart : option jsnum) (panelList : list Panel) (k : Z)
        (b : Bounds) :
  getPanelScrollBounds dockStart panelList k = Normal b ->
  exists panel,
    nth_error panelList (Z.to_nat k) = Some panel
    /\ (0 <= k)%Z
    /\ toNumber (panelStartScroll b)
       = fold_left add
                   (List.map getPanelHeight
                             (firstn (Z.to_nat k) panelList))
                   (toNumber dockStart)
    /\ panelEndScroll b
       = add (toNumber (panelStartScroll b)) (getPanelHeight panel)
    /\ (k = 0%Z -> panelStartScroll b = dockStart).
Proof.
  unfold getPanelScrollBounds, getPanelHeightAtZ, getPanelHeightAt.
  intros H.
  destruct (accumulate panelList 0 (Z.to_nat k) dockStart) as [s |] eqn:Ea;
    cbn [bind] in H; [| discriminate].
  destruct (Z.ltb_spec k 0); [discriminate |].
  destruct (nth_error panelList (Z.to_nat k)) as [panel |];
    cbn [bind] in H; [| discriminate].
  injection H as <-. exists panel.
  destruct (accumulate_sum panelList (Z.to_nat k) 0 dockStart s Ea)
    as [Hsum Hzero].
  split; [reflexivity |]. split; [assumption |].
  split; [exact Hsum |]. split; [reflexivity |].
  intros ->. apply Hzero. reflexivity.
Qed.

Lemma scroll_bounds_closed_form_witness :
  let first := {| classList := [lit "first"]; offsetHeight := 100;
                  marginTop := Fin 10; marginBottom := Fin 10;
                  paddingBottom := Fin 5 |} in
  let second := {| classList := []; offsetHeight := 100;
                   marginTop := Fin 10; marginBottom := Fin 10;
                   paddingBottom := Fin 5 |} in
  let b := {| panelStartScroll := Some (Fin 140);
              panelEndScroll := Fin 260 |} in
  exists panel,
    nth_error [first; second] (Z.to_nat 1) = Some panel
    /\ (0 <= 1)%Z
    /\ toNumber (panelStartScroll b)
       = fold_left add
                   (List.map getPanelHeight
                             (firstn (Z.to_nat 1) [first; second]))
                   (toNumber (Some (Fin 50)))
    /\ panelEndScroll b
       = add (toNumber (panelStartScroll b)) (getPanelHeight panel)
    /\ (1%Z = 0%Z -> panelStartScroll b = Some (Fin 50)).
Proof.
  intros first second b.
  apply (scroll_bounds_closed_form (Some (Fin 50)) [first; second] 1 b).
  reflexivity.
Defined.

Lemma accumulate_null_anchor (panelList : list Panel) (n : nat) :
  forall (i : nat) (s1 s2 : option jsnum),
    toNumber s1 = toNumber s2 ->
    match accumulate panelList i n s1, accumulate panelList i n s2 with
    | Normal r1, Normal r2 => toNumber r1 = toNumber r2
    | Throw e1, Throw e2 => e1 = e2
    | _, _ => False
    end.
Proof.
  induction n as [| n IH]; intros i s1 s2 H; [exact H |].
  cbn [accumulate]. destruct (getPanelHeightAt panelList i) as [h |];
    cbn [bind]; [| reflexivity].
  apply IH. cbn [toNumber]. now rewrite H.
Qed.

(** X28. An anchor that is null counts as 0: the progress computed
    without an anchor is the progress computed with the anchor at 0,
    and no [NaN] comes from the missing anchor. *)
Theorem null_anchor_counts_as_zero
        (panelList : list Panel) (k : Z) (scroll : jsnum) :
  getPanelProgress None panelList k scroll
  = getPanelProgress (Some (Fin 0)) panelList k scroll.
Proof.
  unfold getPanelProgress, getPanelScrollBounds.
  pose proof (accumulate_null_anchor panelList (Z.to_nat k) 0
                                     None (Some (Fin 0)) eq_refl) as H.
  destruct (accumulate panelList 0 (Z.to_nat k) None) as [r1 |],
           (accumulate panelList 0 (Z.to_nat k) (Some (Fin 0))) as [r2 |];
    try contradiction; cbn [bind].
  - destruct (getPanelHeightAtZ panelList k) as [h |]; cbn [bind];
      [| reflexivity].
    cbn [panelStartScroll panelEndScroll]. now rewrite H.
  - now rewrite H.
Qed.

(** X29. Over any run of the callbacks the anchor is what it was at the
    start, or the scroll position that one of the docking callbacks of
    the run saw on a docked target. *)
Theorem anchor_comes_from_a_docking_callback (events : list Event) :
  forall st : State,
    dockStartScroll (run events st) = dockStartScroll st
    \/ exists dom,
        In (DockMutation dom) events
        /\ contains (targetClassList dom) (lit "docked") = true
        /\ dockStartScroll (run events st) = Some (scrollY dom).
Proof.
  induction events as [| e rest IH]; intros st; [left; reflexivity |].
  simpl.
  destruct (IH (step e st)) as [Hsame | [dom [Hin [Hd Heq]]]].
  - rewrite Hsame.
    destruct e as [dom | frame | dom | dom]; simpl.
    + rewrite dockingObserver_anchor.
      destruct (contains (targetClassList dom) (lit "docked")) eqn:Ec;
        simpl; [| left; reflexivity].
      destruct (negb (isDocked st) && isDown (scrollDirection st));
        [| left; reflexivity].
      right. exists dom. split; [left; reflexivity |].
      split; [exact Ec | reflexivity].
    + left; reflexivity.
    + left; apply iframeWatcher_keeps_anchor.
    + left; apply scrollListener_keeps_anchor.
  - right. exists dom. split; [right; exact Hin |]. split; assumption.
Qed.

(* ================================================================== *)
(** * Part IV. Double precision                                        *)
(* ================================================================== *)

(** ** Rounding to the nearest double *)

Section Rounding.
Import JsNum Binary64.

Lemma pow2_pos (k : Z) : 0 < pow2 k.
Proof. apply Qpower_0_lt. reflexivity. Qed.

Lemma pow2_add (a b : Z) : pow2 (a + b) == pow2 a * pow2 b.
Proof. apply Qpower_plus. discriminate. Qed.

Lemma pow2_succ (k : Z) : pow2 (k + 1) == 2 * pow2 k.
Proof. rewrite pow2_add. change (pow2 1) with 2. ring. Qed.

Lemma pow2_le (a b : Z) : (a <= b)%Z -> pow2 a <= pow2 b.
Proof. intros H. apply Qpower_le_compat_l; [exact H | discriminate]. Qed.

Lemma pow2_lt (a b : Z) : (a < b)%Z -> pow2 a < pow2 b.
Proof. intros H. apply Qpower_lt_compat_l; [exact H | reflexivity]. Qed.

Lemma pow2_lt_inv (a b : Z) : pow2 a < pow2 b -> (a < b)%Z.
Proof. intros H. apply (Qpower_lt_compat_l_inv 2); [exact H | reflexivity]. Qed.

Lemma pow2_Z (k : Z) : (0 <= k)%Z -> pow2 k == inject_Z (2 ^ k).
Proof. intros H. unfold pow2. rewrite Zpower_Qpower by exact H. reflexivity. Qed.

(** a quotient of powers of two *)
Lemma pow2_sub (a b : Z) : pow2 (a - b) == pow2 a / pow2 b.
Proof. apply Qpower_minus. discriminate. Qed.

(** *** The binade of a positive number *)

Lemma ilog2_spec (q : Q) :
  0 < q -> pow2 (ilog2 q) <= q /\ q < pow2 (ilog2 q + 1).
Proof.
  destruct q as [n d]. intros Hq.
  assert (Hn : (0 < n)%Z).
  { unfold Qlt in Hq; simpl in Hq. lia. }
  unfold ilog2. cbn [Qnum Qden].
  set (a := Z.log2 n). set (b := Z.log2 (Z.pos d)).
  assert (Ha0 : (0 <= a)%Z) by apply Z.log2_nonneg.
  assert (Hb0 : (0 <= b)%Z) by apply Z.log2_nonneg.
  destruct (Z.log2_spec n Hn) as [Ha1 Ha2]. fold a in Ha1, Ha2.
  destruct (Z.log2_spec (Z.pos d) eq_refl) as [Hb1 Hb2]. fold b in Hb1, Hb2.
  assert (HA1 : pow2 a <= inject_Z n)
    by (rewrite pow2_Z by lia; rewrite <- Zle_Qle; lia).
  assert (HA2 : inject_Z n < 2 * pow2 a).
  { rewrite <- pow2_succ, pow2_Z by lia. rewrite <- Zlt_Qlt.
    replace (a + 1)%Z with (Z.succ a) by lia. exact Ha2. }
  assert (HB1 : pow2 b <= inject_Z (Z.pos d))
    by (rewrite pow2_Z by lia; rewrite <- Zle_Qle; lia).
  assert (HB2 : inject_Z (Z.pos d) < 2 * pow2 b).
  { rewrite <- pow2_succ, pow2_Z by lia. rewrite <- Zlt_Qlt.
    replace (b + 1)%Z with (Z.succ b) by lia. exact Hb2. }
  pose proof (pow2_pos a) as HA0. pose proof (pow2_pos b) as HB0.
  pose proof (pow2_pos (a - b)) as HX0.
  assert (HX : pow2 (a - b) * pow2 b == pow2 a).
  { rewrite <- pow2_add. replace (a - b + b)%Z with a by lia. reflexivity. }
  assert (HQ : (n # d) * inject_Z (Z.pos d) == inject_Z n).
  { rewrite (Qmake_Qdiv n d). field. discriminate. }
  set (x := pow2 (a - b)) in *. set (A := pow2 a) in *.
  set (B := pow2 b) in *. set (N := inject_Z n) in *.
  set (D := inject_Z (Z.pos d)) in *. set (q := n # d) in *.
  destruct (Qle_bool x q) eqn:E.
  - apply Qle_bool_iff in E. split; [exact E |].
    rewrite pow2_succ. fold x.
    apply (Qmult_lt_r _ _ D); [lra |]. nra.
  - assert (E' : q < x).
    { apply Qnot_le_lt. intros H. apply Qle_bool_iff in H. congruence. }
    replace (a - b - 1 + 1)%Z with (a - b)%Z by lia. split; [| exact E'].
    assert (Hh : 2 * pow2 (a - b - 1) == x).
    { rewrite <- pow2_succ. replace (a - b - 1 + 1)%Z with (a - b)%Z by lia.
      reflexivity. }
    apply (Qmult_le_r _ _ D); [lra |].
    pose proof (pow2_pos (a - b - 1)). nra.
Qed.

Lemma ilog2_unique (q : Q) (k : Z) :
  pow2 k <= q -> q < pow2 (k + 1) -> ilog2 q = k.
Proof.
  intros H1 H2.
  assert (Hq : 0 < q) by (pose proof (pow2_pos k); lra).
  destruct (ilog2_spec q Hq) as [H3 H4].
  assert (pow2 k < pow2 (ilog2 q + 1)) by lra.
  assert (pow2 (ilog2 q) < pow2 (k + 1)) by lra.
  apply pow2_lt_inv in H, H0. lia.
Qed.

Lemma ilog2_monotone (p q : Q) : 0 < p -> p <= q -> (ilog2 p <= ilog2 q)%Z.
Proof.
  intros Hp Hpq.
  destruct (ilog2_spec p Hp) as [H1 _].
  destruct (ilog2_spec q) as [_ H2]; [lra |].
  assert (H : pow2 (ilog2 p) < pow2 (ilog2 q + 1)) by lra.
  apply pow2_lt_inv in H. lia.
Qed.

End Rounding.

Section RoundHalfEven.
Import JsNum Binary64.

(** *** Rounding to an integer *)

Lemma floor_bounds (m : Q) :
  inject_Z (Qfloor m) <= m /\ m < inject_Z (Qfloor m) + 1.
Proof.
  split; [apply Qfloor_le |].
  pose proof (Qlt_floor m) as H. rewrite inject_Z_plus in H. exact H.
Qed.

Lemma roundHalfEven_cases (m : Q) :
  (roundHalfEven m = Qfloor m /\ m - inject_Z (Qfloor m) <= 1 # 2)
  \/ (roundHalfEven m = (Qfloor m + 1)%Z
      /\ (1 # 2) <= m - inject_Z (Qfloor m)).
Proof.
  unfold roundHalfEven.
  destruct (Qcompare_spec (m - inject_Z (Qfloor m)) (1 # 2)) as [H | H | H].
  - destruct (Z.even (Qfloor m)); [left | right]; split;
      try reflexivity; rewrite H; apply Qle_refl.
  - left. split; [reflexivity | apply Qlt_le_weak; exact H].
  - right. split; [reflexivity | apply Qlt_le_weak; exact H].
Qed.

Lemma roundHalfEven_comp (m m' : Q) :
  m == m' -> roundHalfEven m = roundHalfEven m'.
Proof.
  intros H. unfold roundHalfEven.
  rewrite (Qfloor_comp _ _ H).
  assert (E : m - inject_Z (Qfloor m') == m' - inject_Z (Qfloor m'))
    by (rewrite H; reflexivity).
  rewrite (Qcompare_comp _ _ E _ _ (Qeq_refl (1 # 2))). reflexivity.
Qed.

Lemma roundHalfEven_Z (z : Z) : roundHalfEven (inject_Z z) = z.
Proof.
  unfold roundHalfEven. rewrite Qfloor_Z.
  assert (E : inject_Z z - inject_Z z == 0) by ring.
  rewrite (Qcompare_comp _ _ E _ _ (Qeq_refl (1 # 2))). reflexivity.
Qed.

Lemma roundHalfEven_error (m : Q) :
  - (1 # 2) <= inject_Z (roundHalfEven m) - m <= 1 # 2.
Proof.
  destruct (floor_bounds m) as [H1 H2].
  destruct (roundHalfEven_cases m) as [[E H] | [E H]]; rewrite E;
    [| rewrite inject_Z_plus; change (inject_Z 1) with 1]; lra.
Qed.

Lemma roundHalfEven_monotone (m m' : Q) :
  m <= m' -> (roundHalfEven m <= roundHalfEven m')%Z.
Proof.
  intros Hm.
  pose proof (Qfloor_resp_le _ _ Hm) as Hf.
  destruct (Z.eq_dec (Qfloor m) (Qfloor m')) as [Ef | Nf].
  - unfold roundHalfEven. rewrite <- Ef.
    destruct (Qcompare_spec (m - inject_Z (Qfloor m)) (1 # 2)) as [H | H | H];
      destruct (Qcompare_spec (m' - inject_Z (Qfloor m)) (1 # 2))
        as [H' | H' | H'];
      destruct (Z.even (Qfloor m)); try lia; exfalso; lra.
  - destruct (roundHalfEven_cases m) as [[E _] | [E _]];
      destruct (roundHalfEven_cases m') as [[E' _] | [E' _]]; lia.
Qed.

(** no integer is nearer *)
Lemma roundHalfEven_nearest (m : Q) (z : Z) :
  Qabs (inject_Z (roundHalfEven m) - m) <= Qabs (inject_Z z - m).
Proof.
  destruct (floor_bounds m) as [H1 H2].
  assert (Hz : (z <= Qfloor m)%Z \/ (Qfloor m + 1 <= z)%Z) by lia.
  assert (Hz' : inject_Z z <= inject_Z (Qfloor m)
                \/ inject_Z (Qfloor m) + 1 <= inject_Z z).
  { destruct Hz as [Hz | Hz]; [left | right].
    - rewrite <- Zle_Qle; exact Hz.
    - rewrite Zle_Qle, inject_Z_plus in Hz. exact Hz. }
  apply Qabs_Qle_condition.
  destruct (roundHalfEven_cases m) as [[E H] | [E H]]; rewrite E;
    [| rewrite inject_Z_plus; change (inject_Z 1) with 1];
    destruct Hz' as [Hz' | Hz'];
    (apply Qabs_case; intros; split; lra).
Qed.

End RoundHalfEven.

Section Nearest.
Import JsNum Binary64.

(** *** The grid around a positive number *)

Lemma ilog2_comp (p q : Q) : 0 < p -> p == q -> ilog2 p = ilog2 q.
Proof.
  intros Hp E. destruct (ilog2_spec p Hp) as [H1 H2].
  symmetry. apply ilog2_unique; rewrite <- E; assumption.
Qed.

Lemma exponent_comp (p q : Q) : 0 < p -> p == q -> exponent p = exponent q.
Proof. intros Hp E. unfold exponent. now rewrite (ilog2_comp p q Hp E). Qed.

Lemma exponent_monotone (p q : Q) :
  0 < p -> p <= q -> (exponent p <= exponent q)%Z.
Proof.
  intros Hp H. unfold exponent. pose proof (ilog2_monotone p q Hp H). lia.
Qed.

Lemma nearest_comp (p q : Q) : 0 < p -> p == q -> nearest p == nearest q.
Proof.
  intros Hp E. unfold nearest. rewrite <- (exponent_comp p q Hp E).
  assert (E' : p / pow2 (exponent p) == q / pow2 (exponent p))
    by (apply Qmult_comp; [exact E | reflexivity]).
  rewrite (roundHalfEven_comp _ _ E'). reflexivity.
Qed.

(** the quotient by the grid step, and back *)
Lemma on_grid (q : Q) (g : Z) : q / pow2 g * pow2 g == q.
Proof. field. pose proof (pow2_pos g). lra. Qed.

Lemma nearest_ge_grid (q : Q) (z : Z) :
  inject_Z z * pow2 (exponent q) <= q ->
  inject_Z z * pow2 (exponent q) <= nearest q.
Proof.
  intros H. unfold nearest.
  pose proof (pow2_pos (exponent q)) as HG.
  apply Qmult_le_compat_r; [| lra].
  rewrite <- Zle_Qle. rewrite <- (roundHalfEven_Z z).
  apply roundHalfEven_monotone.
  apply Qle_shift_div_l; assumption.
Qed.

Lemma nearest_le_grid (q : Q) (z : Z) :
  q <= inject_Z z * pow2 (exponent q) ->
  nearest q <= inject_Z z * pow2 (exponent q).
Proof.
  intros H. unfold nearest.
  pose proof (pow2_pos (exponent q)) as HG.
  apply Qmult_le_compat_r; [| lra].
  rewrite <- Zle_Qle. rewrite <- (roundHalfEven_Z z).
  apply roundHalfEven_monotone.
  apply Qle_shift_div_r; assumption.
Qed.

Lemma nearest_nonneg (q : Q) : 0 <= q -> 0 <= nearest q.
Proof.
  intros H. pose proof (nearest_ge_grid q 0) as H0.
  change (inject_Z 0) with 0 in H0. lra.
Qed.

(** no point of the grid is nearer *)
Lemma nearest_on_grid (q : Q) (z : Z) :
  Qabs (nearest q - q) <= Qabs (inject_Z z * pow2 (exponent q) - q).
Proof.
  unfold nearest. set (G := pow2 (exponent q)).
  assert (HG : 0 < G) by apply pow2_pos.
  pose proof (roundHalfEven_nearest (q / G) z) as H.
  assert (E1 : inject_Z (roundHalfEven (q / G)) * G - q
               == (inject_Z (roundHalfEven (q / G)) - q / G) * G)
    by (field; lra).
  assert (E2 : inject_Z z * G - q == (inject_Z z - q / G) * G)
    by (field; lra).
  rewrite E1, E2, !Qabs_Qmult, (Qabs_pos G) by lra.
  apply Qmult_le_compat_r; [exact H | lra].
Qed.

Lemma nearest_error (q : Q) :
  Qabs (nearest q - q) <= pow2 (exponent q) * (1 # 2).
Proof.
  unfold nearest. set (G := pow2 (exponent q)).
  assert (HG : 0 < G) by apply pow2_pos.
  pose proof (roundHalfEven_error (q / G)) as [H1 H2].
  assert (E1 : inject_Z (roundHalfEven (q / G)) * G - q
               == (inject_Z (roundHalfEven (q / G)) - q / G) * G)
    by (field; lra).
  rewrite E1. apply Qabs_Qle_condition. split; nra.
Qed.

(** a power of two that the grid contains *)
Lemma pow2_on_grid (g k : Z) :
  (g <= k)%Z -> pow2 k == inject_Z (2 ^ (k - g)) * pow2 g.
Proof.
  intros H. rewrite <- pow2_Z by lia. rewrite <- pow2_add.
  replace (k - g + g)%Z with k by lia. reflexivity.
Qed.

Lemma nearest_monotone (p q : Q) :
  0 < p -> p <= q -> nearest p <= nearest q.
Proof.
  intros Hp Hpq.
  pose proof (exponent_monotone p q Hp Hpq) as Hg.
  destruct (Z.eq_dec (exponent p) (exponent q)) as [E | N].
  - unfold nearest. rewrite <- E.
    pose proof (pow2_pos (exponent p)) as HG.
    apply Qmult_le_compat_r; [| lra].
    rewrite <- Zle_Qle. apply roundHalfEven_monotone.
    apply Qmult_le_compat_r; [exact Hpq |].
    apply Qlt_le_weak, Qinv_lt_0_compat, HG.
  - (* the binade of [q] starts at a point of both grids *)
    assert (Hq : 0 < q) by lra.
    destruct (ilog2_spec p Hp) as [_ Hp2].
    destruct (ilog2_spec q Hq) as [Hq1 _].
    assert (Hk : (ilog2 p < ilog2 q)%Z) by (unfold exponent in *; lia).
    assert (Hgq : exponent q = (ilog2 q - 52)%Z) by (unfold exponent in *; lia).
    apply Qle_trans with (pow2 (ilog2 q)).
    + rewrite (pow2_on_grid (exponent p) (ilog2 q)) by lia.
      apply nearest_le_grid.
      rewrite <- pow2_on_grid by lia.
      apply Qle_trans with (pow2 (ilog2 p + 1)); [lra | apply pow2_le; lia].
    + rewrite (pow2_on_grid (exponent q) (ilog2 q)) by lia.
      apply nearest_ge_grid.
      rewrite <- pow2_on_grid by lia. exact Hq1.
Qed.

End Nearest.

Section Rnd.
Import JsNum Binary64.

(** *** Rounding a number of either sign *)

Lemma rnd_pos (q : Q) : 0 < q -> rnd q = nearest q.
Proof.
  intros H. unfold rnd.
  destruct (Qcompare_spec q 0) as [E | E | E]; [lra | lra | reflexivity].
Qed.

Lemma rnd_neg (q : Q) : q < 0 -> rnd q = - nearest (- q).
Proof.
  intros H. unfold rnd.
  destruct (Qcompare_spec q 0) as [E | E | E]; [lra | reflexivity | lra].
Qed.

Lemma rnd_zero (q : Q) : q == 0 -> rnd q = 0.
Proof.
  intros H. unfold rnd.
  destruct (Qcompare_spec q 0) as [E | E | E]; [reflexivity | lra | lra].
Qed.

Lemma rnd_comp (p q : Q) : p == q -> rnd p == rnd q.
Proof.
  intros E.
  destruct (Qlt_le_dec 0 p) as [Hp | Hp].
  - rewrite (rnd_pos p Hp), (rnd_pos q) by lra.
    apply nearest_comp; assumption.
  - destruct (Qlt_le_dec p 0) as [Hn | Hn].
    + rewrite (rnd_neg p Hn), (rnd_neg q) by lra.
      apply Qopp_comp, nearest_comp; [lra | now rewrite E].
    + rewrite (rnd_zero p), (rnd_zero q) by lra. reflexivity.
Qed.

Lemma rnd_opp (q : Q) : rnd (- q) == - rnd q.
Proof.
  destruct (Qlt_le_dec 0 q) as [Hp | Hp].
  - rewrite (rnd_neg (- q)), (rnd_pos q) by lra.
    apply Qopp_comp, nearest_comp; [lra | ring].
  - destruct (Qlt_le_dec q 0) as [Hn | Hn].
    + rewrite (rnd_pos (- q)), (rnd_neg q) by lra. ring.
    + rewrite (rnd_zero q), (rnd_zero (- q)) by lra. reflexivity.
Qed.

Lemma rnd_nonneg (q : Q) : 0 <= q -> 0 <= rnd q.
Proof.
  intros H. destruct (Qlt_le_dec 0 q) as [Hp | Hp].
  - rewrite rnd_pos by exact Hp. apply nearest_nonneg, H.
  - rewrite rnd_zero by lra. apply Qle_refl.
Qed.

Lemma rnd_nonpos (q : Q) : q <= 0 -> rnd q <= 0.
Proof.
  intros H. pose proof (rnd_nonneg (- q)) as H0.
  rewrite rnd_opp in H0. lra.
Qed.

(** rounding keeps the order *)
Lemma rnd_monotone (p q : Q) : p <= q -> rnd p <= rnd q.
Proof.
  intros H. destruct (Qlt_le_dec 0 p) as [Hp | Hp].
  - rewrite (rnd_pos p Hp), (rnd_pos q) by lra.
    apply nearest_monotone; assumption.
  - destruct (Qlt_le_dec q 0) as [Hq | Hq].
    + rewrite (rnd_neg p), (rnd_neg q) by lra.
      apply Qopp_le_compat, nearest_monotone; lra.
    + apply Qle_trans with 0; [apply rnd_nonpos | apply rnd_nonneg];
        assumption.
Qed.

(** *** Doubles *)

Lemma representable_opp (q : Q) : representable q -> representable (- q).
Proof.
  intros [m [e [Hm [He E]]]]. exists (- m)%Z, e.
  split; [lia |]. split; [exact He |].
  rewrite E, inject_Z_opp. ring.
Qed.

Lemma representable_comp (p q : Q) :
  p == q -> representable p -> representable q.
Proof.
  intros E [m [e [Hm [He H]]]]. exists m, e.
  split; [exact Hm |]. split; [exact He |]. now rewrite <- E.
Qed.

(** the grid around a positive double holds it *)
Lemma representable_exponent (q : Q) (m e : Z) :
  0 < q -> (Z.abs m < 2 ^ 53)%Z -> (-1074 <= e)%Z ->
  q == inject_Z m * pow2 e ->
  (exponent q <= e)%Z.
Proof.
  intros Hq Hm He E.
  destruct (ilog2_spec q Hq) as [H1 _].
  pose proof (pow2_pos e) as HG.
  assert (Hlt : q < pow2 (53 + e)).
  { rewrite pow2_add, (pow2_Z 53) by lia. rewrite E.
    apply Qmult_lt_compat_r; [exact HG |].
    rewrite <- Zlt_Qlt. lia. }
  assert (H : pow2 (ilog2 q) < pow2 (53 + e)) by lra.
  apply pow2_lt_inv in H. unfold exponent. lia.
Qed.

Lemma nearest_exact (q : Q) :
  0 < q -> representable q -> nearest q == q.
Proof.
  intros Hq [m [e [Hm [He E]]]].
  pose proof (representable_exponent q m e Hq Hm He E) as Hg.
  set (g := exponent q) in *.
  assert (Eg : q == inject_Z (m * 2 ^ (e - g)) * pow2 g).
  { rewrite inject_Z_mult, <- Qmult_assoc, <- pow2_on_grid by lia.
    exact E. }
  apply Qle_antisym.
  - rewrite Eg at 2. apply nearest_le_grid. fold g. rewrite <- Eg.
    apply Qle_refl.
  - rewrite Eg at 1. apply nearest_ge_grid. fold g. rewrite <- Eg.
    apply Qle_refl.
Qed.

(** a double is left as it is *)
Lemma rnd_exact (q : Q) : representable q -> rnd q == q.
Proof.
  intros H. destruct (Qlt_le_dec 0 q) as [Hp | Hp].
  - rewrite rnd_pos by exact Hp. apply nearest_exact; assumption.
  - destruct (Qlt_le_dec q 0) as [Hn | Hn].
    + rewrite rnd_neg by exact Hn.
      rewrite nearest_exact; [ring | lra | apply representable_opp, H].
    + rewrite rnd_zero by lra. lra.
Qed.

Lemma nearest_representable (q : Q) : 0 < q -> representable (nearest q).
Proof.
  intros Hq. unfold nearest.
  set (g := exponent q). set (z := roundHalfEven (q / pow2 g)).
  destruct (ilog2_spec q Hq) as [_ H2].
  pose proof (pow2_pos g) as HG.
  assert (Hg1 : (-1074 <= g)%Z) by (unfold g, exponent; lia).
  assert (Hg2 : (ilog2 q + 1 <= g + 53)%Z) by (unfold g, exponent; lia).
  assert (Hup : (z <= 2 ^ 53)%Z).
  { unfold z. rewrite <- (roundHalfEven_Z (2 ^ 53)).
    apply roundHalfEven_monotone.
    apply Qle_shift_div_r; [exact HG |].
    assert (E53 : pow2 (g + 53) == inject_Z (2 ^ 53) * pow2 g).
    { rewrite (pow2_on_grid g (g + 53)) by lia.
      replace (g + 53 - g)%Z with 53%Z by lia. reflexivity. }
    rewrite <- E53.
    apply Qle_trans with (pow2 (ilog2 q + 1)); [lra | apply pow2_le; lia]. }
  assert (Hlo : (0 <= z)%Z).
  { unfold z. rewrite <- (roundHalfEven_Z 0).
    apply roundHalfEven_monotone.
    apply Qle_shift_div_l; [exact HG |]. change (inject_Z 0) with 0. lra. }
  destruct (Z.eq_dec z (2 ^ 53)) as [E | N].
  - exists (2 ^ 52)%Z, (g + 1)%Z.
    split; [lia |]. split; [lia |].
    rewrite E, pow2_succ.
    change (inject_Z (2 ^ 53)) with (2 * inject_Z (2 ^ 52)). ring.
  - exists z, g. split; [lia |]. split; [exact Hg1 | reflexivity].
Qed.

Lemma rnd_representable (q : Q) : representable (rnd q).
Proof.
  destruct (Qlt_le_dec 0 q) as [Hp | Hp].
  - rewrite rnd_pos by exact Hp. apply nearest_representable, Hp.
  - destruct (Qlt_le_dec q 0) as [Hn | Hn].
    + rewrite rnd_neg by exact Hn.
      apply representable_opp, nearest_representable. lra.
    + rewrite rnd_zero by lra. exists 0%Z, 0%Z.
      split; [reflexivity |]. split; [lia | reflexivity].
Qed.

End Rnd.

Section RndNearest.
Import JsNum Binary64.

(** *** No double is nearer, and how near the nearest is *)

Lemma nearest_nearest (q f : Q) :
  0 < q -> representable f -> Qabs (nearest q - q) <= Qabs (f - q).
Proof.
  intros Hq [m [e [Hm [He E]]]].
  destruct (Z_le_gt_dec (exponent q) e) as [Hg | Hg].
  - assert (Ef : f == inject_Z (m * 2 ^ (e - exponent q))
                      * pow2 (exponent q)).
    { rewrite inject_Z_mult, <- Qmult_assoc, <- pow2_on_grid by lia.
      exact E. }
    rewrite Ef. apply nearest_on_grid.
  - (* [f] lies below the binade of [q] *)
    destruct (ilog2_spec q Hq) as [H1 _].
    assert (Hk : exponent q = (ilog2 q - 52)%Z) by (unfold exponent in *; lia).
    assert (Hf : f < pow2 (ilog2 q)).
    { apply Qlt_le_trans with (pow2 (53 + e)); [| apply pow2_le; lia].
      rewrite pow2_add, (pow2_Z 53) by lia. rewrite E.
      apply Qmult_lt_compat_r; [apply pow2_pos |].
      rewrite <- Zlt_Qlt. lia. }
    pose proof (nearest_on_grid q (2 ^ (ilog2 q - exponent q))) as Hn.
    rewrite <- pow2_on_grid in Hn by lia.
    rewrite (Qabs_neg (pow2 (ilog2 q) - q)) in Hn by lra.
    rewrite (Qabs_neg (f - q)) by lra. lra.
Qed.

Lemma rnd_nearest (q f : Q) :
  representable f -> Qabs (rnd q - q) <= Qabs (f - q).
Proof.
  intros Hf. destruct (Qlt_le_dec 0 q) as [Hp | Hp].
  - rewrite rnd_pos by exact Hp. apply nearest_nearest; assumption.
  - destruct (Qlt_le_dec q 0) as [Hn | Hn].
    + rewrite rnd_neg by exact Hn.
      pose proof (nearest_nearest (- q) (- f)) as H.
      assert (E1 : - nearest (- q) - q == - (nearest (- q) - - q)) by ring.
      assert (E2 : f - q == - (- f - - q)) by ring.
      rewrite E1, E2, !Qabs_opp. apply H; [lra |].
      apply representable_opp, Hf.
    + rewrite rnd_zero by lra.
      assert (E : 0 - q == 0) by lra.
      rewrite E. apply Qabs_nonneg.
Qed.

(** from [2^-1022] on, the error is at most [2^-53] of the number *)
Lemma nearest_relative (q : Q) :
  pow2 (-1022) <= q -> Qabs (nearest q - q) <= pow2 (-53) * q.
Proof.
  intros H.
  assert (Hq : 0 < q) by (pose proof (pow2_pos (-1022)); lra).
  destruct (ilog2_spec q Hq) as [H1 H2].
  assert (Hk : (-1022 <= ilog2 q)%Z).
  { assert (Hlt : pow2 (-1022) < pow2 (ilog2 q + 1)) by lra.
    apply pow2_lt_inv in Hlt. lia. }
  apply Qle_trans with (pow2 (exponent q) * (1 # 2));
    [apply nearest_error |].
  replace (exponent q) with (-53 + ilog2 q + 1)%Z
    by (unfold exponent; lia).
  rewrite pow2_succ, pow2_add.
  pose proof (pow2_pos (-53)). pose proof (pow2_pos (ilog2 q)). nra.
Qed.

(** a multiple of [2^-1074] below [2^-1022] is a double *)
Lemma representable_small (q : Q) (z : Z) :
  q == inject_Z z * pow2 (-1074) -> Qabs q < pow2 (-1022) ->
  representable q.
Proof.
  intros E H. exists z, (-1074)%Z.
  split; [| split; [lia | exact E]].
  assert (Hz : Qabs (inject_Z z) < inject_Z (2 ^ 52)).
  { apply (Qmult_lt_r _ _ (pow2 (-1074))); [apply pow2_pos |].
    rewrite <- (pow2_on_grid (-1074) (-1022)) by lia.
    rewrite <- (Qabs_pos (pow2 (-1074))) at 1
      by (apply Qlt_le_weak, pow2_pos).
    rewrite <- Qabs_Qmult, <- E. exact H. }
  change (Qabs (inject_Z z)) with (inject_Z (Z.abs z)) in Hz.
  rewrite <- Zlt_Qlt in Hz. lia.
Qed.

(** a double is a multiple of [2^-1074] *)
Lemma representable_multiple (q : Q) :
  representable q -> exists z, q == inject_Z z * pow2 (-1074).
Proof.
  intros [m [e [_ [He E]]]]. exists (m * 2 ^ (e - -1074))%Z.
  rewrite inject_Z_mult, <- Qmult_assoc, <- pow2_on_grid by lia. exact E.
Qed.

Lemma rnd_relative (q : Q) :
  pow2 (-1022) <= Qabs q -> Qabs (rnd q - q) <= pow2 (-53) * Qabs q.
Proof.
  intros H. destruct (Qlt_le_dec 0 q) as [Hp | Hp].
  - rewrite (Qabs_pos q) in * by lra. rewrite rnd_pos by exact Hp.
    apply nearest_relative, H.
  - rewrite (Qabs_neg q) in * by exact Hp.
    assert (Hn : q < 0) by (pose proof (pow2_pos (-1022)); lra).
    rewrite rnd_neg by exact Hn.
    assert (E1 : - nearest (- q) - q == - (nearest (- q) - - q)) by ring.
    rewrite E1, Qabs_opp. apply nearest_relative, H.
Qed.

(** the difference of two doubles, rounded *)
Lemma rnd_difference (a b : Q) :
  representable a -> representable b ->
  Qabs (rnd (b - a) - (b - a)) <= pow2 (-53) * Qabs (b - a).
Proof.
  intros Ha Hb.
  destruct (Qlt_le_dec (Qabs (b - a)) (pow2 (-1022))) as [Hs | Hs].
  - destruct (representable_multiple a Ha) as [za Ea].
    destruct (representable_multiple b Hb) as [zb Eb].
    assert (Hr : representable (b - a)).
    { apply (representable_small _ (zb - za)); [| exact Hs].
      unfold Z.sub. rewrite inject_Z_plus, inject_Z_opp, Ea, Eb. ring. }
    assert (E : rnd (b - a) - (b - a) == 0)
      by (rewrite (rnd_exact _ Hr); ring).
    rewrite E. change (Qabs 0) with 0.
    apply Qmult_le_0_compat; [apply Qlt_le_weak, pow2_pos | apply Qabs_nonneg].
  - apply rnd_relative, Hs.
Qed.

(** rounding does not pass a double *)
Lemma rnd_le_double (q B : Q) : representable B -> q <= B -> rnd q <= B.
Proof.
  intros HB H. rewrite <- (rnd_exact B HB). apply rnd_monotone, H.
Qed.

Lemma rnd_ge_double (q B : Q) : representable B -> B <= q -> B <= rnd q.
Proof.
  intros HB H. rewrite <- (rnd_exact B HB). apply rnd_monotone, H.
Qed.

Lemma rnd_bounded (q B : Q) :
  representable B -> Qabs q <= B -> Qabs (rnd q) <= B.
Proof.
  intros HB H. apply Qabs_Qle_condition in H. destruct H as [H1 H2].
  apply Qabs_Qle_condition. split.
  - apply rnd_ge_double; [apply representable_opp, HB | exact H1].
  - apply rnd_le_double; assumption.
Qed.

(** integers up to [2^53] and powers of two are doubles *)
Lemma representable_Z (z : Z) :
  (Z.abs z <= 2 ^ 53)%Z -> representable (inject_Z z).
Proof.
  intros H. destruct (Z.eq_dec (Z.abs z) (2 ^ 53)) as [E | N].
  - exists (z / 2)%Z, 1%Z. split; [| split; [lia |]].
    + assert (z = 2 ^ 53 \/ z = - 2 ^ 53)%Z as [-> | ->] by lia;
        vm_compute; reflexivity.
    + assert (z = 2 ^ 53 \/ z = - 2 ^ 53)%Z as [-> | ->] by lia;
        vm_compute; reflexivity.
  - exists z, 0%Z. split; [lia |]. split; [lia |].
    change (pow2 0) with 1. ring.
Qed.

Lemma representable_pow2 (k : Z) : (-1074 <= k)%Z -> representable (pow2 k).
Proof.
  intros H. exists 1%Z, k. split; [reflexivity |]. split; [exact H |].
  change (inject_Z 1) with 1. ring.
Qed.

End RndNearest.

Section Round.
Import JsNum Binary64.

(** *** The rounded operations *)

Lemma fin_comp (p q : Q) : p == q -> fin p = fin q.
Proof. intros H. unfold fin. f_equal. apply Qred_complete, H. Qed.

Lemma round_comp (p q : Q) : p == q -> round p = round q.
Proof.
  intros H. unfold round. pose proof (rnd_comp p q H) as E.
  rewrite (Qle_bool_comp (pow2 1024) (rnd p) (pow2 1024) (rnd q))
    by (exact E || reflexivity).
  rewrite (Qle_bool_comp (rnd p) (- pow2 1024) (rnd q) (- pow2 1024))
    by (exact E || reflexivity).
  rewrite (fin_comp _ _ E). reflexivity.
Qed.

#[global] Instance rnd_proper : Proper (Qeq ==> Qeq) Binary64.rnd.
Proof. exact rnd_comp. Qed.

#[global] Instance round_proper : Proper (Qeq ==> eq) Binary64.round.
Proof. exact round_comp. Qed.

(** below [2^1023] in magnitude nothing overflows *)
Lemma round_fin (q : Q) : Qabs q <= pow2 1023 -> round q = fin (rnd q).
Proof.
  intros H.
  pose proof (rnd_bounded q (pow2 1023)
                          (representable_pow2 1023 ltac:(lia)) H) as Hb.
  apply Qabs_Qle_condition in Hb. destruct Hb as [H1 H2].
  pose proof (pow2_lt 1023 1024 ltac:(lia)) as Hlt.
  unfold round.
  destruct (Qle_bool (pow2 1024) (rnd q)) eqn:E1.
  { apply Qle_bool_iff in E1. lra. }
  destruct (Qle_bool (rnd q) (- pow2 1024)) eqn:E2.
  { apply Qle_bool_iff in E2. lra. }
  reflexivity.
Qed.

Lemma number_fin (q : Q) : number (fin q) = round q.
Proof. apply round_comp, Qred_correct. Qed.

Lemma add_Fin64 (p q : Q) : add (Fin p) (Fin q) = round (p + q).
Proof. apply number_fin. Qed.

Lemma sub_Fin64 (p q : Q) : sub (Fin p) (Fin q) = round (p - q).
Proof. apply number_fin. Qed.

Lemma mul_Fin64 (p q : Q) : mul (Fin p) (Fin q) = round (p * q).
Proof. apply number_fin. Qed.


(** the operations on numbers that are stored reduced *)
Lemma add_fin (p q : Q) : add (fin p) (fin q) = round (p + q).
Proof.
  unfold fin. rewrite add_Fin64. apply round_comp.
  now rewrite !Qred_correct.
Qed.

Lemma sub_fin (p q : Q) : sub (fin p) (fin q) = round (p - q).
Proof.
  unfold fin. rewrite sub_Fin64. apply round_comp.
  now rewrite !Qred_correct.
Qed.

Lemma mul_fin_Fin (p q : Q) : mul (fin p) (Fin q) = round (p * q).
Proof.
  unfold fin. rewrite mul_Fin64. apply round_comp.
  now rewrite !Qred_correct.
Qed.

(** a double, rounded again, is itself *)
Lemma rnd_idempotent (q : Q) : rnd (rnd q) == rnd q.
Proof. apply rnd_exact, rnd_representable. Qed.

End Round.

(** ** The easing curve in double precision *)

Section Easing.
Import JsNum Binary64.

Lemma representable_twice (t : Q) : representable t -> representable (2 * t).
Proof.
  intros [m [e [Hm [He E]]]]. exists m, (e + 1)%Z.
  split; [exact Hm |]. split; [lia |]. rewrite pow2_succ, E. ring.
Qed.

Lemma representable_0 : representable 0.
Proof. apply (representable_Z 0). vm_compute. discriminate. Qed.

Lemma representable_1 : representable 1.
Proof. apply (representable_Z 1). vm_compute. discriminate. Qed.

(** a number between two doubles is rounded to a number between them *)
Lemma rnd_between (q a b : Q) :
  representable a -> representable b -> a <= q <= b -> a <= rnd q <= b.
Proof.
  intros Ha Hb [H1 H2]. split;
    [apply rnd_ge_double | apply rnd_le_double]; assumption.
Qed.

Lemma round_unit (q : Q) :
  0 <= q <= 1 -> round q = fin (rnd q) /\ 0 <= rnd q <= 1.
Proof.
  intros H. split.
  - apply round_fin. rewrite Qabs_pos by lra.
    apply Qle_trans with 1; [lra |].
    change 1 with (pow2 0). apply pow2_le. lia.
  - apply rnd_between; [apply representable_0 | apply representable_1 | exact H].
Qed.

(** the progress after clamping: a double of the unit interval *)
Lemma clamped_progress (p : Q) :
  exists t,
    max (Fin 0) (min (Fin 1) (round p)) = Fin t
    /\ 0 <= t <= 1
    /\ representable t
    /\ (p <= 0 -> t == 0)
    /\ (1 <= p -> t == 1).
Proof.
  unfold round.
  destruct (Qle_bool (pow2 1024) (rnd p)) eqn:E1.
  { apply Qle_bool_iff in E1. exists 1. split; [reflexivity |].
    split; [lra |]. split; [apply representable_1 |].
    split; [| reflexivity].
    intros Hp. pose proof (rnd_nonpos p Hp).
    pose proof (pow2_pos 1024). lra. }
  destruct (Qle_bool (rnd p) (- pow2 1024)) eqn:E2.
  { apply Qle_bool_iff in E2. exists 0. split; [reflexivity |].
    split; [lra |]. split; [apply representable_0 |].
    split; [reflexivity |].
    intros Hp. pose proof (rnd_nonneg p ltac:(lra)).
    pose proof (pow2_pos 1024). lra. }
  destruct (clamp_Fin (Qred (rnd p))) as [c [Hc [Hv _]]].
  unfold fin. rewrite Hc. exists c. split; [reflexivity |].
  pose proof (Qred_correct (rnd p)) as Hr.
  destruct (clamp01_cases (Qred (rnd p))) as [[H E] | [[H E] | [H E]]];
    rewrite E in Hv.
  - split; [lra |].
    split; [apply (representable_comp 0); [lra | apply representable_0] |].
    split; [intros; lra |].
    intros Hp. pose proof (rnd_ge_double p 1 representable_1 Hp). lra.
  - split; [lra |].
    split; [apply (representable_comp (rnd p));
            [lra | apply rnd_representable] |].
    split; intros Hp.
    + pose proof (rnd_nonpos p Hp). lra.
    + pose proof (rnd_ge_double p 1 representable_1 Hp). lra.
  - split; [lra |].
    split; [apply (representable_comp 1); [lra | apply representable_1] |].
    split; [| intros; lra].
    intros Hp. pose proof (rnd_nonpos p Hp). lra.
Qed.

Lemma rnd_tie_at_two : rnd (2 + pow2 (-52)) == 2.
Proof. apply Qeq_bool_iff. vm_compute. reflexivity. Qed.

(** the error of rounding a number from 2 to 4 *)
Lemma rnd_error_2_4 (q : Q) :
  2 <= q -> q < 4 -> Qabs (rnd q - q) <= pow2 (-52).
Proof.
  intros H1 H2.
  assert (Hk : ilog2 q = 1%Z) by (apply ilog2_unique; assumption).
  rewrite rnd_pos by lra.
  pose proof (nearest_error q) as H.
  unfold exponent in H. rewrite Hk in H.
  change (Z.max (1 - 52) (-1074)) with (-52 + 1)%Z in H.
  rewrite pow2_succ in H. pose proof (pow2_pos (-52)). lra.
Qed.

Lemma easeInOut_unit (t : Q) :
  representable t -> 0 <= t <= 1 ->
  exists u,
    easeInOut (Fin t) = Fin u
    /\ 0 <= u <= 1
    /\ (t == 0 -> u == 0)
    /\ (t == 1 -> u == 1).
Proof.
  intros Ht H01. unfold easeInOut.
  destruct (ltb (Fin t) (Fin (1 # 2))) eqn:E.
  - apply ltb_Fin in E.
    rewrite mul_Fin64.
    destruct (round_unit (2 * t)) as [R1 B1]; [lra |].
    rewrite R1, mul_fin_Fin.
    destruct (round_unit (rnd (2 * t) * t)) as [R2 B2]; [nra |].
    rewrite R2. eexists. split; [reflexivity |].
    rewrite Qred_correct. split; [exact B2 |].
    split; [| intros; lra].
    intros E0.
    rewrite (rnd_zero (rnd (2 * t) * t)); [reflexivity | rewrite E0; ring].
  - apply ltb_Fin_false in E.
    rewrite mul_Fin64.
    assert (Hw : rnd (2 * t) == 2 * t)
      by (apply rnd_exact, representable_twice, Ht).
    rewrite round_fin
      by (rewrite Qabs_pos by lra;
          apply Qle_trans with (pow2 1); [change (pow2 1) with 2; lra |];
          apply pow2_le; lia).
    change (Fin 4) with (fin 4). rewrite sub_fin.
    assert (E4 : 4 - rnd (2 * t) == 4 - 2 * t) by (rewrite Hw; reflexivity).
    rewrite (round_comp _ _ E4).
    set (u1 := rnd (4 - 2 * t)).
    assert (Hu1 : 2 <= u1 <= 3).
    { apply rnd_between;
        [apply (representable_Z 2) | apply (representable_Z 3) | lra];
        vm_compute; discriminate. }
    assert (He1 : Qabs (u1 - (4 - 2 * t)) <= pow2 (-52))
      by (apply rnd_error_2_4; lra).
    apply Qabs_Qle_condition in He1. destruct He1 as [He1 He2].
    rewrite round_fin
      by (rewrite Qabs_pos by lra;
          apply Qle_trans with (pow2 2); [change (pow2 2) with 4; lra |];
          apply pow2_le; lia).
    fold u1. rewrite mul_fin_Fin.
    pose proof (pow2_pos (-52)) as Hpos.
    set (v := rnd (u1 * t)).
    assert (Hv : 1 <= v <= 2).
    { split.
      - apply rnd_ge_double; [apply representable_1 | nra].
      - rewrite <- rnd_tie_at_two. apply rnd_monotone. nra. }
    rewrite round_fin
      by (rewrite Qabs_pos by nra;
          apply Qle_trans with (pow2 2); [change (pow2 2) with 4; nra |];
          apply pow2_le; lia).
    fold v. change (Fin (-1)) with (fin (-1)). rewrite add_fin.
    destruct (round_unit (-1 + v)) as [R B]; [lra |].
    rewrite R. eexists. split; [reflexivity |].
    rewrite Qred_correct. split; [exact B |].
    split; [intros; lra |].
    intros E1.
    assert (Eu : u1 == 2).
    { unfold u1. rewrite (rnd_comp _ 2) by (rewrite E1; ring).
      apply rnd_exact, (representable_Z 2). vm_compute. discriminate. }
    assert (Ev : v == 2).
    { unfold v. rewrite (rnd_comp _ 2) by (rewrite Eu, E1; ring).
      apply rnd_exact, (representable_Z 2). vm_compute. discriminate. }
    rewrite (rnd_comp _ 1) by (rewrite Ev; ring).
    apply rnd_exact, representable_1.
Qed.

Lemma eased_range64 (p : Q) :
  exists u,
    eased (Fin p) = Fin u
    /\ 0 <= u <= 1
    /\ (p <= 0 -> u == 0)
    /\ (1 <= p -> u == 1).
Proof.
  unfold eased. cbn [number].
  destruct (clamped_progress p) as [t [Ht [H01 [Hr [H0 H1]]]]].
  rewrite Ht.
  destruct (easeInOut_unit t Hr H01) as [u [Hu [Hb [Hu0 Hu1]]]].
  exists u. split; [exact Hu |]. split; [exact Hb |].
  split; intros Hp; [apply Hu0, H0, Hp | apply Hu1, H1, Hp].
Qed.

End Easing.

(** ** The linear interpolation in double precision *)

Section Lerp.
Import JsNum AnimateOnScroll Binary64.

Lemma pow2_double (k : Z) : pow2 k + pow2 k == pow2 (k + 1).
Proof. rewrite pow2_succ. ring. Qed.

(** the numbers of [lerp] for two fields of ordinary size and a
    factor of the unit interval *)
Lemma lerp_value (a b t : Q) :
  Qabs a <= pow2 1000 -> Qabs b <= pow2 1000 -> 0 <= t <= 1 ->
  round a = fin (rnd a)
  /\ round b = fin (rnd b)
  /\ lerp (Some a) (Some b) (Fin t)
     = Some (fin (rnd (rnd a + rnd (rnd (rnd b - rnd a) * t)))).
Proof.
  intros Ha Hb Ht.
  pose proof (pow2_le 1000 1023 ltac:(lia)) as H1000.
  pose proof (pow2_le 1001 1023 ltac:(lia)) as H1001.
  pose proof (pow2_le 1002 1023 ltac:(lia)) as H1002.
  pose proof (pow2_double 1000) as D1000. simpl Z.add in D1000.
  pose proof (pow2_double 1001) as D1001. simpl Z.add in D1001.
  pose proof (pow2_pos 1000) as P1000.
  pose proof (rnd_bounded a _ (representable_pow2 1000 ltac:(lia)) Ha) as Ba.
  pose proof (rnd_bounded b _ (representable_pow2 1000 ltac:(lia)) Hb) as Bb.
  assert (Ra : round a = fin (rnd a)) by (apply round_fin; lra).
  assert (Rb : round b = fin (rnd b)) by (apply round_fin; lra).
  split; [exact Ra |]. split; [exact Rb |].
  apply Qabs_Qle_condition in Ba, Bb.
  assert (Bd0 : Qabs (rnd b - rnd a) <= pow2 1001)
    by (apply Qabs_Qle_condition; lra).
  pose proof (rnd_bounded _ _ (representable_pow2 1001 ltac:(lia)) Bd0) as Bd.
  apply Qabs_Qle_condition in Bd.
  assert (Bx0 : Qabs (rnd (rnd b - rnd a) * t) <= pow2 1001)
    by (apply Qabs_Qle_condition; nra).
  pose proof (rnd_bounded _ _ (representable_pow2 1001 ltac:(lia)) Bx0) as Bx.
  apply Qabs_Qle_condition in Bx.
  unfold lerp. rewrite Ra, Rb, sub_fin.
  rewrite (round_fin (rnd b - rnd a)) by lra.
  rewrite mul_fin_Fin.
  rewrite (round_fin (rnd (rnd b - rnd a) * t)) by lra.
  rewrite add_fin.
  rewrite round_fin by (apply Qabs_Qle_condition; lra).
  reflexivity.
Qed.

(** the product with a factor of the unit interval, rounded, lies
    between 0 and the number *)
Lemma rnd_scaled (d t : Q) :
  representable d -> 0 <= t <= 1 ->
  (0 <= d -> 0 <= rnd (d * t) <= d)
  /\ (d <= 0 -> d <= rnd (d * t) <= 0).
Proof.
  intros Hd Ht. split; intros Hs;
    apply rnd_between; try assumption; try apply representable_0; nra.
Qed.

(** what [qa + (qb - qa)] is, for two doubles *)
Lemma lerp_at_one (qa qb : Q) :
  representable qa -> representable qb ->
  Qabs (rnd (qa + rnd (qb - qa)) - qb) <= pow2 (-52) * Qabs (qb - qa)
  /\ (representable (qb - qa) -> rnd (qa + rnd (qb - qa)) == qb).
Proof.
  intros Ha Hb. split.
  - pose proof (rnd_difference qa qb Ha Hb) as Hd.
    pose proof (rnd_nearest (qa + rnd (qb - qa)) qb Hb) as Hn.
    set (d := rnd (qb - qa)) in *. set (r := rnd (qa + d)) in *.
    assert (E : qb - (qa + d) == - (d - (qb - qa))) by ring.
    rewrite E, Qabs_opp in Hn.
    assert (Hp : pow2 (-52) * Qabs (qb - qa)
                 == 2 * (pow2 (-53) * Qabs (qb - qa))).
    { assert (H2 : pow2 (-52) == 2 * pow2 (-53))
        by (rewrite <- pow2_succ; reflexivity).
      rewrite H2. ring. }
    rewrite Hp. set (bound := pow2 (-53) * Qabs (qb - qa)) in *.
    assert (Hn' : Qabs (r - (qa + d)) <= bound)
      by (apply Qle_trans with (Qabs (d - (qb - qa))); assumption).
    apply Qabs_Qle_condition in Hd, Hn'. apply Qabs_Qle_condition.
    split; lra.
  - intros Hr. rewrite (rnd_exact _ Hr).
    rewrite (rnd_comp _ qb) by ring. apply rnd_exact, Hb.
Qed.

Lemma lerp_atCurrent (a b : option Q) :
  ordinary a -> ordinary b -> atCurrent (lerp a b (Fin 0)) a b.
Proof.
  unfold atCurrent, fieldValue.
  destruct a as [a |], b as [b |]; intros Ha Hb;
    [| reflexivity | reflexivity | reflexivity].
  destruct (lerp_value a b 0 Ha Hb) as [Ra [_ Hl]]; [lra |].
  rewrite Hl. cbn [orElse option_map]. rewrite Ra. f_equal.
  apply fin_comp.
  rewrite (rnd_zero (rnd (rnd b - rnd a) * 0)) by ring.
  rewrite (rnd_comp _ (rnd a)) by ring. apply rnd_idempotent.
Qed.

Lemma lerp_one_step (a b : Q) :
  rnd (rnd a + rnd (rnd (rnd b - rnd a) * 1))
  == rnd (rnd a + rnd (rnd b - rnd a)).
Proof.
  apply rnd_comp. rewrite (rnd_comp (_ * 1) (rnd (rnd b - rnd a))) by ring.
  rewrite rnd_idempotent. reflexivity.
Qed.

Lemma representable_Qred (q : Q) : representable q -> representable (Qred q).
Proof. apply representable_comp. symmetry. apply Qred_correct. Qed.

Lemma lerp_atNext (a b : option Q) :
  ordinary a -> ordinary b -> atNext (lerp a b (Fin 1)) a b.
Proof.
  unfold atNext, fieldValue.
  destruct a as [a |], b as [b |]; intros Ha Hb;
    [| reflexivity | reflexivity | reflexivity].
  destruct (lerp_value a b 1 Ha Hb) as [Ra [Rb Hl]]; [lra |].
  rewrite Hl, Ra, Rb. unfold fin.
  do 3 eexists. split; [reflexivity |]. split; [reflexivity |].
  split; [reflexivity |].
  destruct (lerp_at_one (rnd a) (rnd b) (rnd_representable a)
                        (rnd_representable b)) as [Hn He].
  pose proof (lerp_one_step a b) as E.
  pose proof (Qred_correct (rnd a)) as Ea.
  pose proof (Qred_correct (rnd b)) as Eb.
  split.
  - rewrite !Qred_correct, E. exact Hn.
  - intros Hr. rewrite Qred_correct, E, Eb. apply He.
    apply (representable_comp (Qred (rnd b) - Qred (rnd a))); [| exact Hr].
    rewrite Ea, Eb. reflexivity.
Qed.

Lemma lerp_withinEnds (a b : option Q) (u : Q) :
  ordinary a -> ordinary b -> 0 <= u <= 1 ->
  withinEnds (lerp a b (Fin u)) a b.
Proof.
  unfold withinEnds, fieldValue.
  destruct a as [a |], b as [b |]; intros Ha Hb Hu;
    [| reflexivity | reflexivity | reflexivity].
  destruct (lerp_value a b u Ha Hb Hu) as [Ra [Rb Hl]].
  destruct (lerp_value a b 1 Ha Hb) as [_ [_ Hl1]]; [lra |].
  rewrite Hl, Hl1, Ra, Rb. unfold fin.
  do 4 eexists. split; [reflexivity |]. split; [reflexivity |].
  split; [reflexivity |]. split; [reflexivity |].
  rewrite !Qred_correct. rewrite (lerp_one_step a b).
  split; [| apply lerp_at_one; apply rnd_representable].
  set (qa := rnd a). set (d := rnd (rnd b - qa)).
  assert (Hqa : rnd qa == qa) by apply rnd_idempotent.
  destruct (rnd_scaled d u (rnd_representable _) Hu) as [Hpos Hneg].
  destruct (Qlt_le_dec d 0) as [Hd | Hd].
  - destruct (Hneg ltac:(lra)) as [H1 H2].
    assert (Hlo : rnd (qa + d) <= rnd (qa + rnd (d * u)))
      by (apply rnd_monotone; lra).
    assert (Hhi : rnd (qa + rnd (d * u)) <= qa)
      by (rewrite <- Hqa at 2; apply rnd_monotone; lra).
    rewrite Q.min_r, Q.max_l by lra. lra.
  - destruct (Hpos Hd) as [H1 H2].
    assert (Hhi : rnd (qa + rnd (d * u)) <= rnd (qa + d))
      by (apply rnd_monotone; lra).
    assert (Hlo : qa <= rnd (qa + rnd (d * u)))
      by (rewrite <- Hqa at 1; apply rnd_monotone; lra).
    rewrite Q.min_l, Q.max_r by lra. lra.
Qed.

End Lerp.

(** ** Viewpoint interpolation in double precision *)

Section Viewpoint64.
Import JsNum JsString AnimateOnScroll.

Lemma eased_zero64 : Binary64.eased (Fin 0) = Fin 0.
Proof. vm_compute. reflexivity. Qed.

Lemma eased_one64 : Binary64.eased (Fin 1) = Fin 1.
Proof. vm_compute. reflexivity. Qed.

(** C7, as the code has it.  When interpolation applies (both cameras
    with their positions, or both viewpoints with their target
    geometries) and the numbers are of ordinary size, every
    interpolated number is, at progress 0, the current slide's if the
    current slide defines it and the next slide's otherwise.  At
    progress 1 a number that one slide only defines is that slide's,
    and a number both define is [a + (b - a)] in double arithmetic: the
    next slide's [b] when [b - a] is a double, and otherwise within
    [2^-52] of [b - a] of it.  The spatial reference is at every
    progress the current slide's if defined, else the next slide's. *)
Theorem viewpoint_boundary_values :
  (forall (cc nc : Camera) (cp np : Point),
      position cc = Some cp ->
      position nc = Some np ->
      ordinaryCamera cc cp ->
      ordinaryCamera nc np ->
      exists j0 j1,
        Binary64.interpolatedCamera cc nc (Binary64.eased (Fin 0)) = Normal j0
        /\ Binary64.interpolatedCamera cc nc (Binary64.eased (Fin 1))
           = Normal j1
        /\ pSpatialReference (cPosition j0)
           = orElse (spatialReference cp) (spatialReference np)
        /\ pSpatialReference (cPosition j1)
           = orElse (spatialReference cp) (spatialReference np)
        /\ cameraNumbers atCurrent j0 cc nc cp np
        /\ cameraNumbers atNext j1 cc nc cp np)
  /\ (forall (cv nv : Viewpoint) (cg ng : Geometry),
         targetGeometry cv = Some cg ->
         targetGeometry nv = Some ng ->
         ordinaryViewpoint cv cg ->
         ordinaryViewpoint nv ng ->
         exists j0 j1,
           Binary64.interpolatedViewpoint cv nv (Binary64.eased (Fin 0))
           = Normal j0
           /\ Binary64.interpolatedViewpoint cv nv (Binary64.eased (Fin 1))
              = Normal j1
           /\ gSpatialReference (vTargetGeometry j0)
              = orElse (geometrySpatialReference cg)
                       (geometrySpatialReference ng)
           /\ gSpatialReference (vTargetGeometry j1)
              = orElse (geometrySpatialReference cg)
                       (geometrySpatialReference ng)
           /\ viewpointNumbers atCurrent j0 cv nv cg ng
           /\ viewpointNumbers atNext j1 cv nv cg ng).
Proof.
  split.
  - intros cc nc cp np Hc Hn [Hx [Hy [Hz [Hh Ht]]]] [Hx' [Hy' [Hz' [Hh' Ht']]]].
    unfold Binary64.interpolatedCamera.
    rewrite Hc, Hn, eased_zero64, eased_one64.
    do 2 eexists. split; [reflexivity |]. split; [reflexivity |].
    split; [reflexivity |]. split; [reflexivity |].
    unfold cameraNumbers; simpl.
    repeat split; (apply lerp_atCurrent || apply lerp_atNext); assumption.
  - intros cv nv cg ng Hc Hn [Hr [Hs [H1 [H2 [H3 H4]]]]]
           [Hr' [Hs' [H1' [H2' [H3' H4']]]]].
    unfold Binary64.interpolatedViewpoint.
    rewrite Hc, Hn, eased_zero64, eased_one64.
    do 2 eexists. split; [reflexivity |]. split; [reflexivity |].
    split; [reflexivity |]. split; [reflexivity |].
    unfold viewpointNumbers; simpl.
    repeat split; (apply lerp_atCurrent || apply lerp_atNext); assumption.
Qed.

(** two cameras that define every field *)
Lemma viewpoint_boundary_values_witness :
  let cp := {| spatialReference := Some 4326%Z; x := Some 10; y := Some 20;
               z := Some 1000 |} in
  let np := {| spatialReference := Some 4326%Z; x := Some 30; y := Some 40;
               z := Some 500 |} in
  let cc := {| position := Some cp; heading := Some 0; tilt := Some 45 |} in
  let nc := {| position := Some np; heading := Some 90; tilt := Some 60 |} in
  exists j0 j1,
    Binary64.interpolatedCamera cc nc (Binary64.eased (Fin 0)) = Normal j0
    /\ Binary64.interpolatedCamera cc nc (Binary64.eased (Fin 1)) = Normal j1
    /\ pSpatialReference (cPosition j0) = Some 4326%Z
    /\ pSpatialReference (cPosition j1) = Some 4326%Z
    /\ cameraNumbers atCurrent j0 cc nc cp np
    /\ cameraNumbers atNext j1 cc nc cp np.
Proof.
  intros cp np cc nc.
  refine (proj1 viewpoint_boundary_values cc nc cp np eq_refl eq_refl _ _);
    repeat split; vm_compute; discriminate.
Defined.

(** A scene whose current camera has no heading and stands at
    longitude -122.419416, while the next one looks east from longitude
    2.352222.  At progress 0 the camera handed to [goTo] looks east
    too, which is not the current slide's heading; at progress 1 its
    longitude is 2.3522219999999976, which is not the next slide's. *)
Lemma viewpoint_boundary_counterexample :
  let cc := {| position := Some {| spatialReference := Some 4326%Z;
                                   x := Some (-122419416 # 1000000);
                                   y := Some 20; z := Some 1000 |};
               heading := None; tilt := Some 45 |} in
  let nc := {| position := Some {| spatialReference := Some 4326%Z;
                                   x := Some (2352222 # 1000000);
                                   y := Some 40; z := Some 500 |};
               heading := Some 90; tilt := Some 60 |} in
  let viewpointWith c := {| camera := Some c; rotation := None; scale := None;
                            targetGeometry := None |} in
  let scene := {| mapView := Some {| hasCamera := true;
                                     viewEnvironment := None;
                                     goToCalls := [] |};
                  timeSlider := None; consoleErrors := [] |} in
  let tick p := {| slideCurrent := [PViewpoint (viewpointWith cc)];
                   slideNext := Some [PViewpoint (viewpointWith nc)];
                   progress := Fin p |} in
  exists j0 j1,
    navigation (fst (Binary64.interpolateViewpoint animationConfig
                                                   (tick 0) scene))
    = Some [ {| target := TargetCamera j0;
                options := {| animate := false; duration := None |} |} ]
    /\ navigation (fst (Binary64.interpolateViewpoint animationConfig
                                                      (tick 1) scene))
       = Some [ {| target := TargetCamera j1;
                   options := {| animate := false; duration := None |} |} ]
    /\ cHeading j0 = Some (Fin 90)
    /\ cHeading j0 <> fieldValue (heading cc)
    /\ px (cPosition j1)
       = fieldValue (Some (23522219999999976 # 10000000000000000))
    /\ px (cPosition j1) <> fieldValue (Some (2352222 # 1000000)).
Proof.
  intros cc nc viewpointWith scene tick.
  eexists. eexists.
  split; [vm_compute; reflexivity |].
  split; [vm_compute; reflexivity |].
  split; [reflexivity |].
  split; [vm_compute; discriminate |].
  split; [vm_compute; reflexivity |].
  vm_compute. discriminate.
Qed.

(** X9. The eased progress [easeInOut(max(0, min(1, progress)))], with
    [easeInOut(t) = t < 0.5 ? 2*t*t : -1 + (4 - 2*t)*t] in double
    arithmetic, is a number from 0 to 1 for every finite progress; it
    is 0 for a progress of 0 or less and 1 for a progress of 1 or more.
    It is not monotone: there are two progresses of which the larger
    has the smaller eased progress. *)
Theorem eased_unit_interval :
  (forall p : Q,
      exists u,
        Binary64.eased (Fin p) = Fin u
        /\ 0 <= u <= 1
        /\ (p <= 0 -> u == 0)
        /\ (1 <= p -> u == 1))
  /\ (exists p1 p2 u1 u2,
         0 <= p1 /\ p1 < p2 /\ p2 <= 1
         /\ Binary64.eased (Fin p1) = Fin u1
         /\ Binary64.eased (Fin p2) = Fin u2
         /\ u2 < u1).
Proof.
  split; [exact eased_range64 |].
  exists (7955497914656589 # 10000000000000000),
         (795549791465659 # 1000000000000000).
  do 2 eexists.
  split; [vm_compute; discriminate |].
  split; [vm_compute; reflexivity |].
  split; [vm_compute; discriminate |].
  split; [vm_compute; reflexivity |].
  split; [vm_compute; reflexivity |].
  vm_compute. reflexivity.
Qed.

(** a progress past the end of the panel *)
Lemma eased_unit_interval_witness :
  exists u, Binary64.eased (Fin (3 # 2)) = Fin u /\ u == 1.
Proof.
  destruct (proj1 eased_unit_interval (3 # 2)) as [u [Hu [_ [_ H1]]]].
  exists u. split; [exact Hu |]. apply H1. vm_compute. discriminate.
Defined.

Lemma lerp_eased_withinEnds (a b : option Q) (p : Q) :
  ordinary a -> ordinary b ->
  withinEnds (Binary64.lerp a b (Binary64.eased (Fin p))) a b.
Proof.
  intros Ha Hb.
  destruct (eased_range64 p) as [u [Hu [Hr _]]]. rewrite Hu.
  apply lerp_withinEnds; assumption.
Qed.

(** X10. Whatever the finite progress, also outside 0 to 1, an
    interpolated number of ordinary size lies between the current
    slide's value and the value the field takes at progress 1, and
    that value is the next slide's up to [2^-52] of the difference of
    the two; a field that only one slide defines has that slide's
    value.  The margin is used: there are two values of which the
    field at progress 1 lies beyond the next slide's. *)
Theorem interpolation_stays_within_ends :
  (forall (cc nc : Camera) (cp np : Point) (p : Q),
      position cc = Some cp ->
      position nc = Some np ->
      ordinaryCamera cc cp ->
      ordinaryCamera nc np ->
      exists j,
        Binary64.interpolatedCamera cc nc (Binary64.eased (Fin p)) = Normal j
        /\ cameraNumbers withinEnds j cc nc cp np)
  /\ (forall (cv nv : Viewpoint) (cg ng : Geometry) (p : Q),
         targetGeometry cv = Some cg ->
         targetGeometry nv = Some ng ->
         ordinaryViewpoint cv cg ->
         ordinaryViewpoint nv ng ->
         exists j,
           Binary64.interpolatedViewpoint cv nv (Binary64.eased (Fin p))
           = Normal j
           /\ viewpointNumbers withinEnds j cv nv cg ng)
  /\ (exists a b q1 qb,
         b < a
         /\ Binary64.lerp (Some a) (Some b) (Binary64.eased (Fin 1))
            = Some (Fin q1)
         /\ Binary64.round b = Fin qb
         /\ q1 < qb).
Proof.
  split; [| split].
  - intros cc nc cp np p Hc Hn [Hx [Hy [Hz [Hh Ht]]]]
           [Hx' [Hy' [Hz' [Hh' Ht']]]].
    unfold Binary64.interpolatedCamera. rewrite Hc, Hn.
    eexists. split; [reflexivity |]. unfold cameraNumbers; simpl.
    repeat split; apply lerp_eased_withinEnds; assumption.
  - intros cv nv cg ng p Hc Hn [Hr [Hs [H1 [H2 [H3 H4]]]]]
           [Hr' [Hs' [H1' [H2' [H3' H4']]]]].
    unfold Binary64.interpolatedViewpoint. rewrite Hc, Hn.
    eexists. split; [reflexivity |]. unfold viewpointNumbers; simpl.
    repeat split; apply lerp_eased_withinEnds; assumption.
  - exists (120875437 # 1000000), (-24203856 # 1000000).
    do 2 eexists.
    split; [vm_compute; reflexivity |].
    split; [vm_compute; reflexivity |].
    split; [vm_compute; reflexivity |].
    vm_compute. reflexivity.
Qed.

(** a camera turning from north to east, read at a progress of 3/2 *)
Lemma interpolation_stays_within_ends_witness :
  let cp := {| spatialReference := Some 4326%Z; x := Some 10; y := Some 20;
               z := Some 1000 |} in
  let np := {| spatialReference := Some 4326%Z; x := Some 30; y := Some 40;
               z := Some 500 |} in
  let cc := {| position := Some cp; heading := Some 0; tilt := None |} in
  let nc := {| position := Some np; heading := Some 90; tilt := Some 60 |} in
  exists j,
    Binary64.interpolatedCamera cc nc (Binary64.eased (Fin (3 # 2)))
    = Normal j
    /\ cameraNumbers withinEnds j cc nc cp np.
Proof.
  intros cp np cc nc.
  refine (proj1 interpolation_stays_within_ends cc nc cp np (3 # 2)
                eq_refl eq_refl _ _);
    repeat split; try exact I; vm_compute; discriminate.
Defined.

End Viewpoint64.

(** ** The time slider in double precision *)

Section TimeSlider64.
Import JsNum JsString AnimateOnScroll Binary64.



Lemma sub_fin_Fin (p q : Q) : sub (fin p) (Fin q) = round (p - q).
Proof.
  unfold fin. rewrite sub_Fin64. apply round_comp. now rewrite Qred_correct.
Qed.








End TimeSlider64.

Section Snapping64.
Import JsNum JsString AnimateOnScroll Binary64.

(** *** Numbers that are not [NaN] *)








(** *** The ceiling of a rounded quotient of whole numbers *)



End Snapping64.

Section SnapAndClamp64.
Import JsNum JsString AnimateOnScroll Binary64.






End SnapAndClamp64.
